(** * Shrinkray, passes for "things that look like programming languages"

    A shallow embedding of [shrinkray/passes/genericlanguages.py]:
    the two format adapters, the integer shrinker, the region-parallel
    pass engine [regex_pass] with its commit protocol, the expression
    folding pass and the identifier normaliser, with the properties the
    design document states about them. *)

From Stdlib Require Import ZArith List Bool Lia String Ascii Strings.Byte.
From stdpp Require Import base list gmap sorting.
Import ListNotations.

Open Scope Z_scope.

(** ** Bytes

    A Python [bytes] value is a list of bytes.  [b"..."] literals of the
    source are written [bs "..."]. *)

Abbreviation bytes := (list byte).

Definition bs (s : string) : bytes := list_byte_of_string s.

#[global] Instance byte_eq_dec : EqDecision byte := Byte.byte_eq_dec.

#[global] Program Instance byte_countable : Countable byte :=
  inj_countable Byte.to_N Byte.of_N _.
Next Obligation. intros x. apply Byte.of_to_N. Qed.

(** [x[a:b]] for non-negative [a] and [b]: Python clamps both ends to the
    length and gives the empty sequence when [b <= a]; [take] and [drop] do
    the same. *)
Definition slice {A} (x : list A) (a b : nat) : list A :=
  take (b - a) (drop a x).

(** [x[a:]] is [drop a x] and [x[:b]] is [take b x]. *)

Definition startswith (x p : bytes) : bool :=
  bool_decide (take (length p) x = p).

Definition endswith (x s : bytes) : bool :=
  (length s <=? length x)%nat && bool_decide (drop (length x - length s) x = s).

(** ** Exceptions

    The exception classes the module raises or lets through. *)

Inductive exn : Type :=
  | ParseError
  | AssertionError
  | SyntaxError
  | ValueError
  | ZeroDivisionError
  | OverflowError.

(** [except ArithmeticError]: the classes that derive from it. *)
Definition is_ArithmeticError (e : exn) : bool :=
  match e with
  | ZeroDivisionError | OverflowError => true
  | ParseError | AssertionError | SyntaxError | ValueError => false
  end.

(** ** Format adapters

    [Format[S, T]] is the interface of [shrinkray.problem]; a [raise
    ParseError()] is [None], and [dumps] returns the exception that
    leaves it, if one does. *)

Class Format (S T : Type) : Type := {
  parse : S -> option T;
  dumps : T -> exn + S
}.

Module Substring.

Record t : Type := Make { prefix : bytes; suffix : bytes }.

Definition parse (self : t) (input : bytes) : option bytes :=
  if startswith input (prefix self) && endswith input (suffix self)
  then Some (slice input (length (prefix self))
                         (length input - length (suffix self)))
  else None.

Definition dumps (self : t) (input : bytes) : bytes :=
  prefix self ++ input ++ suffix self.

End Substring.

#[global] Instance Substring_format (self : Substring.t) : Format bytes bytes :=
  {| parse := Substring.parse self; dumps := fun y => inr (Substring.dumps self y) |}.

(** ** Decimal text

    [int(text)] and [str(n)] of the interpreter, base ten, with the
    interpreter's limit on the number of digits of a decimal conversion. *)

(** [sys.int_info.default_max_str_digits]: converting between [int] and
    decimal text raises as soon as more than this many digits are
    involved. *)
Definition max_str_digits : Z := 4300.

Definition byte_val (c : byte) : Z := Z.of_N (Byte.to_N c).

Definition is_digit (c : byte) : bool :=
  (48 <=? byte_val c) && (byte_val c <=? 57).

Definition digit_value (c : byte) : Z := byte_val c - 48.

Definition digit_byte (d : Z) : byte :=
  default "0"%byte (Byte.of_N (Z.to_N (d + 48))).

(** The value of a run of decimal digits, most significant first. *)
Definition decimal_value (ds : bytes) : Z :=
  fold_left (fun acc c => 10 * acc + digit_value c) ds 0.

(** Space, tab, line feed, vertical tab, form feed, carriage return. *)
Definition is_space (c : byte) : bool :=
  bool_decide (byte_val c = 32) || ((9 <=? byte_val c) && (byte_val c <=? 13)).

Fixpoint lstrip (s : bytes) : bytes :=
  match s with
  | c :: r => if is_space c then lstrip r else s
  | [] => []
  end.

Definition rstrip (s : bytes) : bytes := reverse (lstrip (reverse s)).

(** The digits after the first one: a digit, or one underscore followed
    by a digit. *)
Fixpoint int_digits (acc : Z) (s : bytes) : option Z :=
  match s with
  | [] => Some acc
  | c :: r =>
      if is_digit c then int_digits (10 * acc + digit_value c) r
      else if bool_decide (c = "_"%byte) then
        match r with
        | c2 :: r2 =>
            if is_digit c2 then int_digits (10 * acc + digit_value c2) r2
            else None
        | [] => None
        end
      else None
  end.

Definition int_literal (s : bytes) : option Z :=
  match s with
  | c :: r => if is_digit c then int_digits (digit_value c) r else None
  | [] => None
  end.

(** The digits of a text; the sign, the underscores and the whitespace
    do not count towards the limit. *)
Fixpoint count_digits (s : bytes) : Z :=
  match s with
  | [] => 0
  | c :: r => (if is_digit c then 1 else 0) + count_digits r
  end.

(** [int(text)]: surrounding whitespace is dropped, one sign is allowed,
    then come the digits, leading zeros included, at most
    [max_str_digits] of them.  [None] is a [ValueError]. *)
Definition py_int (text : bytes) : option Z :=
  match rstrip (lstrip text) with
  | c :: r =>
      let literal :=
        if bool_decide (c = "-"%byte) then Z.opp <$> int_literal r
        else if bool_decide (c = "+"%byte) then int_literal r
        else int_literal (c :: r) in
      if max_str_digits <? count_digits (c :: r) then None else literal
  | [] => None
  end.

(** [input.decode("ascii")]: [None] is a [UnicodeDecodeError]. *)
Definition decode_ascii (input : bytes) : option bytes :=
  if forallb (fun c => byte_val c <? 128) input then Some input else None.

Fixpoint str_digits (fuel : nat) (n : Z) : bytes :=
  match fuel with
  | O => []
  | S k =>
      if n <? 10 then [digit_byte n]
      else str_digits k (n / 10) ++ [digit_byte (n mod 10)]
  end.

(** The decimal text of [n], whatever its length. *)
Definition decimal_text (n : Z) : bytes :=
  if n <? 0 then "-"%byte :: str_digits (S (Z.to_nat (- n))) (- n)
  else str_digits (S (Z.to_nat n)) n.

(** [str(n).encode("ascii")]: a number of more than [max_str_digits]
    digits (the sign does not count) raises [ValueError], which is [None]
    here. *)
Definition py_str_int (n : Z) : option bytes :=
  if max_str_digits <? count_digits (decimal_text n) then None
  else Some (decimal_text n).

Module IntegerFormat.

(** [except (ValueError, UnicodeDecodeError): raise ParseError()] *)
Definition parse (input : bytes) : option Z :=
  match decode_ascii input with
  | Some text => py_int text
  | None => None
  end.

(** Nothing catches the [ValueError] of [str]. *)
Definition dumps (input : Z) : exn + bytes :=
  match py_str_int input with
  | Some text => inr text
  | None => inl ValueError
  end.

End IntegerFormat.

#[global] Instance IntegerFormat_format : Format bytes Z :=
  {| parse := IntegerFormat.parse; dumps := IntegerFormat.dumps |}.

(** ** The candidate session *)

(** Modelled from the spec: the Candidate Session ([ReductionProblem] and
    [BasicReductionProblem] of [shrinkray.problem], which this module
    imports).  It owns one current candidate; [is_interesting c] asks the
    oracle about [c] and, when the answer is yes, [c] becomes the current
    candidate, otherwise the current candidate is unchanged.  [probes]
    records the oracle calls in order, so that properties can speak about
    what was probed. *)
Record session (A : Type) : Type := Session {
  current_test_case : A;
  probes : list (A * bool)
}.
Arguments Session {A} _ _.
Arguments current_test_case {A} _.
Arguments probes {A} _.

Definition new_session {A} (initial : A) : session A := Session initial [].

Definition is_interesting {A} (oracle : A -> bool) (c : A) (p : session A)
  : bool * session A :=
  let b := oracle c in
  (b, Session (if b then c else current_test_case p) (probes p ++ [(c, b)])).

(** ** reduce_integer *)

(** The [while lo + 1 < hi] loop.  [None] stands for a loop that has not
    ended when the fuel is used up; [//] by a positive divisor is [Z.div]. *)
Fixpoint reduce_integer_loop (oracle : Z -> bool) (fuel : nat) (lo hi : Z)
    (p : session Z) : option (session Z) :=
  if lo + 1 <? hi then
    match fuel with
    | O => None
    | S fuel' =>
        let mid := (lo + hi) / 2 in
        let '(b, p) := is_interesting oracle mid p in
        let '(lo, hi) := if b then (lo, mid) else (mid, hi) in
        let '(b, p) := is_interesting oracle (hi - 1) p in
        let hi := if b then hi - 1 else hi in
        let '(b, p) := is_interesting oracle (lo + 1) p in
        if b then Some p
        else reduce_integer_loop oracle fuel' (lo + 1) hi p
    end
  else Some p.

Definition reduce_integer (oracle : Z -> bool) (fuel : nat) (p : session Z)
  : option (exn + session Z) :=
  if current_test_case p <? 0 then Some (inl AssertionError)
  else
    let '(b, p) := is_interesting oracle 0 p in
    if b then Some (inr p)
    else
      let lo := 0 in
      let hi := current_test_case p in
      inr <$> reduce_integer_loop oracle fuel lo hi p.

(** ** regex_pass: regions and reconstruction *)

(** A compiled pattern is used through [pattern.search(string, pos)]
    only; [search tc pos] is the span [(u, v)] of the leftmost match at or
    after [pos], if there is one. *)
Definition searcher : Type := bytes -> nat -> option (nat * nat).

(** The scan that collects [matching_regions].  [None] stands for a loop
    that has not ended when the fuel is used up. *)
Fixpoint matching_regions_loop (search : searcher) (fuel : nat) (tc : bytes)
    (i : nat) (matching_regions : list (nat * nat)) : option (list (nat * nat)) :=
  if (i <? length tc)%nat then
    match fuel with
    | O => None
    | S fuel' =>
        match search tc i with
        | None => Some matching_regions
        | Some (u, v) =>
            matching_regions_loop search fuel' tc v (matching_regions ++ [(u, v)])
        end
    end
  else Some matching_regions.

Definition matching_regions (search : searcher) (fuel : nat) (tc : bytes)
  : option (list (nat * nat)) :=
  matching_regions_loop search fuel tc 0%nat [].

(** [replacements = [initial[u:v] for u, v in matching_regions]] *)
Definition initial_replacements (initial : bytes) (regions : list (nat * nat))
  : list bytes :=
  map (fun '(u, v) => slice initial u v) regions.

(** The [parts] list of [replace], from region number [j] on, with [prev]
    the end of the region before.  [replacements[j]] is always in range:
    the list has one slot per region and only its elements are assigned. *)
Fixpoint replace_parts (initial : bytes) (replacements : list bytes)
    (i : nat) (s : bytes) (j prev : nat) (regions : list (nat * nat))
  : list bytes :=
  match regions with
  | [] => [drop prev initial]
  | (u, v) :: rest =>
      slice initial prev u
      :: (if decide (j <> i) then replacements !!! j else s)
      :: replace_parts initial replacements i s (S j) v rest
  end.

Definition replace (initial : bytes) (regions : list (nat * nat))
    (replacements : list bytes) (i : nat) (s : bytes) : bytes :=
  concat (replace_parts initial replacements i s 0%nat 0%nat regions).

(** *** Two patterns *)

Fixpoint span_digits (s : bytes) : nat :=
  match s with
  | c :: r => if is_digit c then S (span_digits r) else 0%nat
  | [] => 0%nat
  end.

Fixpoint find_digits (s : bytes) (pos : nat) : option (nat * nat) :=
  match s with
  | [] => None
  | c :: r =>
      if is_digit c then Some (pos, (pos + span_digits s)%nat)
      else find_digits r (S pos)
  end.

(** [re.compile(b"[0-9]+").search]: the leftmost digit at or after [pos]
    and the digits that follow it. *)
Definition search_digits : searcher := fun tc pos =>
  if (pos <=? length tc)%nat then find_digits (drop pos tc) pos else None.

(** [re.compile(b"").search]: the empty pattern matches the empty span at
    [pos] itself. *)
Definition search_empty : searcher := fun tc pos =>
  if (pos <=? length tc)%nat then Some (pos, pos) else None.

(** ** regex_pass: the per-region commit protocol

    The tasks of the nursery run interleaved and give up control only at
    an [await] that blocks: the oracle call and the back-off sleep.  A
    state of the engine is what all tasks can see at such a point;
    a step runs one task from one such point to its next. *)

(** The local variables of one call [is_interesting(s)] of region [i]. *)
Record frame : Type := Frame {
  fr_s : bytes;
  is_merging : bool;
  retries : Z
}.

(** Where a task stands. *)
Inductive task : Type :=
  | InSubPass
      (* in the sub-pass [fn], outside [is_interesting], or finished *)
  | AtSleep (f : frame)
      (* at [await trio.sleep(0.01)] *)
  | AtOracle (f : frame) (attempt : bytes).
      (* at [await problem.is_interesting(attempt)] *)

Record engine : Type := Engine {
  replacements : list bytes;
  current_merge_attempts : Z;
  problem : session bytes;
  tasks : list task;
  raised : option exn
}.

(** How a stretch of [is_interesting(s)] ends. *)
Inductive outcome : Type :=
  | Suspend (t : task)
  | Return (b : bool)
  | Raise (e : exn).

(** What a task asks for next: the sub-pass calls [is_interesting(s)] of
    region [i], the sleep of task [i] is over, or the oracle answers
    task [i]. *)
Inductive event : Type :=
  | Propose (i : nat) (s : bytes)
  | Wake (i : nat)
  | Answer (i : nat).

Section Engine.

Variable oracle : bytes -> bool.
Variable initial : bytes.
Variable regions : list (nat * nat).

(** The [finally] block: leave the merging state, and check the counter. *)
Definition finally (f : frame) (e : engine) (o : outcome) : engine * outcome :=
  if is_merging f then
    let n := current_merge_attempts e - 1 in
    let e := Engine (replacements e) n (problem e) (tasks e) (raised e) in
    if 0 <=? n then (e, o) else (e, Raise AssertionError)
  else (e, o).

(** From the top of [while True] to the next [await]: the back-off loop,
    then the first reconstruction. *)
Definition loop_top (i : nat) (f : frame) (e : engine) : outcome :=
  if negb (is_merging f) && (0 <? current_merge_attempts e)
  then Suspend (AtSleep f)
  else Suspend (AtOracle f
         (replace initial regions (replacements e) i (fr_s f))).

(** From the answer of the oracle to the next [await], the [return] or
    the failed assertion. *)
Definition after_oracle (i : nat) (f : frame) (attempt : bytes) (e : engine)
  : engine * outcome :=
  let '(b, p) := is_interesting oracle attempt (problem e) in
  let e := Engine (replacements e) (current_merge_attempts e) p (tasks e) (raised e) in
  if negb b then finally f e (Return false)
  else if bool_decide
            (replace initial regions (replacements e) i (fr_s f) = attempt)
  then
    let e := Engine (<[i := fr_s f]> (replacements e)) (current_merge_attempts e)
                    (problem e) (tasks e) (raised e) in
    finally f e (Return true)
  else
    let '(f, e) :=
      if negb (is_merging f)
      then (Frame (fr_s f) true (retries f),
            Engine (replacements e) (current_merge_attempts e + 1)
                   (problem e) (tasks e) (raised e))
      else (f, e) in
    let f := Frame (fr_s f) (is_merging f) (retries f + 1) in
    if retries f <=? 100 then (e, loop_top i f e)
    else finally f e (Raise AssertionError).

(** The task is parked, goes back to its sub-pass with the result, or
    its exception leaves the nursery and ends the pass. *)
Definition settle (i : nat) (e : engine) (o : outcome) : engine :=
  match o with
  | Suspend t =>
      Engine (replacements e) (current_merge_attempts e) (problem e)
             (<[i := t]> (tasks e)) (raised e)
  | Return _ =>
      Engine (replacements e) (current_merge_attempts e) (problem e)
             (<[i := InSubPass]> (tasks e)) (raised e)
  | Raise x =>
      Engine (replacements e) (current_merge_attempts e) (problem e)
             (<[i := InSubPass]> (tasks e)) (Some x)
  end.

(** One step; [None] when the event cannot happen in this state. *)
Definition step (e : engine) (ev : event) : option engine :=
  match raised e with
  | Some _ => None
  | None =>
      match ev with
      | Propose i s =>
          match tasks e !! i with
          | Some InSubPass => Some (settle i e (loop_top i (Frame s false 0) e))
          | _ => None
          end
      | Wake i =>
          match tasks e !! i with
          | Some (AtSleep f) => Some (settle i e (loop_top i f e))
          | _ => None
          end
      | Answer i =>
          match tasks e !! i with
          | Some (AtOracle f attempt) =>
              let '(e', o) := after_oracle i f attempt e in
              Some (settle i e' o)
          | _ => None
          end
      end
  end.

Fixpoint run (e : engine) (evs : list event) : option engine :=
  match evs with
  | [] => Some e
  | ev :: evs' =>
      match step e ev with
      | Some e' => run e' evs'
      | None => None
      end
  end.

(** The state in which the nursery starts its tasks. *)
Definition pass_start : engine :=
  Engine (initial_replacements initial regions) 0
         (new_session initial)
         (replicate (length regions) InSubPass) None.

Definition reachable (e : engine) : Prop :=
  exists evs, run pass_start evs = Some e.

(** The reconstruction of every region agrees with the session. *)
Definition consistent (e : engine) : Prop :=
  forall i, (i < length regions)%nat ->
    replace initial regions (replacements e) i (replacements e !!! i)
    = current_test_case (problem e).

End Engine.

(** ** combine_expressions *)

(** The character class [[*+-/]]: the byte [*] and the range from [+] to
    [/], that is [* + , - . /]. *)
Definition is_operator (c : byte) : bool :=
  bool_decide (c = "*"%byte) || ((byte_val "+"%byte <=? byte_val c) && (byte_val c <=? byte_val "/"%byte)).

Fixpoint take_digits (s : bytes) : bytes :=
  match s with
  | c :: r => if is_digit c then c :: take_digits r else []
  | [] => []
  end.

(** A match of [[0-9]+ [*+-/] [0-9]+] at the start of [s]: the two runs
    of digits and the operator between them. *)
Definition match_expression (s : bytes) : option (bytes * byte * bytes) :=
  let lhs := take_digits s in
  match lhs, drop (length lhs) s with
  | _ :: _, sp1 :: op :: sp2 :: rest =>
      let rhs := take_digits rest in
      if bool_decide (sp1 = " "%byte) && is_operator op && bool_decide (sp2 = " "%byte)
      then match rhs with
           | _ :: _ => Some (lhs, op, rhs)
           | [] => None
           end
      else None
  | _, _ => None
  end.

Fixpoint find_expression (s : bytes) (pos : nat) : option (nat * nat) :=
  match s with
  | [] => None
  | _ :: r =>
      match match_expression s with
      | Some (lhs, _, rhs) => Some (pos, (pos + (length lhs + 3 + length rhs))%nat)
      | None => find_expression r (S pos)
      end
  end.

(** [re.compile(rb"[0-9]+ [*+-/] [0-9]+").search] *)
Definition search_expression : searcher := fun tc pos =>
  if (pos <=? length tc)%nat then find_expression (drop pos tc) pos else None.

(** A decimal integer literal of the language: only zeros, however many,
    or a run of at most [max_str_digits] digits that does not start with
    [0].  [None] is the [SyntaxError] for leading zeros and for a literal
    over the limit. *)
Definition decinteger (ds : bytes) : option Z :=
  if forallb (fun c => bool_decide (c = "0"%byte)) ds
  then Some (decimal_value ds)
  else if bool_decide (head ds = Some "0"%byte) then None
  else if max_str_digits <? Z.of_nat (length ds) then None
  else Some (decimal_value ds).

Section CombineExpressions.

(** True division of integers gives a float.  Floating point stays
    outside: [true_div a b] is [None] when the quotient is too large for
    a float ([OverflowError]) and [float_str] is [str] of a float. *)
Variable float : Type.
Variable true_div : Z -> Z -> option float.
Variable float_str : float -> bytes.

Inductive value : Type :=
  | VInt (n : Z)
  | VTuple (a b : Z)
  | VFloat (x : float).

(** [eval] of a matched expression.  The text is compiled first, so a
    [SyntaxError] comes before any arithmetic. *)
Definition py_eval (lhs : bytes) (op : byte) (rhs : bytes) : exn + value :=
  match decinteger lhs, decinteger rhs with
  | Some a, Some b =>
      if bool_decide (op = "*"%byte) then inr (VInt (a * b))
      else if bool_decide (op = "+"%byte) then inr (VInt (a + b))
      else if bool_decide (op = "-"%byte) then inr (VInt (a - b))
      else if bool_decide (op = ","%byte) then inr (VTuple a b)
      else if bool_decide (op = "/"%byte) then
        if b =? 0 then inl ZeroDivisionError
        else match true_div a b with
             | Some x => inr (VFloat x)
             | None => inl OverflowError
             end
      else inl SyntaxError
  | _, _ => inl SyntaxError
  end.

(** [str(v).encode("ascii")]; [None] is the [ValueError] of an integer
    with too many digits, also inside a tuple. *)
Definition py_str (v : value) : option bytes :=
  match v with
  | VInt n => py_str_int n
  | VTuple a b =>
      match py_str_int a, py_str_int b with
      | Some ta, Some tb => Some (bs "(" ++ ta ++ bs ", " ++ tb ++ bs ")")
      | _, _ => None
      end
  | VFloat x => Some (float_str x)
  end.

(** What one run of a sub-pass body does with its region: it ends
    without a proposal, makes one proposal, or an exception leaves it. *)
Inductive pass_result : Type :=
  | Passed
  | Proposed (s : bytes)
  | Propagated (e : exn).

(** The body of [combine_expressions] on a region that holds a match of
    its pattern.  Only [ArithmeticError] is caught. *)
Definition combine_expressions (current_test_case : bytes) : option pass_result :=
  match match_expression current_test_case with
  | Some (lhs, op, rhs) =>
      Some match py_eval lhs op rhs with
           | inr v =>
               match py_str v with
               | Some text => Proposed text
               | None => Propagated ValueError
               end
           | inl e => if is_ArithmeticError e then Passed else Propagated e
           end
  | None => None
  end.

End CombineExpressions.

(** ** normalize_identifiers *)

Definition is_alpha (c : byte) : bool :=
  ((65 <=? byte_val c) && (byte_val c <=? 90))
  || ((97 <=? byte_val c) && (byte_val c <=? 122)).

(** [\w] of a bytes pattern: ASCII letters, digits and the underscore. *)
Definition is_word (c : byte) : bool :=
  is_alpha c || is_digit c || bool_decide (c = "_"%byte).

Definition is_word_at (c : option byte) : bool := from_option is_word false c.

(** [\b] between the byte before and the byte after a position; outside
    the string there is no word character. *)
Definition word_boundary (prev next : option byte) : bool :=
  xorb (is_word_at prev) (is_word_at next).

Fixpoint take_while (f : byte -> bool) (s : bytes) : bytes :=
  match s with
  | c :: r => if f c then c :: take_while f r else []
  | [] => []
  end.

(** [[m.group(0) for m in IDENTIFIER.finditer(s)]] for
    [IDENTIFIER = (\b[A-Za-z][A-Za-z0-9_]*\b)|([0-9]+)], scanning from the
    left; [prev] is the byte before [s] and [skip] the number of bytes
    still inside the last match.  At a position the first alternative is
    tried first: a letter at a word boundary followed by all the word
    characters after it (the closing [\b] then holds); else a run of
    digits. *)
Fixpoint finditer_identifier (skip : nat) (prev : option byte) (s : bytes)
  : list bytes :=
  match s with
  | [] => []
  | c :: r =>
      match skip with
      | S k => finditer_identifier k (Some c) r
      | O =>
          if word_boundary prev (Some c) && is_alpha c then
            let m := take_while is_word s in
            m :: finditer_identifier (length m - 1) (Some c) r
          else if is_digit c then
            let m := take_while is_digit s in
            m :: finditer_identifier (length m - 1) (Some c) r
          else finditer_identifier 0 (Some c) r
      end
  end.

(** Comparison of [bytes]: lexicographic on the byte values, a proper
    prefix comes first. *)
Fixpoint bytes_compare (a b : bytes) : comparison :=
  match a, b with
  | [], [] => Eq
  | [], _ :: _ => Lt
  | _ :: _, [] => Gt
  | x :: a', y :: b' =>
      match byte_val x ?= byte_val y with
      | Eq => bytes_compare a' b'
      | c => c
      end
  end.

Definition shortlex (s : bytes) : nat * bytes := (length s, s).

(** [a >= b] on the tuples [shortlex] returns. *)
Definition key_ge (a b : nat * bytes) : bool :=
  match Nat.compare a.1 b.1 with
  | Lt => false
  | Gt => true
  | Eq => match bytes_compare a.2 b.2 with
          | Lt => false
          | _ => true
          end
  end.

Definition shortlex_le (x y : bytes) : Prop := key_ge (shortlex y) (shortlex x) = true.

#[global] Instance shortlex_le_dec (x y : bytes) : Decision (shortlex_le x y).
Proof. unfold shortlex_le. apply _. Defined.

(** [sorted(xs, key=shortlex)] of a set: the elements are distinct and
    the key is injective, so the result is the one ascending list. *)
Definition sorted_shortlex (xs : gset bytes) : list bytes :=
  merge_sort shortlex_le (elements xs).

(** The pattern [\b t \b] at the start of [s], with [prev] the byte
    before.  [t] is a token found by [IDENTIFIER], so it is a non-empty
    run of word characters and stands for itself in the pattern. *)
Definition match_word_here (t : bytes) (prev : option byte) (s : bytes) : bool :=
  word_boundary prev (head s)
  && startswith s t
  && word_boundary (from_option Some prev (last t)) (head (drop (length t) s)).

(** [pattern.search(source)] finds a match. *)
Fixpoint search_word (t : bytes) (prev : option byte) (s : bytes) : bool :=
  match_word_here t prev s
  || match s with
     | [] => false
     | c :: r => search_word t (Some c) r
     end.

(** [pattern.sub(r, source)]: every match, from the left and without
    overlap, is replaced by [r].  [r] comes from the pool of tokens and
    letters, so it has no backslash and stands for itself. *)
Fixpoint sub_word (t r : bytes) (skip : nat) (prev : option byte) (s : bytes)
  : bytes :=
  match s with
  | [] => []
  | c :: rest =>
      match skip with
      | S k => sub_word t r k (Some c) rest
      | O =>
          if match_word_here t prev s
          then r ++ sub_word t r (length t - 1) (Some c) rest
          else c :: sub_word t r 0 (Some c) rest
      end
  end.

Definition ascii_lowercase : bytes := bs "abcdefghijklmnopqrstuvwxyz".
Definition ascii_uppercase : bytes := bs "ABCDEFGHIJKLMNOPQRSTUVWXYZ".

(** The inner [for cc in char_type] loop: add the first letter that is
    not in the set yet. *)
Fixpoint add_first_unused (char_type : bytes) (replacements : gset bytes)
  : gset bytes :=
  match char_type with
  | [] => replacements
  | cc :: rest =>
      if bool_decide ([cc] ∈ replacements)
      then add_first_unused rest replacements
      else replacements ∪ {[ [cc] ]}
  end.

(** Modelled from the spec: [WorkContext.find_first_value] of
    [shrinkray.work], which this module imports.  Section 6: it returns
    the first value, in the order given, for which the predicate holds,
    and signals [NotFound] ([None] here) when there is none.  The
    predicate is run on the values in order until it holds; an exception
    of the predicate passes through. *)
Fixpoint find_first_value {A S : Type} (ls : list A)
    (f : A -> S -> exn + (bool * S)) (p : S) : exn + (option A * S) :=
  match ls with
  | [] => inr (None, p)
  | x :: rest =>
      match f x p with
      | inl e => inl e
      | inr (true, p') => inr (Some x, p')
      | inr (false, p') => find_first_value rest f p'
      end
  end.

Section NormalizeIdentifiers.

Variable oracle : bytes -> bool.

Definition can_replace (t source r : bytes) (p : session bytes)
  : exn + (bool * session bytes) :=
  if key_ge (shortlex r) (shortlex t) then inr (false, p)
  else
    let attempt := sub_word t r 0 None source in
    if bool_decide (attempt <> source)
    then inr (is_interesting oracle attempt p)
    else inl AssertionError.

(** One round of [for t in targets]. *)
Definition normalize_target (replacements : list bytes) (t : bytes)
    (p : session bytes) : exn + session bytes :=
  let source := current_test_case p in
  if negb (search_word t None source) then inr p
  else
    match find_first_value replacements (can_replace t source) p with
    | inl e => inl e
    | inr (_, p') => inr p'
    end.

Fixpoint normalize_targets (replacements targets : list bytes)
    (p : session bytes) : exn + session bytes :=
  match targets with
  | [] => inr p
  | t :: rest =>
      match normalize_target replacements t p with
      | inl e => inl e
      | inr p' => normalize_targets replacements rest p'
      end
  end.

Definition normalize_identifiers (p : session bytes) : exn + session bytes :=
  let identifiers : gset bytes :=
    list_to_set (finditer_identifier 0 None (current_test_case p)) in
  let replacements := identifiers in
  let replacements := add_first_unused ascii_lowercase replacements in
  let replacements := add_first_unused ascii_uppercase replacements in
  let replacements := sorted_shortlex replacements in
  let targets := reverse (sorted_shortlex identifiers) in
  normalize_targets replacements targets p.

End NormalizeIdentifiers.

(** * Specification vocabulary

    The predicates and the sample runs the properties below are stated
    with. *)

(** ** reduce_integer *)

Section ReduceIntegerSpec.

Variable oracle : Z -> bool.
Variable init : Z.

(** What holds of the session whenever control is at the loop test:
    [lo] was probed and refused, [hi] is the current candidate, and all
    probes so far are answers of the oracle to values in [0, init]. *)
Definition probes_ok (p : session Z) : Prop :=
  forall x b, In (x, b) (probes p) -> 0 <= x <= init /\ b = oracle x.

Definition loop_inv (lo hi : Z) (p : session Z) : Prop :=
  0 <= lo /\ lo <= hi /\ hi <= init /\
  In (lo, false) (probes p) /\
  current_test_case p = hi /\
  probes_ok p /\
  (lo = hi -> hi = 0 \/ In (hi - 1, false) (probes p)).

Definition reduced (p : session Z) : Prop :=
  probes_ok p /\
  current_test_case p <= init /\
  (current_test_case p = 0 \/
   In (current_test_case p - 1, false) (probes p)).

End ReduceIntegerSpec.

(** ** The region scan *)

(** A pattern behaves when every span it reports lies at or after the
    start position and inside the string. *)
Definition search_in_range (search : searcher) : Prop :=
  forall tc i u v, search tc i = Some (u, v) -> (i <= u <= v /\ v <= length tc)%nat.

(** No match of the pattern is empty. *)
Definition search_nonempty (search : searcher) : Prop :=
  forall tc i u v, search tc i = Some (u, v) -> (u < v)%nat.

(** Regions in ascending order from [prev] on, inside a string of length
    [len]. *)
Fixpoint regions_from (len prev : nat) (regions : list (nat * nat)) : Prop :=
  match regions with
  | [] => (prev <= len)%nat
  | (u, v) :: rest => (prev <= u <= v)%nat /\ regions_from len v rest
  end.

(** Where the scan resumes after [regions]: the end of the last one. *)
Fixpoint regions_end (prev : nat) (regions : list (nat * nat)) : nat :=
  match regions with
  | [] => prev
  | (_, v) :: rest => regions_end v rest
  end.

(** ** The commit protocol *)

Definition task_ok (t : task) : Prop :=
  match t with
  | InSubPass => True
  | AtSleep f | AtOracle f _ => 0 <= retries f <= 100
  end.

(** One slot and one task per region, and no task beyond the cap. *)
Definition engine_wf (regions : list (nat * nat)) (e : engine) : Prop :=
  length (replacements e) = length regions /\
  length (tasks e) = length regions /\
  Forall task_ok (tasks e).

Section EngineSpec.

Variable oracle : bytes -> bool.
Variable initial : bytes.
Variable regions : list (nat * nat).

(** The oracle accepts the attempt of task [i], but the second
    reconstruction differs from it: a sibling slot changed in between. *)
Definition conflict (e : engine) (ev : event) : Prop :=
  exists i f a, ev = Answer i /\ tasks e !! i = Some (AtOracle f a) /\
    oracle a = true /\
    replace initial regions (replacements e) i (fr_s f) <> a.

(** The oracle accepts the attempt of task [i] and the second
    reconstruction agrees: slot [i] is written. *)
Definition commit (e : engine) (ev : event) : Prop :=
  exists i f a, ev = Answer i /\ tasks e !! i = Some (AtOracle f a) /\
    oracle a = true /\
    replace initial regions (replacements e) i (fr_s f) = a.

(** The states in which slots and session are known to agree: the start
    of the pass, the state right after a commit, and what follows such a
    state by steps that are not a detected conflict. *)
Inductive settled : engine -> Prop :=
  | settled_start : settled (pass_start initial regions)
  | settled_commit (e e' : engine) (ev : event) :
      reachable oracle initial regions e ->
      step oracle initial regions e ev = Some e' ->
      commit e ev -> settled e'
  | settled_quiet (e e' : engine) (ev : event) :
      settled e ->
      step oracle initial regions e ev = Some e' ->
      ~ conflict e ev -> settled e'.

End EngineSpec.

(** Two regions of [b"1 22"], an oracle that accepts everything.  Both
    tasks propose [b"0"] before either oracle call answers.  Task 0 is
    answered first and commits; the answer to task 1 then makes [b"1 0"]
    the session's candidate although slot 0 already holds [b"0"]: task 1
    sees the conflict and probes again. *)
Definition race : list event :=
  [Propose 0 (bs "0"); Propose 1 (bs "0"); Answer 0; Answer 1].

(** A run that reaches the cap: 102 regions [b"1"], an oracle that accepts
    everything, and every task proposing [b"0"] before any answer.  Each
    sibling in turn sees its stale attempt accepted, probes again and
    commits; after each such commit the answer to task 0 is a conflict.
    The run stops when the last sibling has committed and task 0, at 100
    retries, waits for the answer to an attempt that is stale again. *)
Definition storm_initial : bytes :=
  concat (replicate 101 (bs "1 ")) ++ bs "1".

Definition storm_regions : list (nat * nat) :=
  Eval vm_compute in default [] (matching_regions search_digits 203 storm_initial).

Definition storm : list event :=
  map (fun k => Propose k (bs "0")) (seq 0 102)
  ++ [Answer 1; Answer 0]
  ++ flat_map (fun k => [Answer k; Answer k; Answer 0]) (seq 2 99)
  ++ [Answer 101; Answer 101].

Definition storm_state : engine :=
  Eval vm_compute in
    default (pass_start storm_initial storm_regions)
      (run (fun _ => true) storm_initial storm_regions
           (pass_start storm_initial storm_regions) storm).

(** ** normalize_identifiers *)

Definition result_candidate (r : exn + session bytes) : option bytes :=
  match r with
  | inr p => Some (current_test_case p)
  | inl _ => None
  end.

(** Strictly shortlex-smaller: strictly shorter, or of equal length and
    lexicographically smaller. *)
Definition shortlex_lt (r t : bytes) : Prop :=
  (length r < length t)%nat \/
  (length r = length t /\ bytes_compare r t = Lt).

(** A probe of the oracle that is a renaming [t -> r] of some source with
    [r] strictly shortlex-smaller than [t]. *)
Definition renaming (cb : bytes * bool) : Prop :=
  exists t r source, shortlex_lt r t /\ cb.1 = sub_word t r 0 None source.

(** A non-empty run of word characters. *)
Definition plain_word (x : bytes) : Prop :=
  x <> [] /\ forallb is_word x = true.

Definition targets_of (tc : bytes) : list bytes :=
  reverse (sorted_shortlex (list_to_set (finditer_identifier 0 None tc))).

Definition pool_of (tc : bytes) : list bytes :=
  sorted_shortlex
    (add_first_unused ascii_uppercase
       (add_first_unused ascii_lowercase
          (list_to_set (finditer_identifier 0 None tc)))).

(** ** The merge counter *)

Definition task_merging (t : task) : bool :=
  match t with
  | InSubPass => false
  | AtSleep f | AtOracle f _ => is_merging f
  end.

(** The number of tasks that are in their merging state. *)
Definition merging_tasks (ts : list task) : Z :=
  foldr (fun t n => (if task_merging t then 1 else 0) + n) 0 ts.

(** The task that [settle] stores for an outcome. *)
Definition outcome_task (o : outcome) : task :=
  match o with
  | Suspend t => t
  | Return _ | Raise _ => InSubPass
  end.

(** A sample oracle: everything but [b"0 0"] is interesting. *)
Definition all_but_00 (c : bytes) : bool := negb (bool_decide (c = bs "0 0")).

(** A task of a pass that never had to merge: it is in its sub-pass, or
    at the oracle with its first attempt, which is what any contents of
    the slots reconstruct. *)
Definition first_attempt (initial : bytes) (regions : list (nat * nat))
    (i : nat) (t : task) : Prop :=
  match t with
  | InSubPass => True
  | AtSleep _ => False
  | AtOracle f a =>
      retries f = 0 /\ is_merging f = false /\
      forall slots, a = replace initial regions slots i (fr_s f)
  end.

(** ** The retry budget *)

Definition at_oracle (t : task) : bool :=
  match t with
  | AtOracle _ _ => true
  | InSubPass | AtSleep _ => false
  end.

(** The number of tasks that wait for an oracle answer. *)
Definition at_oracle_tasks (ts : list task) : Z :=
  foldr (fun t n => (if at_oracle t then 1 else 0) + n) 0 ts.

(** 1 when the attempt of a waiting task is no longer what the slots
    reconstruct, 0 when it still is. *)
Definition stale (initial : bytes) (regions : list (nat * nat))
    (slots : list bytes) (i : nat) (f : frame) (a : bytes) : Z :=
  if bool_decide (replace initial regions slots i (fr_s f) = a) then 0 else 1.

(** A task that is not merging has not retried; for a merging task the
    retries made, the siblings that wait for an answer, and a pending
    conflict together do not exceed the number of regions. *)
Definition retry_budget (initial : bytes) (regions : list (nat * nat))
    (e : engine) : Prop :=
  forall i t, tasks e !! i = Some t ->
    match t with
    | InSubPass => True
    | AtSleep f => retries f = 0
    | AtOracle f a =>
        if is_merging f
        then retries f + (at_oracle_tasks (tasks e) - 1)
             + stale initial regions (replacements e) i f a
             <= Z.of_nat (length regions)
        else retries f = 0
    end.

(** ** merge_adjacent_strings and replace_falsey_with_zero *)

(** The leftmost match of a pattern given by its matcher: [m s] is the
    length of the match of the pattern at the start of [s], if there is
    one. *)
Fixpoint find_match (m : bytes -> option nat) (s : bytes) (pos : nat)
  : option (nat * nat) :=
  match m s with
  | Some n => Some (pos, (pos + n)%nat)
  | None =>
      match s with
      | [] => None
      | _ :: r => find_match m r (S pos)
      end
  end.

Definition search_with (m : bytes -> option nat) : searcher := fun tc pos =>
  if (pos <=? length tc)%nat then find_match m (drop pos tc) pos else None.

Definition is_quote (c : byte) : bool :=
  bool_decide (c = "'"%byte) || bool_decide (c = Byte.x22).

(** The pattern of [merge_adjacent_strings] at the start of [s]: a single
    or double quote, then [\s*], then the same quote again (the group
    reference [\1]).  The whitespace run is taken whole: a quote is not
    whitespace, so giving some of it back cannot help. *)
Definition match_adjacent_quotes (s : bytes) : option nat :=
  match s with
  | q :: r =>
      if is_quote q then
        let ws := take_while is_space r in
        match drop (length ws) r with
        | q' :: _ => if bool_decide (q' = q) then Some (length ws + 2)%nat else None
        | [] => None
        end
      else None
  | [] => None
  end.

(** ASCII lower case, as [re.IGNORECASE] folds a bytes pattern. *)
Definition to_lower (c : byte) : byte :=
  if (65 <=? byte_val c) && (byte_val c <=? 90)
  then default c (Byte.of_N (Z.to_N (byte_val c + 32)))
  else c.

(** The pattern of [replace_falsey_with_zero] with [re.IGNORECASE] at
    the start of [s]; the alternatives are tried in the order of the
    pattern: two single quotes, two double quotes, [false], [()] and
    the pair of square brackets. *)
Definition match_falsey (s : bytes) : option nat :=
  if startswith s (bs "''") then Some 2%nat
  else if startswith s [Byte.x22; Byte.x22] then Some 2%nat
  else if bool_decide (map to_lower (take 5 s) = bs "false") then Some 5%nat
  else if startswith s (bs "()") then Some 2%nat
  else if startswith s (bs "[]") then Some 2%nat
  else None.

(** The bodies of the two passes: one proposal each. *)
Definition merge_adjacent_strings (current_test_case : bytes) : pass_result :=
  Proposed [].

Definition replace_falsey_with_zero (current_test_case : bytes) : pass_result :=
  Proposed (bs "0").

(** ** Invariants of the commit protocol *)

(** The counter counts the merging tasks, and no task sleeps while it
    is merging. *)
Definition counter_ok (e : engine) : Prop :=
  current_merge_attempts e = merging_tasks (tasks e) /\
  forall i f, tasks e !! i = Some (AtSleep f) -> is_merging f = false.

(** A candidate that is the pass-start candidate or one the oracle
    accepts. *)
Definition vetted (oracle : bytes -> bool) (initial c : bytes) : Prop := c = initial \/ oracle c = true.

(** A pass that never had to merge: the slots reconstruct the candidate,
    nothing was raised, the counter is zero and every task is at its
    first attempt. *)
Definition calm (initial : bytes) (regions : list (nat * nat)) (e : engine)
  : Prop :=
  consistent initial regions e /\ raised e = None /\
  current_merge_attempts e = 0 /\
  forall i t, tasks e !! i = Some t -> first_attempt initial regions i t.

(** The patterns the module passes to [regex_pass]. *)
Definition module_pattern (search : searcher) : Prop :=
  search = search_digits \/ search = search_expression \/
  search = search_with match_adjacent_quotes \/
  search = search_with match_falsey.

(** ** normalize_identifiers: the direction of a step *)

(** The candidate after a step: unchanged, or strictly shortlex-smaller
    and accepted by the oracle. *)
Definition went_down (oracle : bytes -> bool) (p p' : session bytes) : Prop :=
  current_test_case p' = current_test_case p \/
  (shortlex_lt (current_test_case p') (current_test_case p) /\
   oracle (current_test_case p') = true).

(** ** combine_expressions: the literals [eval] refuses *)

(** A run of digits that [eval] refuses as an integer literal: it is not
    all zeros, and it starts with a zero or has more than
    [max_str_digits] digits. *)
Definition bad_literal (ds : bytes) : Prop :=
  forallb (fun c => bool_decide (c = "0"%byte)) ds = false /\
  (head ds = Some "0"%byte \/ max_str_digits < Z.of_nat (length ds)).

(** ** normalize_identifiers: the probes of a run *)

(** The probes of a run, read from the candidate [cur] the run starts
    on: each probe is the renaming of a target [t] that occurs in the
    candidate current at that time into a member [r] of the pool that is
    strictly shortlex-smaller than [t], the answer recorded is the
    oracle's, and an accepted probe becomes the current candidate. *)
Fixpoint renamings (oracle : bytes -> bool) (targets pool : list bytes)
    (cur : bytes) (new : list (bytes * bool)) : Prop :=
  match new with
  | [] => True
  | (c, b) :: rest =>
      (exists t r, t ∈ targets /\ r ∈ pool /\ shortlex_lt r t /\
                   search_word t None cur = true /\
                   c = sub_word t r 0 None cur) /\
      b = oracle c /\
      renamings oracle targets pool (if b then c else cur) rest
  end.

(** The current candidate after a list of probes. *)
Fixpoint after_probes (cur : bytes) (new : list (bytes * bool)) : bytes :=
  match new with
  | [] => cur
  | (c, b) :: rest => after_probes (if b then c else cur) rest
  end.

(** ** The state after the race *)

(** The state the race on [b"1 22"] ends in: task 0 has committed, task 1
    has met one conflict and waits for the answer to its second attempt. *)
Definition race_end : engine :=
  Engine [bs "0"; bs "22"] 1
    (Session (bs "1 0") [(bs "0 22", true); (bs "1 0", true)])
    [InSubPass; AtOracle (Frame (bs "0") true 1) (bs "0 0")]
    None.

(** * Properties *)

(** ** Substring: where the round trip holds and where it does not *)

Lemma startswith_spec (x p : bytes) :
  startswith x p = true <-> exists r, x = p ++ r.
Proof.
  unfold startswith. rewrite bool_decide_eq_true. split.
  - intros H. exists (drop (length p) x).
    rewrite <- H at 1. symmetry. apply take_drop.
  - intros [r ->]. by rewrite take_app_length.
Qed.

Lemma endswith_spec (x s : bytes) :
  endswith x s = true <-> exists r, x = r ++ s.
Proof.
  unfold endswith. rewrite andb_true_iff, Nat.leb_le, bool_decide_eq_true.
  split.
  - intros [_ H]. exists (take (length x - length s) x).
    transitivity (take (length x - length s) x ++ drop (length x - length s) x);
      [symmetry; apply take_drop | by rewrite H].
  - intros [r ->]. rewrite length_app. split; [lia|].
    replace (length r + length s - length s)%nat with (length r) by lia.
    by rewrite drop_app_length.
Qed.

(** Inputs that do not carry both the prefix and the suffix are refused. *)
Lemma Substring_parse_fails (self : Substring.t) (x : bytes) :
  startswith x (Substring.prefix self) && endswith x (Substring.suffix self) = false ->
  Substring.parse self x = None.
Proof. unfold Substring.parse. by intros ->. Qed.

(** When the prefix and the suffix do not overlap inside [x], parsing
    strips them and [dumps] puts them back. *)
Lemma Substring_roundtrip_disjoint (self : Substring.t) (x : bytes) :
  startswith x (Substring.prefix self) = true ->
  endswith x (Substring.suffix self) = true ->
  (length (Substring.prefix self) + length (Substring.suffix self) <= length x)%nat ->
  exists y, Substring.parse self x = Some y /\ Substring.dumps self y = x.
Proof.
  destruct self as [p s]; simpl. intros Hp Hs Hlen.
  unfold Substring.parse; simpl. rewrite Hp, Hs; simpl.
  eexists; split; [reflexivity|].
  apply startswith_spec in Hp as [r ->].
  apply endswith_spec in Hs as [r' Hr'].
  unfold Substring.dumps, slice; simpl.
  rewrite drop_app_length. rewrite length_app in *.
  assert (Hrs : exists m, r = m ++ s).
  { exists (drop (length p) r').
    assert (Hl : (length p <= length r')%nat).
    { apply (f_equal length) in Hr'. rewrite !length_app in Hr'. lia. }
    apply (f_equal (drop (length p))) in Hr'.
    rewrite drop_app_length in Hr'. rewrite Hr'.
    rewrite drop_app_le by exact Hl. reflexivity. }
  destruct Hrs as [m ->]. rewrite length_app.
  replace (length p + (length m + length s) - length s - length p)%nat
    with (length m) by lia.
  by rewrite take_app_length.
Qed.

(** C3 (code defect): [parse] only checks [startswith] and [endswith].
    With prefix [b"a"] and suffix [b"a"] the one-byte input [b"a"] passes
    both checks although prefix and suffix overlap in it; [parse] returns
    the empty slice and [dumps] of that is [b"aa"], not the input. *)
Theorem Substring_overlap_breaks_roundtrip :
  let self := Substring.Make (bs "a") (bs "a") in
  startswith (bs "a") (Substring.prefix self) = true /\
  endswith (bs "a") (Substring.suffix self) = true /\
  Substring.parse self (bs "a") = Some [] /\
  Substring.dumps self [] = bs "aa" /\
  (Substring.dumps self <$> Substring.parse self (bs "a")) <> Some (bs "a").
Proof. repeat split; try reflexivity. discriminate. Qed.

Example IntegerFormat_parse_123 : IntegerFormat.parse (bs "123") = Some 123.
Proof. reflexivity. Qed.

Example IntegerFormat_parse_signed : IntegerFormat.parse (bs " -5") = Some (-5).
Proof. reflexivity. Qed.

Example IntegerFormat_parse_letters : IntegerFormat.parse (bs "12a") = None.
Proof. reflexivity. Qed.

Example IntegerFormat_dumps_1000 : IntegerFormat.dumps 1000 = inr (bs "1000").
Proof. reflexivity. Qed.

(** ** Decimal digits *)

Lemma digit_cases (d : Z) :
  0 <= d < 10 ->
  d = 0 \/ d = 1 \/ d = 2 \/ d = 3 \/ d = 4 \/ d = 5 \/ d = 6 \/ d = 7 \/ d = 8 \/ d = 9.
Proof. lia. Qed.

Lemma digit_byte_is_digit (d : Z) : 0 <= d < 10 -> is_digit (digit_byte d) = true.
Proof. intros H. destruct (digit_cases d H) as [->|[->|[->|[->|[->|[->|[->|[->|[->| ->]]]]]]]]]; reflexivity. Qed.

Lemma digit_value_byte (d : Z) : 0 <= d < 10 -> digit_value (digit_byte d) = d.
Proof. intros H. destruct (digit_cases d H) as [->|[->|[->|[->|[->|[->|[->|[->|[->| ->]]]]]]]]]; reflexivity. Qed.

Lemma digit_value_range (c : byte) : is_digit c = true -> 0 <= digit_value c < 10.
Proof. unfold is_digit, digit_value. lia. Qed.

Lemma digit_byte_value (c : byte) : is_digit c = true -> digit_byte (digit_value c) = c.
Proof.
  intros H. pose proof (digit_value_range c H) as R.
  unfold digit_byte. replace (digit_value c + 48) with (byte_val c) by (unfold digit_value; lia).
  unfold byte_val. rewrite N2Z.id, Byte.of_to_N. reflexivity.
Qed.

Lemma digit_value_zero (c : byte) :
  is_digit c = true -> (digit_value c = 0 <-> c = "0"%byte).
Proof.
  intros H. split.
  - intros E. rewrite <- (digit_byte_value c H), E. reflexivity.
  - intros ->. reflexivity.
Qed.

Lemma is_digit_not_space (c : byte) : is_digit c = true -> is_space c = false.
Proof.
  unfold is_digit, is_space. intros H.
  apply orb_false_iff. split.
  - apply bool_decide_eq_false. lia.
  - lia.
Qed.

Lemma decimal_value_snoc (ds : bytes) (c : byte) :
  decimal_value (ds ++ [c]) = 10 * decimal_value ds + digit_value c.
Proof. unfold decimal_value. by rewrite fold_left_app. Qed.

Lemma decimal_value_nonneg (ds : bytes) :
  forallb is_digit ds = true -> 0 <= decimal_value ds.
Proof.
  induction ds as [|c ds IH] using rev_ind; [done|].
  rewrite forallb_app; simpl. rewrite andb_true_r, andb_true_iff.
  intros [H1 H2]. rewrite decimal_value_snoc.
  pose proof (digit_value_range c H2). specialize (IH H1). lia.
Qed.

(** A run of digits that does not start with [0] is worth at least one. *)
Lemma decimal_value_pos (ds : bytes) :
  forallb is_digit ds = true -> ds <> [] -> head ds <> Some "0"%byte ->
  0 < decimal_value ds.
Proof.
  induction ds as [|c ds IH] using rev_ind; [done|].
  rewrite forallb_app; simpl. rewrite andb_true_r, andb_true_iff.
  intros [H1 H2] _ Hh. rewrite decimal_value_snoc.
  pose proof (digit_value_range c H2) as R.
  destruct ds as [|c0 ds].
  - simpl in *. unfold decimal_value; simpl.
    assert (digit_value c <> 0); [|lia].
    intros E. apply (digit_value_zero c H2) in E. congruence.
  - assert (0 < decimal_value (c0 :: ds)); [|lia].
    apply IH; [done|done|]. simpl in *. exact Hh.
Qed.

Lemma str_digits_all_digits (fuel : nat) (n : Z) :
  0 <= n -> forallb is_digit (str_digits fuel n) = true.
Proof.
  revert n. induction fuel as [|k IH]; intros n Hn; [done|].
  simpl. destruct (n <? 10) eqn:E.
  - simpl. rewrite digit_byte_is_digit; [done|lia].
  - rewrite forallb_app, IH by (apply Z.div_pos; lia). simpl.
    rewrite digit_byte_is_digit; [done|]. apply Z.mod_pos_bound. lia.
Qed.

Lemma str_digits_nonempty (fuel : nat) (n : Z) : str_digits (S fuel) n <> [].
Proof.
  simpl. destruct (n <? 10); [done|].
  intros E. apply app_eq_nil in E as [_ E]. discriminate.
Qed.

(** With enough fuel the digits written are those of [n]. *)
Lemma str_digits_value (fuel : nat) (n : Z) :
  0 <= n -> (Z.to_nat n < fuel)%nat -> decimal_value (str_digits fuel n) = n.
Proof.
  revert n. induction fuel as [|k IH]; intros n Hn Hf; [lia|].
  simpl. destruct (n <? 10) eqn:E.
  - unfold decimal_value; simpl. rewrite digit_value_byte; lia.
  - rewrite decimal_value_snoc, IH.
    + rewrite digit_value_byte by (apply Z.mod_pos_bound; lia).
      symmetry. apply Z.div_mod. lia.
    + apply Z.div_pos; lia.
    + assert (n / 10 < n) by (apply Z.div_lt; lia).
      assert (0 <= n / 10) by (apply Z.div_pos; lia). lia.
Qed.

(** [str] never writes a leading zero for a positive number. *)
Lemma str_digits_head (fuel : nat) (n : Z) :
  0 < n -> (Z.to_nat n < fuel)%nat -> head (str_digits fuel n) <> Some "0"%byte.
Proof.
  revert n. induction fuel as [|k IH]; intros n Hn Hf; [lia|].
  simpl. destruct (n <? 10) eqn:E.
  - simpl. intros [= E0].
    assert (R : 0 <= n < 10) by lia.
    pose proof (digit_value_byte n R) as V. rewrite E0 in V.
    change (digit_value "0"%byte) with 0 in V. lia.
  - assert (0 < n / 10) by (apply Z.div_str_pos; lia).
    assert (n / 10 < n) by (apply Z.div_lt; lia).
    destruct k as [|k']; [lia|].
    pose proof (str_digits_nonempty k' (n / 10)) as NE.
    destruct (str_digits (S k') (n / 10)) as [|c r] eqn:Es; [done|].
    simpl. specialize (IH (n / 10)). rewrite Es in IH. simpl in IH.
    apply IH; lia.
Qed.

(** Canonical digits are reproduced as they are. *)
Lemma str_digits_canonical (ds : bytes) :
  forallb is_digit ds = true -> ds <> [] ->
  ds = [ "0"%byte ] \/ head ds <> Some "0"%byte ->
  forall fuel, (Z.to_nat (decimal_value ds) < fuel)%nat ->
  str_digits fuel (decimal_value ds) = ds.
Proof.
  induction ds as [|c ds IH] using rev_ind; [done|].
  rewrite forallb_app; simpl. rewrite andb_true_r, andb_true_iff.
  intros [H1 H2] _ Hc fuel Hf. rewrite decimal_value_snoc in *.
  pose proof (digit_value_range c H2) as R.
  destruct fuel as [|k]; [lia|]. cbn [str_digits].
  destruct ds as [|c0 ds].
  - change (decimal_value []) with 0.
    replace (10 * 0 + digit_value c) with (digit_value c) by lia.
    replace (digit_value c <? 10) with true by lia.
    by rewrite digit_byte_value.
  - assert (Hh : head (c0 :: ds) <> Some "0"%byte).
    { destruct Hc as [Hc|Hc]; [|exact Hc].
      destruct ds; discriminate. }
    pose proof (decimal_value_pos (c0 :: ds) H1 ltac:(done) Hh) as P.
    replace (10 * decimal_value (c0 :: ds) + digit_value c <? 10) with false by lia.
    replace ((10 * decimal_value (c0 :: ds) + digit_value c) / 10)
      with (decimal_value (c0 :: ds)).
    2:{ symmetry. rewrite Z.mul_comm, Z.div_add_l by lia.
        rewrite Z.div_small by lia. lia. }
    replace ((10 * decimal_value (c0 :: ds) + digit_value c) mod 10)
      with (digit_value c).
    2:{ symmetry. rewrite Z.add_comm, Z.mul_comm, Z.mod_add by lia.
        apply Z.mod_small. lia. }
    rewrite IH; [|done|done|by right|lia].
    by rewrite digit_byte_value.
Qed.

Lemma decimal_value_bound (ds : bytes) :
  forallb is_digit ds = true -> decimal_value ds < 10 ^ Z.of_nat (length ds).
Proof.
  induction ds as [|c ds IH] using rev_ind; [done|].
  rewrite forallb_app; simpl. rewrite andb_true_r, andb_true_iff.
  intros [H1 H2]. rewrite decimal_value_snoc, length_app. cbn [length].
  rewrite Nat.add_1_r, Nat2Z.inj_succ, Z.pow_succ_r by lia.
  pose proof (digit_value_range c H2). specialize (IH H1). lia.
Qed.

Lemma str_digits_length (fuel : nat) :
  forall (n : Z) (k : nat),
    0 <= n < 10 ^ Z.of_nat k -> (1 <= k)%nat ->
    (length (str_digits fuel n) <= k)%nat.
Proof.
  induction fuel as [|f IH]; intros n k Hn Hk; [simpl; lia|].
  cbn [str_digits]. destruct (n <? 10) eqn:E; [simpl; lia|].
  apply Z.ltb_ge in E.
  destruct k as [|[|k]]; [lia|simpl in Hn; lia|].
  rewrite length_app. cbn [length].
  assert (length (str_digits f (n / 10)) <= S k)%nat; [|lia].
  apply IH; [|lia].
  rewrite (Nat2Z.inj_succ (S k)), Z.pow_succ_r in Hn by lia.
  split; [apply Z.div_pos; lia|].
  apply Z.div_lt_upper_bound; lia.
Qed.

(** A number of [k] digits or more has a text of [k] digits or more. *)
Lemma str_digits_length_lb (fuel : nat) :
  forall (n : Z) (k : nat),
    (Z.to_nat n < fuel)%nat -> 10 ^ Z.of_nat k <= n ->
    (k < length (str_digits fuel n))%nat.
Proof.
  induction fuel as [|f IH]; intros n k Hf Hn; [lia|].
  assert (0 < 10 ^ Z.of_nat k) by (apply Z.pow_pos_nonneg; lia).
  cbn [str_digits]. destruct (n <? 10) eqn:E.
  - apply Z.ltb_lt in E. destruct k as [|k]; [simpl; lia|].
    rewrite Nat2Z.inj_succ, Z.pow_succ_r in Hn by lia.
    assert (0 < 10 ^ Z.of_nat k) by (apply Z.pow_pos_nonneg; lia). lia.
  - apply Z.ltb_ge in E. rewrite length_app. cbn [length].
    destruct k as [|k]; [lia|].
    rewrite Nat2Z.inj_succ, Z.pow_succ_r in Hn by lia.
    assert (k < length (str_digits f (n / 10)))%nat; [|lia].
    apply IH.
    + assert (n / 10 < n) by (apply Z.div_lt; lia).
      assert (0 <= n / 10) by (apply Z.div_pos; lia). lia.
    + apply Z.div_le_lower_bound; lia.
Qed.

(** ** IntegerFormat *)

Lemma int_digits_all_digits (r : bytes) (acc : Z) :
  forallb is_digit r = true ->
  int_digits acc r = Some (fold_left (fun a c => 10 * a + digit_value c) r acc).
Proof.
  revert acc. induction r as [|c r IH]; intros acc H; [done|].
  simpl in H. apply andb_true_iff in H as [Hc Hr].
  simpl. rewrite Hc. by apply IH.
Qed.

Lemma int_literal_digits (ds : bytes) :
  ds <> [] -> forallb is_digit ds = true ->
  int_literal ds = Some (decimal_value ds).
Proof.
  destruct ds as [|c r]; [done|]. intros _ H.
  simpl in H. apply andb_true_iff in H as [Hc Hr].
  unfold int_literal. rewrite Hc, int_digits_all_digits by done.
  unfold decimal_value. cbn [fold_left].
  replace (10 * 0 + digit_value c) with (digit_value c) by lia. reflexivity.
Qed.

Lemma rstrip_snoc (l : bytes) (c : byte) :
  is_space c = false -> rstrip (l ++ [c]) = l ++ [c].
Proof.
  intros H. unfold rstrip. rewrite reverse_snoc. simpl. rewrite H.
  rewrite reverse_cons, reverse_involutive. reflexivity.
Qed.

Lemma forallb_last_digit (ds : bytes) :
  ds <> [] -> forallb is_digit ds = true ->
  exists l c, ds = l ++ [c] /\ is_digit c = true.
Proof.
  destruct ds as [|c l] using rev_ind; [done|]. intros _ H.
  rewrite forallb_app in H. simpl in H.
  exists l, c. split; [done|].
  apply andb_true_iff in H as [_ H]. by apply andb_true_iff in H as [H _].
Qed.

Lemma decode_ascii_digits (ds : bytes) :
  forallb is_digit ds = true -> decode_ascii ds = Some ds.
Proof.
  intros H. unfold decode_ascii.
  replace (forallb (fun c => byte_val c <? 128) ds) with true; [done|].
  symmetry. apply forallb_forall. intros c Hc.
  assert (is_digit c = true) by (eapply forallb_forall in H; eauto).
  unfold is_digit in *. lia.
Qed.

(** *** The digit limit *)

Lemma count_digits_nonneg (s : bytes) : 0 <= count_digits s.
Proof. induction s as [|c r IH]; simpl; [lia|]. destruct (is_digit c); lia. Qed.

Lemma count_digits_digits (ds : bytes) :
  forallb is_digit ds = true -> count_digits ds = Z.of_nat (length ds).
Proof.
  induction ds as [|c r IH]; [done|]. cbn [forallb count_digits length].
  intros H. apply andb_true_iff in H as [-> Hr]. rewrite (IH Hr). lia.
Qed.

Lemma decimal_text_nonneg (n : Z) :
  0 <= n -> decimal_text n = str_digits (S (Z.to_nat n)) n.
Proof. intros H. unfold decimal_text. by replace (n <? 0) with false by lia. Qed.

Lemma decimal_text_neg (n : Z) :
  n < 0 -> decimal_text n = "-"%byte :: str_digits (S (Z.to_nat (- n))) (- n).
Proof. intros H. unfold decimal_text. by replace (n <? 0) with true by lia. Qed.

(** The digits of the text of [n] are those of its absolute value. *)
Lemma count_digits_decimal_text (n : Z) :
  count_digits (decimal_text n)
  = Z.of_nat (length (str_digits (S (Z.to_nat (Z.abs n))) (Z.abs n))).
Proof.
  destruct (Z.ltb_spec n 0) as [H|H].
  - rewrite decimal_text_neg by done. cbn [count_digits].
    change (is_digit "-"%byte) with false. cbv iota.
    rewrite count_digits_digits by (apply str_digits_all_digits; lia).
    replace (Z.abs n) with (- n) by lia. lia.
  - rewrite decimal_text_nonneg by done.
    rewrite count_digits_digits by (apply str_digits_all_digits; lia).
    by replace (Z.abs n) with n by lia.
Qed.

Lemma digits_strip (ds : bytes) :
  forallb is_digit ds = true -> rstrip (lstrip ds) = ds.
Proof.
  intros H. destruct ds as [|c0 r]; [done|].
  assert (Hl : lstrip (c0 :: r) = c0 :: r).
  { simpl in H. apply andb_true_iff in H as [H0 _].
    simpl. by rewrite (is_digit_not_space c0 H0). }
  rewrite Hl.
  destruct (forallb_last_digit (c0 :: r) ltac:(done) H) as (l & c & E & Hc).
  rewrite E. apply rstrip_snoc. by apply is_digit_not_space.
Qed.

(** [int] of a non-empty run of digits, leading zeros included: its
    value, unless the run is longer than the limit. *)
Lemma py_int_digits (ds : bytes) :
  ds <> [] -> forallb is_digit ds = true ->
  py_int ds = if max_str_digits <? Z.of_nat (length ds) then None
              else Some (decimal_value ds).
Proof.
  intros Hne H. unfold py_int. rewrite (digits_strip ds H).
  rewrite <- (count_digits_digits ds H).
  destruct ds as [|c0 r]; [done|]. cbv zeta.
  destruct (max_str_digits <? count_digits (c0 :: r)); [done|].
  assert (H0 : is_digit c0 = true).
  { simpl in H. by apply andb_true_iff in H as [H _]. }
  assert (Hm : bool_decide (c0 = "-"%byte) = false).
  { apply bool_decide_eq_false. intros ->. discriminate. }
  assert (Hp : bool_decide (c0 = "+"%byte) = false).
  { apply bool_decide_eq_false. intros ->. discriminate. }
  rewrite Hm, Hp. by apply int_literal_digits.
Qed.

Lemma py_int_minus_digits (ds : bytes) :
  ds <> [] -> forallb is_digit ds = true ->
  py_int ("-"%byte :: ds)
  = if max_str_digits <? Z.of_nat (length ds) then None
    else Some (- decimal_value ds).
Proof.
  intros Hne H. unfold py_int.
  destruct (forallb_last_digit ds Hne H) as (l & c & E & Hc).
  change (lstrip ("-"%byte :: ds)) with ("-"%byte :: ds).
  rewrite E, app_comm_cons.
  rewrite rstrip_snoc by (by apply is_digit_not_space).
  rewrite <- app_comm_cons, <- E. cbv zeta.
  change (bool_decide ("-"%byte = "-"%byte)) with true. cbv iota.
  cbn [count_digits]. change (is_digit "-"%byte) with false. cbv iota.
  rewrite (count_digits_digits ds H), Z.add_0_l.
  destruct (max_str_digits <? Z.of_nat (length ds)); [done|].
  by rewrite int_literal_digits.
Qed.

Lemma decode_ascii_minus_digits (ds : bytes) :
  forallb is_digit ds = true ->
  decode_ascii ("-"%byte :: ds) = Some ("-"%byte :: ds).
Proof.
  intros Hd. unfold decode_ascii. simpl.
  replace (forallb (fun c => byte_val c <? 128) ds) with true; [done|].
  symmetry. apply forallb_forall. intros x Hx.
  assert (is_digit x = true) by (eapply forallb_forall in Hd; eauto).
  unfold is_digit in *. lia.
Qed.

(** Every non-empty run of digits within the limit is accepted, leading
    zeros included. *)
Lemma IntegerFormat_parse_digits (ds : bytes) :
  ds <> [] -> forallb is_digit ds = true ->
  Z.of_nat (length ds) <= max_str_digits ->
  IntegerFormat.parse ds = Some (decimal_value ds).
Proof.
  intros Hne H Hlen. unfold IntegerFormat.parse.
  rewrite decode_ascii_digits, py_int_digits by done.
  by replace (max_str_digits <? Z.of_nat (length ds)) with false by lia.
Qed.

(** A run of digits over the limit is refused: the [ValueError] of [int]
    becomes a [ParseError]. *)
Lemma IntegerFormat_parse_long (ds : bytes) :
  forallb is_digit ds = true ->
  max_str_digits < Z.of_nat (length ds) ->
  IntegerFormat.parse ds = None.
Proof.
  intros H Hlen. unfold IntegerFormat.parse.
  assert (Hne : ds <> []).
  { intros ->. simpl in Hlen. unfold max_str_digits in Hlen. lia. }
  rewrite decode_ascii_digits, py_int_digits by done.
  by replace (max_str_digits <? Z.of_nat (length ds)) with true by lia.
Qed.

(** The text of a number within the limit parses back to the number,
    for negative numbers too. *)
Lemma IntegerFormat_parse_decimal_text (n : Z) :
  count_digits (decimal_text n) <= max_str_digits ->
  IntegerFormat.parse (decimal_text n) = Some n.
Proof.
  intros Hc. rewrite count_digits_decimal_text in Hc.
  destruct (Z.ltb_spec n 0) as [Hn|Hn].
  - rewrite decimal_text_neg by done.
    replace (Z.abs n) with (- n) in Hc by lia.
    set (ds := str_digits (S (Z.to_nat (- n))) (- n)) in *.
    assert (Hd : forallb is_digit ds = true) by (apply str_digits_all_digits; lia).
    assert (Hne : ds <> []) by apply str_digits_nonempty.
    assert (Hv : decimal_value ds = - n) by (apply str_digits_value; lia).
    unfold IntegerFormat.parse.
    rewrite decode_ascii_minus_digits, py_int_minus_digits by done.
    replace (max_str_digits <? Z.of_nat (length ds)) with false by lia.
    rewrite Hv. f_equal. lia.
  - rewrite decimal_text_nonneg by done.
    replace (Z.abs n) with n in Hc by lia.
    rewrite IntegerFormat_parse_digits.
    + f_equal. apply str_digits_value; lia.
    + apply str_digits_nonempty.
    + apply str_digits_all_digits. lia.
    + done.
Qed.

Lemma py_str_int_Some (n : Z) (text : bytes) :
  py_str_int n = Some text <->
  text = decimal_text n /\ count_digits (decimal_text n) <= max_str_digits.
Proof.
  unfold py_str_int.
  destruct (Z.ltb_spec max_str_digits (count_digits (decimal_text n))); split.
  - done.
  - intros [_ H']. lia.
  - intros [= <-]. split; [done|lia].
  - by intros [-> _].
Qed.

Lemma IntegerFormat_dumps_inr (n : Z) (text : bytes) :
  IntegerFormat.dumps n = inr text <-> py_str_int n = Some text.
Proof.
  unfold IntegerFormat.dumps. destruct (py_str_int n); split; congruence.
Qed.

(** [str] raises exactly for the numbers of more than [max_str_digits]
    digits. *)
Lemma py_str_int_None (n : Z) :
  py_str_int n = None <-> 10 ^ max_str_digits <= Z.abs n.
Proof.
  unfold py_str_int. rewrite count_digits_decimal_text.
  set (m := Z.abs n). assert (Hm : 0 <= m) by (unfold m; lia).
  assert (Hk : max_str_digits = Z.of_nat (Z.to_nat max_str_digits))
    by (unfold max_str_digits; lia).
  destruct (Z.ltb_spec max_str_digits
              (Z.of_nat (length (str_digits (S (Z.to_nat m)) m)))) as [H|H];
    split; try done.
  - intros _. destruct (Z.lt_ge_cases m (10 ^ max_str_digits)) as [Hlt|Hge]; [|done].
    rewrite Hk in Hlt.
    pose proof (str_digits_length (S (Z.to_nat m)) m (Z.to_nat max_str_digits)
                  ltac:(lia) ltac:(unfold max_str_digits; lia)).
    lia.
  - intros Hge. rewrite Hk in Hge.
    pose proof (str_digits_length_lb (S (Z.to_nat m)) m (Z.to_nat max_str_digits)
                  ltac:(lia) Hge).
    lia.
Qed.

(** [parse] undoes [dumps] wherever [dumps] returns. *)
Lemma IntegerFormat_parse_dumps (n : Z) (text : bytes) :
  IntegerFormat.dumps n = inr text -> IntegerFormat.parse text = Some n.
Proof.
  intros H. apply IntegerFormat_dumps_inr, py_str_int_Some in H as [-> H].
  by apply IntegerFormat_parse_decimal_text.
Qed.

(** C7 (counterexample): [b"007"] is accepted and comes back as [b"7"];
    [b"-5"] is accepted although it is not a non-negative integer. *)
Lemma IntegerFormat_roundtrip_fails :
  IntegerFormat.parse (bs "007") = Some 7 /\
  IntegerFormat.dumps 7 = inr (bs "7") /\
  IntegerFormat.parse (bs "-5") = Some (-5) /\
  ~ (forall outer n, IntegerFormat.parse outer = Some n ->
                     IntegerFormat.dumps n = inr outer).
Proof.
  repeat split.
  intros H. specialize (H (bs "007") 7 eq_refl). discriminate.
Qed.

(** C7 (amended): a non-empty string [outer] of ASCII digits is accepted
    by [parse] exactly when it has at most [max_str_digits] (4300)
    digits, leading zeros included; a longer one raises [ParseError].
    When it is accepted, its value is its decimal value [n >= 0],
    [dumps n] returns the canonical text of [n], so
    [dumps (parse outer) = outer] holds exactly when [outer] is [b"0"] or
    has no leading zero, and the text [dumps] returns parses to [n]. *)
Theorem IntegerFormat_roundtrip_canonical (outer : bytes) :
  outer <> [] -> forallb is_digit outer = true ->
  (Z.of_nat (length outer) <= max_str_digits ->
   exists n, IntegerFormat.parse outer = Some n /\ 0 <= n /\
     n = decimal_value outer /\
     exists text, IntegerFormat.dumps n = inr text /\
       (text = outer <-> (outer = bs "0" \/ head outer <> Some "0"%byte)) /\
       IntegerFormat.parse text = Some n) /\
  (max_str_digits < Z.of_nat (length outer) -> IntegerFormat.parse outer = None).
Proof.
  intros Hne H. split; [|by apply IntegerFormat_parse_long].
  intros Hlen. exists (decimal_value outer).
  pose proof (decimal_value_nonneg outer H) as Hpos.
  split; [by apply IntegerFormat_parse_digits|].
  split; [done|]. split; [done|].
  assert (Hc : count_digits (decimal_text (decimal_value outer)) <= max_str_digits).
  { rewrite count_digits_decimal_text.
    replace (Z.abs (decimal_value outer)) with (decimal_value outer) by lia.
    pose proof (decimal_value_bound outer H) as Hb.
    assert (length (str_digits (S (Z.to_nat (decimal_value outer))) (decimal_value outer))
            <= length outer)%nat; [|lia].
    apply str_digits_length; [lia|]. destruct outer; [done|simpl; lia]. }
  exists (decimal_text (decimal_value outer)).
  split; [by apply IntegerFormat_dumps_inr, py_str_int_Some|].
  split; [|by apply IntegerFormat_parse_decimal_text].
  rewrite decimal_text_nonneg by done. split.
  - intros E.
    destruct (Z.eq_dec (decimal_value outer) 0) as [Z0|NZ].
    + left. rewrite Z0 in E. rewrite <- E. reflexivity.
    + right. rewrite <- E. apply str_digits_head; lia.
  - intros Hcan. apply str_digits_canonical; [done|done|exact Hcan|lia].
Qed.

Lemma IntegerFormat_roundtrip_canonical_witness :
  (Z.of_nat (length (bs "1000")) <= max_str_digits ->
   exists n, IntegerFormat.parse (bs "1000") = Some n /\ 0 <= n /\
     n = decimal_value (bs "1000") /\
     exists text, IntegerFormat.dumps n = inr text /\
       (text = bs "1000" <-> (bs "1000" = bs "0" \/ head (bs "1000") <> Some "0"%byte)) /\
       IntegerFormat.parse text = Some n) /\
  (max_str_digits < Z.of_nat (length (bs "1000")) ->
   IntegerFormat.parse (bs "1000") = None).
Proof.
  apply (IntegerFormat_roundtrip_canonical (bs "1000")).
  - discriminate.
  - reflexivity.
Defined.

(** ** reduce_integer *)

(** Scenario 1 of the design document: the oracle [value >= 42] and the
    initial value 1000 give 42. *)
Example reduce_integer_42 :
  current_test_case <$>
    (reduce_integer_loop (fun v => 42 <=? v) 1000 0 1000 (new_session 1000))
  = Some 42.
Proof. vm_compute. reflexivity. Qed.

Section ReduceInteger.

Variable oracle : Z -> bool.
Variable init : Z.

Lemma probes_ok_step (x : Z) (p : session Z) :
  probes_ok oracle init p -> 0 <= x <= init ->
  probes_ok oracle init (snd (is_interesting oracle x p)).
Proof.
  intros Hp Hx y b. simpl. rewrite in_app_iff. intros [H|[H|[]]].
  - by apply Hp.
  - injection H as <- <-. done.
Qed.

Lemma reduce_integer_loop_ok (fuel : nat) :
  forall lo hi p,
    loop_inv oracle init lo hi p -> (Z.to_nat (hi - lo) <= fuel)%nat ->
    exists p', reduce_integer_loop oracle fuel lo hi p = Some p' /\ reduced oracle init p'.
Proof.
  induction fuel as [|k IH]; intros lo hi p Inv Hf.
  - destruct Inv as (H0 & Hle & Hhi & Hlo & Hcur & Hp & Heq).
    simpl. replace (lo + 1 <? hi) with false by lia.
    exists p. split; [done|]. split; [done|]. split; [lia|].
    rewrite Hcur. apply Heq. lia.
  - destruct Inv as (H0 & Hle & Hhi & Hlo & Hcur & Hp & Heq).
    cbn [reduce_integer_loop]. destruct (lo + 1 <? hi) eqn:Hc.
    2:{ exists p. split; [done|]. split; [done|]. split; [lia|].
        rewrite Hcur.
        destruct (Z.eq_dec lo hi) as [E|NE]; [by apply Heq|].
        right. replace (hi - 1) with lo by lia. done. }
    apply Z.ltb_lt in Hc.
    set (mid := (lo + hi) / 2).
    assert (Hmid : lo < mid < hi).
    { unfold mid. Z.div_mod_to_equations. lia. }
    unfold is_interesting at 1. cbn [current_test_case probes].
    set (p1 := Session (if oracle mid then mid else current_test_case p)
                       (probes p ++ [(mid, oracle mid)])).
    assert (Hp1 : probes_ok oracle init p1).
    { apply (probes_ok_step mid p Hp). lia. }
    set (lo1 := if oracle mid then lo else mid).
    set (hi1 := if oracle mid then mid else hi).
    replace (if oracle mid then (lo, mid) else (mid, hi)) with (lo1, hi1)
      by (unfold lo1, hi1; by destruct (oracle mid)).
    assert (H1 : lo < hi1 /\ lo1 < hi1 /\ lo <= lo1 /\ hi1 <= hi /\
                 In (lo1, false) (probes p1) /\ current_test_case p1 = hi1).
    { unfold lo1, hi1, p1. cbn [probes current_test_case].
      destruct (oracle mid) eqn:Em; repeat split; try lia; try done.
      - apply in_app_iff. by left.
      - apply in_app_iff. right. by left. }
    destruct H1 as (Hl1 & Hl1' & Hlo1 & Hhi1 & Hin1 & Hcur1).
    unfold is_interesting at 1. cbn [current_test_case probes].
    set (p2 := Session (if oracle (hi1 - 1) then hi1 - 1 else current_test_case p1)
                       (probes p1 ++ [(hi1 - 1, oracle (hi1 - 1))])).
    assert (Hp2 : probes_ok oracle init p2).
    { apply (probes_ok_step (hi1 - 1) p1 Hp1). lia. }
    set (hi2 := if oracle (hi1 - 1) then hi1 - 1 else hi1).
    assert (Hflo1 : oracle lo1 = false).
    { destruct (Hp1 _ _ Hin1) as [_ E]. done. }
    assert (H2 : lo1 < hi2 /\ hi2 <= hi1 /\ current_test_case p2 = hi2 /\
                 In (lo1, false) (probes p2)).
    { unfold hi2, p2. cbn [probes current_test_case].
      destruct (oracle (hi1 - 1)) eqn:Eh; repeat split; try lia; try done.
      - destruct (Z.eq_dec (hi1 - 1) lo1) as [E|NE]; [|lia].
        rewrite E in Eh. congruence.
      - apply in_app_iff. by left.
      - apply in_app_iff. by left. }
    destruct H2 as (Hl2 & Hhi2 & Hcur2 & Hin2).
    unfold is_interesting at 1. cbn [current_test_case probes].
    set (p3 := Session (if oracle (lo1 + 1) then lo1 + 1 else current_test_case p2)
                       (probes p2 ++ [(lo1 + 1, oracle (lo1 + 1))])).
    assert (Hp3 : probes_ok oracle init p3).
    { apply (probes_ok_step (lo1 + 1) p2 Hp2). lia. }
    destruct (oracle (lo1 + 1)) eqn:El.
    + exists p3. split; [done|]. split; [done|].
      unfold p3. cbn [current_test_case probes].
      split; [lia|]. right. replace (lo1 + 1 - 1) with lo1 by lia.
      apply in_app_iff. by left.
    + apply IH; [|lia].
      unfold loop_inv. split; [lia|]. split; [lia|]. split; [lia|].
      split; [unfold p3; cbn [probes]; apply in_app_iff; right; by left|].
      split; [unfold p3; cbn [current_test_case]; lia|].
      split; [exact Hp3|].
      intros E. right. replace (hi2 - 1) with lo1 by lia.
      unfold p3; cbn [probes]. apply in_app_iff. by left.
Qed.

End ReduceInteger.



(** A negative initial value trips the assertion at the top. *)
Lemma reduce_integer_negative (oracle : Z -> bool) (init : Z) (fuel : nat) :
  init < 0 ->
  reduce_integer oracle fuel (new_session init) = Some (inl AssertionError).
Proof.
  intros H. unfold reduce_integer, new_session. cbn [current_test_case].
  by replace (init <? 0) with true by lia.
Qed.

(** ** regex_pass: the region scan *)

Example matching_regions_digits :
  matching_regions search_digits 7 (bs "12 + 34") = Some [(0, 2); (5, 7)]%nat.
Proof. reflexivity. Qed.

Lemma regions_from_snoc (len prev : nat) (regions : list (nat * nat)) (u v : nat) :
  regions_from len prev regions ->
  (regions_end prev regions <= u <= v /\ v <= len)%nat ->
  regions_from len prev (regions ++ [(u, v)]).
Proof.
  revert prev. induction regions as [|[u0 v0] rest IH]; intros prev H Hb.
  - simpl in *. lia.
  - destruct H as [H1 H2]. split; [done|]. by apply IH.
Qed.

Lemma regions_end_snoc (prev : nat) (regions : list (nat * nat)) (u v : nat) :
  regions_end prev (regions ++ [(u, v)]) = v.
Proof.
  revert prev. induction regions as [|[u0 v0] rest IH]; intros prev; [done|].
  simpl. apply IH.
Qed.

Section Scan.

Variable search : searcher.
Hypothesis Hrange : search_in_range search.

(** Whenever the scan ends, the regions it returns are in ascending order
    and inside the candidate. *)
Lemma matching_regions_loop_sorted (fuel : nat) (tc : bytes) :
  forall i acc regions,
    regions_from (length tc) 0 acc ->
    i = regions_end 0 acc ->
    matching_regions_loop search fuel tc i acc = Some regions ->
    regions_from (length tc) 0 regions.
Proof.
  induction fuel as [|k IH]; intros i acc regions Hacc Hi Hrun.
  - simpl in Hrun. destruct (i <? length tc)%nat; [done|]. by injection Hrun as <-.
  - simpl in Hrun. destruct (i <? length tc)%nat; [|by injection Hrun as <-].
    destruct (search tc i) as [[u v]|] eqn:Es; [|by injection Hrun as <-].
    apply Hrange in Es.
    apply (IH v (acc ++ [(u, v)])); [| |done].
    + apply regions_from_snoc; [done|]. rewrite <- Hi. lia.
    + by rewrite regions_end_snoc.
Qed.

Hypothesis Hnonempty : search_nonempty search.

(** When no match is empty the scan ends within [length tc] rounds. *)
Lemma matching_regions_loop_terminates (fuel : nat) (tc : bytes) :
  forall i acc,
    (length tc - i <= fuel)%nat ->
    exists regions, matching_regions_loop search fuel tc i acc = Some regions.
Proof.
  induction fuel as [|k IH]; intros i acc Hf.
  - cbn [matching_regions_loop].
    destruct (i <? length tc)%nat eqn:Hi; [|eauto].
    apply Nat.ltb_lt in Hi. lia.
  - cbn [matching_regions_loop].
    destruct (i <? length tc)%nat eqn:Hi; [|eauto].
    destruct (search tc i) as [[u v]|] eqn:Es; [|eauto].
    pose proof (Hrange _ _ _ _ Es). pose proof (Hnonempty _ _ _ _ Es).
    apply IH. lia.
Qed.

End Scan.

(** With a pattern that has no empty match the scan ends and the regions
    are ascending, hence pairwise disjoint. *)
Lemma matching_regions_nonempty_pattern (search : searcher) (tc : bytes) (fuel : nat) :
  search_in_range search -> search_nonempty search ->
  (length tc <= fuel)%nat ->
  exists regions,
    matching_regions search fuel tc = Some regions /\
    regions_from (length tc) 0 regions.
Proof.
  intros Hr Hn Hf.
  destruct (matching_regions_loop_terminates search Hr Hn fuel tc 0 [])
    as [regions Hrun]; [lia|].
  exists regions. split; [exact Hrun|].
  eapply matching_regions_loop_sorted; [exact Hr| | |exact Hrun].
  - simpl. lia.
  - reflexivity.
Qed.

Lemma span_digits_le (s : bytes) : (span_digits s <= length s)%nat.
Proof. induction s as [|c r IH]; simpl; [lia|]. destruct (is_digit c); simpl; lia. Qed.

Lemma find_digits_span (s : bytes) :
  forall pos u v, find_digits s pos = Some (u, v) ->
    (pos <= u /\ u < v /\ v <= pos + length s)%nat.
Proof.
  induction s as [|c r IH]; intros pos u v H; [done|].
  cbn [find_digits] in H. destruct (is_digit c) eqn:Ec.
  - injection H as <- <-. pose proof (span_digits_le r).
    cbn [span_digits length]. rewrite Ec. lia.
  - apply IH in H. cbn [length]. lia.
Qed.

Lemma search_digits_span (tc : bytes) (i u v : nat) :
  search_digits tc i = Some (u, v) -> (i <= u /\ u < v /\ v <= length tc)%nat.
Proof.
  unfold search_digits. destruct (i <=? length tc)%nat eqn:Hi; [|done].
  apply Nat.leb_le in Hi. intros H. apply find_digits_span in H.
  rewrite length_drop in H. lia.
Qed.

Lemma search_digits_in_range : search_in_range search_digits.
Proof. intros tc i u v H. apply search_digits_span in H. lia. Qed.

Lemma search_digits_nonempty : search_nonempty search_digits.
Proof. intros tc i u v H. apply search_digits_span in H. lia. Qed.

(** C8 (code defect): the scan resumes at [v], the end of the match, and
    nothing makes [v] larger than the position the search started from.
    The empty pattern matches the empty span at position 0 of [b"x"], so
    the scan stays at 0: whatever the fuel, the loop has not ended. *)
Theorem matching_regions_empty_match_loops (fuel : nat) :
  search_empty (bs "x") 0%nat = Some (0, 0)%nat /\
  matching_regions search_empty fuel (bs "x") = None.
Proof.
  split; [reflexivity|]. unfold matching_regions. generalize (@nil (nat * nat)).
  induction fuel as [|k IH]; intros acc; [reflexivity|].
  cbn [matching_regions_loop]. change (0 <? length (bs "x"))%nat with true.
  change (search_empty (bs "x") 0%nat) with (Some (0, 0)%nat). cbn match.
  apply IH.
Qed.

(** ** regex_pass: reconstruction *)

Example replace_example :
  replace (bs "12 + 34") [(0, 2); (5, 7)]%nat [bs "12"; bs "34"] 1 (bs "5")
  = bs "12 + 5".
Proof. reflexivity. Qed.

Lemma slice_drop {A} (x : list A) (a b : nat) :
  (a <= b)%nat -> slice x a b ++ drop b x = drop a x.
Proof.
  intros H. unfold slice.
  replace b with (a + (b - a))%nat at 2 by lia.
  rewrite <- drop_drop. apply take_drop.
Qed.

Lemma initial_replacements_lookup (initial : bytes) (regions : list (nat * nat))
    (k u v : nat) :
  regions !! k = Some (u, v) ->
  initial_replacements initial regions !!! k = slice initial u v.
Proof.
  intros H. apply list_lookup_total_correct.
  unfold initial_replacements. revert k H.
  induction regions as [|[u0 v0] rest IH]; intros k H; [done|].
  destruct k as [|k]; simpl in *.
  - by injection H as -> ->.
  - by apply IH.
Qed.

Section Replace.

Variable initial : bytes.

(** With every slot holding the bytes of its region, the parts from region
    [j] on spell out the rest of [initial]. *)
Lemma replace_parts_initial (slots : list bytes) (i : nat) :
  forall regions j prev,
    regions_from (length initial) prev regions ->
    (forall k u v, regions !! k = Some (u, v) ->
                   slots !!! (j + k)%nat = slice initial u v) ->
    concat (replace_parts initial slots i (slots !!! i) j prev regions)
    = drop prev initial.
Proof.
  induction regions as [|[u v] rest IH]; intros j prev Hr Hs.
  - simpl. apply app_nil_r.
  - destruct Hr as [Hb Hr]. cbn [replace_parts concat].
    rewrite (IH (S j) v Hr).
    2:{ intros k u' v' Hk. specialize (Hs (S k) u' v' Hk).
        by replace (S j + k)%nat with (j + S k)%nat by lia. }
    assert (Hmid : (if decide (j <> i) then slots !!! j else slots !!! i)
                   = slice initial u v).
    { specialize (Hs 0%nat u v eq_refl).
      replace (j + 0)%nat with j in Hs by lia.
      destruct (decide (j <> i)) as [|E]; [done|].
      assert (j = i) as <- by (destruct (decide (j = i)); [done|contradiction]).
      done. }
    rewrite Hmid, (slice_drop initial u v) by lia.
    apply slice_drop. lia.
Qed.

(** The parts after region [i] do not look at slot [i] nor at [s]. *)
Lemma replace_parts_after (slots : list bytes) (i : nat) (x s s' : bytes) :
  forall regions j prev,
    (i < j)%nat ->
    replace_parts initial (<[i:=x]> slots) i s j prev regions
    = replace_parts initial slots i s' j prev regions.
Proof.
  induction regions as [|[u v] rest IH]; intros j prev Hj; [done|].
  cbn [replace_parts]. rewrite IH by lia.
  destruct (decide (j <> i)) as [_|E]; [|lia].
  by rewrite list_lookup_total_insert_ne by lia.
Qed.

(** [replace i s] is a fixed text before, then [s], then a fixed text
    after: neither depends on [s] or on what slot [i] holds. *)
Lemma replace_parts_split (slots : list bytes) (i : nat) :
  forall regions j prev,
    (j <= i < j + length regions)%nat ->
    exists pre post, forall x s,
      concat (replace_parts initial (<[i:=x]> slots) i s j prev regions)
      = pre ++ s ++ post.
Proof.
  induction regions as [|[u v] rest IH]; intros j prev Hj; [simpl in Hj; lia|].
  destruct (decide (j = i)) as [->|Hne].
  - exists (slice initial prev u),
           (concat (replace_parts initial slots i [] (S i) v rest)).
    intros x s. cbn [replace_parts concat].
    destruct (decide (i <> i)) as [|_]; [done|].
    by rewrite (replace_parts_after slots i x s []) by lia.
  - destruct (IH (S j) v) as (pre & post & Hsplit); [simpl in Hj; lia|].
    exists (slice initial prev u ++ slots !!! j ++ pre), post.
    intros x s. cbn [replace_parts concat]. rewrite Hsplit.
    destruct (decide (j <> i)) as [_|]; [|done].
    rewrite list_lookup_total_insert_ne by done.
    by rewrite <- !app_assoc.
Qed.

End Replace.

Lemma insert_own_value (slots : list bytes) (i : nat) :
  <[i := slots !!! i]> slots = slots.
Proof.
  destruct (decide (i < length slots)%nat) as [Hlt|Hge].
  - apply list_insert_id. by apply list_lookup_lookup_total_lt.
  - apply list_insert_ge. lia.
Qed.

(** C9: right after the slots are initialised from the scanned regions,
    [replace i replacements[i]] is the pass-start candidate for every
    region [i]; and for any contents of the slots, [replace i s] is
    [pre ++ s ++ post] where [pre] and [post] depend neither on [s] nor on
    what slot [i] holds, so it differs from the reconstruction
    [pre ++ slots[i] ++ post] only in region [i]'s contribution. *)
Theorem replace_own_slot_identity (search : searcher) (fuel : nat)
    (initial : bytes) (regions : list (nat * nat)) :
  search_in_range search ->
  matching_regions search fuel initial = Some regions ->
  let replacements := initial_replacements initial regions in
  forall i, (i < length regions)%nat ->
    replace initial regions replacements i (replacements !!! i) = initial /\
    forall slots, exists pre post,
      replace initial regions slots i (slots !!! i) = pre ++ slots !!! i ++ post /\
      forall x s, replace initial regions (<[i:=x]> slots) i s = pre ++ s ++ post.
Proof.
  intros Hr Hscan replacements i Hi. split.
  - unfold replace. rewrite replace_parts_initial; [done| |].
    + eapply matching_regions_loop_sorted; [exact Hr| | |exact Hscan].
      * simpl. lia.
      * reflexivity.
    + intros k u v Hk. by apply initial_replacements_lookup.
  - intros slots.
    destruct (replace_parts_split initial slots i regions 0 0) as (pre & post & H);
      [lia|].
    exists pre, post. split; [|exact H].
    rewrite <- (insert_own_value slots i) at 1. apply H.
Qed.

Lemma replace_own_slot_identity_witness :
  replace (bs "12 + 34") [(0, 2); (5, 7)]%nat
          (initial_replacements (bs "12 + 34") [(0, 2); (5, 7)]%nat) 1
          (initial_replacements (bs "12 + 34") [(0, 2); (5, 7)]%nat !!! 1%nat)
  = bs "12 + 34" /\
  forall slots, exists pre post,
    replace (bs "12 + 34") [(0, 2); (5, 7)]%nat slots 1 (slots !!! 1%nat)
    = pre ++ slots !!! 1%nat ++ post /\
    forall x s, replace (bs "12 + 34") [(0, 2); (5, 7)]%nat (<[1%nat:=x]> slots) 1 s
                = pre ++ s ++ post.
Proof.
  apply (replace_own_slot_identity search_digits 7 (bs "12 + 34")
           [(0, 2); (5, 7)]%nat search_digits_in_range eq_refl 1%nat).
  simpl. lia.
Defined.

(** ** regex_pass: the commit protocol *)

Example race_state :
  run (fun _ => true) (bs "1 22") [(0, 1); (2, 4)]%nat
      (pass_start (bs "1 22") [(0, 1); (2, 4)]%nat) race
  = Some (Engine [bs "0"; bs "22"] 1
            (Session (bs "1 0")
               [(bs "0 22", true); (bs "1 0", true)])
            [InSubPass; AtOracle (Frame (bs "0") true 1) (bs "0 0")]
            None).
Proof. vm_compute. reflexivity. Qed.

Section EngineProps.

Variable oracle : bytes -> bool.
Variable initial : bytes.
Variable regions : list (nat * nat).

Lemma finally_fields (f : frame) (e e' : engine) (o o' : outcome) :
  finally f e o = (e', o') ->
  replacements e' = replacements e /\ problem e' = problem e /\
  tasks e' = tasks e /\ raised e' = raised e /\
  (o' = o \/ o' = Raise AssertionError).
Proof.
  unfold finally. intros H.
  destruct (is_merging f); [|injection H as <- <-; auto 6].
  destruct (0 <=? current_merge_attempts e - 1);
    injection H as <- <-; simpl; auto 6.
Qed.

Lemma loop_top_task (i : nat) (f : frame) (e : engine) :
  loop_top initial regions i f e = Suspend (AtSleep f) \/
  loop_top initial regions i f e
  = Suspend (AtOracle f (replace initial regions (replacements e) i (fr_s f))).
Proof.
  unfold loop_top.
  destruct (negb (is_merging f) && (0 <? current_merge_attempts e)); auto.
Qed.

Lemma settle_wf (i : nat) (e : engine) (o : outcome) :
  engine_wf regions e ->
  match o with Suspend t => task_ok t | _ => True end ->
  engine_wf regions (settle i e o).
Proof.
  intros (Hr & Ht & Hok) Ho. unfold engine_wf.
  destruct o as [t|b|x]; simpl; rewrite length_insert;
    (split; [done|]; split; [done|]); by apply Forall_insert.
Qed.

(** What the oracle's answer leads to, case by case. *)
Lemma after_oracle_cases (i : nat) (f : frame) (attempt : bytes) (e e' : engine)
    (o : outcome) :
  after_oracle oracle initial regions i f attempt e = (e', o) ->
  tasks e' = tasks e /\ raised e' = raised e /\
  problem e' = snd (is_interesting oracle attempt (problem e)) /\
  ( (* refused *)
    (oracle attempt = false /\ replacements e' = replacements e /\
     (o = Return false \/ o = Raise AssertionError))
    \/ (* accepted and committed *)
    (oracle attempt = true /\
     replace initial regions (replacements e) i (fr_s f) = attempt /\
     replacements e' = <[i := fr_s f]> (replacements e) /\
     (o = Return true \/ o = Raise AssertionError))
    \/ (* accepted, but a sibling slot has changed *)
    (oracle attempt = true /\
     replace initial regions (replacements e) i (fr_s f) <> attempt /\
     replacements e' = replacements e /\
     if retries f + 1 <=? 100
     then exists t, o = Suspend t /\
            (t = AtSleep (Frame (fr_s f) true (retries f + 1)) \/
             exists a, t = AtOracle (Frame (fr_s f) true (retries f + 1)) a)
     else o = Raise AssertionError) ).
Proof.
  unfold after_oracle, is_interesting. cbn [snd].
  destruct (oracle attempt) eqn:Eo; cbn [negb].
  - destruct (bool_decide _) eqn:Er.
    + apply bool_decide_eq_true in Er. intros H.
      apply finally_fields in H as (H1 & H2 & H3 & H4 & H5). simpl in *.
      repeat split; try done. right; left. repeat split; done.
    + apply bool_decide_eq_false in Er. cbn [replacements] in *.
      destruct (is_merging f) eqn:Em; cbn [negb fr_s is_merging retries];
        destruct (retries f + 1 <=? 100) eqn:Ec.
      all: try (intros [= <- <-]; simpl; repeat split; try done;
                right; right; repeat split; try done; rewrite ?Em;
                match goal with
                | |- context [loop_top _ _ ?I ?F ?E] =>
                    destruct (loop_top_task I F E) as [H|H]; rewrite H
                end; eauto).
      all: intros H; apply finally_fields in H as (H1 & H2 & H3 & H4 & H5);
           simpl in *; repeat split; try done;
           right; right; repeat split; try done; by destruct H5.
  - intros H. apply finally_fields in H as (H1 & H2 & H3 & H4 & H5). simpl in *.
    repeat split; try done. left. repeat split; try done.
Qed.

Lemma step_wf (e e' : engine) (ev : event) :
  engine_wf regions e -> step oracle initial regions e ev = Some e' -> engine_wf regions e'.
Proof.
  intros Hwf. pose proof Hwf as (Hr & Ht & Hok). unfold step.
  destruct (raised e); [done|]. destruct ev as [i s|i|i].
  - destruct (tasks e !! i) as [[|f|f a]|]; try done. intros [= <-].
    apply settle_wf; [done|].
    destruct (loop_top_task i (Frame s false 0) e) as [H|H]; rewrite H; simpl; lia.
  - destruct (tasks e !! i) as [[|f|f a]|] eqn:Ei; try done. intros [= <-].
    apply settle_wf; [done|].
    pose proof (Forall_lookup_1 _ _ _ _ Hok Ei) as Hf.
    destruct (loop_top_task i f e) as [H|H]; rewrite H; exact Hf.
  - destruct (tasks e !! i) as [[|f|f a]|] eqn:Ei; try done.
    destruct (after_oracle oracle initial regions i f a e) as [e1 o] eqn:Ea.
    intros [= <-].
    pose proof (Forall_lookup_1 _ _ _ _ Hok Ei) as Hf. simpl in Hf.
    apply after_oracle_cases in Ea as (Ht1 & _ & _ & Hcase).
    apply settle_wf.
    + unfold engine_wf. rewrite Ht1.
      destruct Hcase as [(_ & -> & _)|[(_ & _ & -> & _)|(_ & _ & -> & _)]];
        rewrite ?length_insert; done.
    + destruct Hcase as [(_ & _ & [->| ->])|[(_ & _ & _ & [->| ->])|(_ & _ & _ & Hc)]];
        try done.
      destruct (retries f + 1 <=? 100) eqn:Ec; [|by rewrite Hc].
      destruct Hc as (t & -> & [->|[a' ->]]); simpl; lia.
Qed.

Lemma run_wf (evs : list event) :
  forall e e', engine_wf regions e -> run oracle initial regions e evs = Some e' -> engine_wf regions e'.
Proof.
  induction evs as [|ev evs IH]; intros e e' Hwf Hrun.
  - by injection Hrun as <-.
  - simpl in Hrun. destruct (step oracle initial regions e ev) as [e1|] eqn:Es; [|done].
    eapply IH; [|exact Hrun]. by eapply step_wf.
Qed.

Lemma pass_start_wf : engine_wf regions (pass_start initial regions).
Proof.
  unfold engine_wf, pass_start, initial_replacements. simpl.
  rewrite length_map, length_replicate. repeat split.
  apply Forall_replicate. exact I.
Qed.

Lemma reachable_wf (e : engine) :
  reachable oracle initial regions e -> engine_wf regions e.
Proof. intros [evs Hrun]. eapply run_wf; [apply pass_start_wf|exact Hrun]. Qed.

Lemma run_snoc (evs : list event) (ev : event) :
  forall e e1 e2,
    run oracle initial regions e evs = Some e1 ->
    step oracle initial regions e1 ev = Some e2 ->
    run oracle initial regions e (evs ++ [ev]) = Some e2.
Proof.
  induction evs as [|ev0 evs IH]; intros e e1 e2 Hrun Hstep.
  - injection Hrun as <-. simpl. by rewrite Hstep.
  - simpl in *. destruct (step oracle initial regions e ev0); [|done]. by eapply IH.
Qed.

Lemma reachable_step (e e' : engine) (ev : event) :
  reachable oracle initial regions e ->
  step oracle initial regions e ev = Some e' ->
  reachable oracle initial regions e'.
Proof. intros [evs Hrun] Hstep. exists (evs ++ [ev]). by eapply run_snoc. Qed.

(** The reconstruction with a slot's own value is the same for every
    region. *)
Lemma replace_parts_own (slots : list bytes) (i i' : nat) :
  forall rs j prev,
    replace_parts initial slots i (slots !!! i) j prev rs
    = replace_parts initial slots i' (slots !!! i') j prev rs.
Proof.
  induction rs as [|[u v] rest IH]; intros j prev; [done|].
  cbn [replace_parts]. rewrite IH. do 2 f_equal.
  destruct (decide (j <> i)) as [|E1], (decide (j <> i')) as [|E2]; try done.
  - assert (j = i') as -> by (destruct (decide (j = i')); [done|contradiction]). done.
  - assert (j = i) as -> by (destruct (decide (j = i)); [done|contradiction]). done.
  - assert (j = i) as <- by (destruct (decide (j = i)); [done|contradiction]).
    assert (j = i') as <- by (destruct (decide (j = i')); [done|contradiction]). done.
Qed.

(** Writing [s] into slot [i] gives the candidate that [replace i s]
    described. *)
Lemma replace_parts_written (slots : list bytes) (i : nat) (s : bytes) :
  forall rs j prev,
    replace_parts initial (<[i:=s]> slots) i s j prev rs
    = replace_parts initial slots i s j prev rs.
Proof.
  induction rs as [|[u v] rest IH]; intros j prev; [done|].
  cbn [replace_parts]. rewrite IH. do 2 f_equal.
  destruct (decide (j <> i)) as [Hne|]; [|done].
  by rewrite list_lookup_total_insert_ne.
Qed.

Lemma replace_after_commit (slots : list bytes) (i i' : nat) (s : bytes) :
  (i < length slots)%nat ->
  replace initial regions (<[i:=s]> slots) i' (<[i:=s]> slots !!! i')
  = replace initial regions slots i s.
Proof.
  intros Hi. unfold replace.
  rewrite (replace_parts_own _ i' i).
  rewrite list_lookup_total_insert_eq by done.
  by rewrite replace_parts_written.
Qed.

Lemma settled_reachable (e : engine) :
  settled oracle initial regions e -> reachable oracle initial regions e.
Proof.
  induction 1 as [|e e' ev Hr Hs _|e e' ev _ IH Hs _].
  - by exists [].
  - by eapply reachable_step.
  - by eapply reachable_step.
Qed.

Lemma settle_fields (i : nat) (e : engine) (o : outcome) :
  replacements (settle i e o) = replacements e /\
  problem (settle i e o) = problem e.
Proof. by destruct o. Qed.

Lemma consistent_ext (e e' : engine) :
  replacements e' = replacements e ->
  current_test_case (problem e') = current_test_case (problem e) ->
  consistent initial regions e -> consistent initial regions e'.
Proof. intros Hr Hp H i Hi. rewrite Hr, Hp. by apply H. Qed.

(** A step that writes a slot leaves slots and session in agreement,
    whatever the state before. *)
Lemma commit_consistent (e e' : engine) (ev : event) :
  engine_wf regions e -> step oracle initial regions e ev = Some e' ->
  commit oracle initial regions e ev -> consistent initial regions e'.
Proof.
  intros (Hr & Ht & _) Hstep (i & f & a & -> & Hi & Ho & Hrep).
  unfold step in Hstep. destruct (raised e); [done|]. rewrite Hi in Hstep.
  destruct (after_oracle oracle initial regions i f a e) as [e1 o] eqn:Ea.
  injection Hstep as <-.
  apply after_oracle_cases in Ea as (_ & _ & Hp & Hcase).
  destruct Hcase as [(Hf & _)|[(_ & _ & Hw & _)|(_ & Hne & _)]];
    [congruence| |contradiction].
  intros i' Hi'. destruct (settle_fields i e1 o) as [-> ->].
  rewrite Hw, Hp. unfold is_interesting. rewrite Ho. cbn [snd current_test_case].
  rewrite replace_after_commit; [done|].
  apply lookup_lt_Some in Hi. lia.
Qed.

(** A step that is not a detected conflict keeps the agreement. *)
Lemma quiet_consistent (e e' : engine) (ev : event) :
  engine_wf regions e -> step oracle initial regions e ev = Some e' ->
  ~ conflict oracle initial regions e ev ->
  consistent initial regions e -> consistent initial regions e'.
Proof.
  intros Hwf Hstep Hq Hc. pose proof Hstep as Hstep0.
  unfold step in Hstep. destruct (raised e); [done|].
  destruct ev as [i s|i|i].
  - destruct (tasks e !! i) as [[|f|f a]|]; try done. injection Hstep as <-.
    destruct (settle_fields i e (loop_top initial regions i (Frame s false 0) e))
      as [H1 H2].
    apply (consistent_ext e); [exact H1|by rewrite H2|exact Hc].
  - destruct (tasks e !! i) as [[|f|f a]|]; try done. injection Hstep as <-.
    destruct (settle_fields i e (loop_top initial regions i f e)) as [H1 H2].
    apply (consistent_ext e); [exact H1|by rewrite H2|exact Hc].
  - destruct (tasks e !! i) as [[|f|f a]|] eqn:Ei; try done.
    destruct (after_oracle oracle initial regions i f a e) as [e1 o] eqn:Ea.
    injection Hstep as <-.
    apply after_oracle_cases in Ea as (_ & _ & Hp & Hcase).
    destruct Hcase as [(Hf & Hw & _)|[(Ho & Hrep & _)|(Ho & Hne & _)]].
    + destruct (settle_fields i e1 o) as [H1 H2].
      apply (consistent_ext e (settle i e1 o)); [by rewrite H1, Hw| |exact Hc].
      rewrite H2, Hp. unfold is_interesting. by rewrite Hf.
    + eapply commit_consistent; [exact Hwf|exact Hstep0|].
      by exists i, f, a.
    + exfalso. apply Hq. by exists i, f, a.
Qed.

End EngineProps.

(** C1 (counterexample): in the race above the engine is at a point where
    every task is suspended, task 1 at its oracle call; the slots
    reconstruct [b"0 22"] while the session's candidate is [b"1 0"]. *)
Lemma reconstruction_invariant_fails :
  let oracle := fun _ : bytes => true in
  let initial := bs "1 22" in
  let regions := [(0, 1); (2, 4)]%nat in
  exists e,
    run oracle initial regions (pass_start initial regions) race = Some e /\
    tasks e !! 1%nat = Some (AtOracle (Frame (bs "0") true 1) (bs "0 0")) /\
    replace initial regions (replacements e) 0 (replacements e !!! 0%nat) = bs "0 22" /\
    current_test_case (problem e) = bs "1 0" /\
    ~ consistent initial regions e.
Proof.
  eexists. split; [vm_compute; reflexivity|].
  split; [reflexivity|]. split; [reflexivity|]. split; [reflexivity|].
  intros H. specialize (H 0%nat ltac:(simpl; lia)). discriminate H.
Qed.

(** C1 (amended): slots and session agree at the start of the pass and
    right after every commit, and every step other than a detected
    conflict (an accepted attempt whose second reconstruction differs)
    keeps them in agreement. *)
Theorem reconstruction_invariant (oracle : bytes -> bool) (initial : bytes)
    (regions : list (nat * nat)) (e : engine) :
  regions_from (length initial) 0 regions ->
  settled oracle initial regions e ->
  forall i, (i < length regions)%nat ->
    replace initial regions (replacements e) i (replacements e !!! i)
    = current_test_case (problem e).
Proof.
  intros Hreg Hs. change (consistent initial regions e).
  induction Hs as [|e e' ev Hr Hstep Hc|e e' ev Hs IH Hstep Hq].
  - intros i Hi. unfold pass_start, new_session. cbn [replacements problem current_test_case].
    unfold replace. rewrite replace_parts_initial; [done|done|].
    intros k u v Hk. by apply initial_replacements_lookup.
  - eapply commit_consistent; [|exact Hstep|exact Hc].
    by eapply reachable_wf.
  - eapply quiet_consistent; [|exact Hstep|exact Hq|exact IH].
    eapply reachable_wf. by eapply settled_reachable.
Qed.

Lemma reconstruction_invariant_witness :
  replace (bs "1 22") [(0, 1); (2, 4)]%nat [bs "0"; bs "22"] 1
          ([bs "0"; bs "22"] !!! 1%nat)
  = bs "0 22".
Proof.
  apply (reconstruction_invariant (fun _ => true) (bs "1 22") [(0, 1); (2, 4)]%nat
           (Engine [bs "0"; bs "22"] 0 (Session (bs "0 22") [(bs "0 22", true)])
                   [InSubPass; InSubPass] None)).
  - simpl. lia.
  - apply (settled_commit _ _ _
             (Engine [bs "1"; bs "22"] 0 (Session (bs "1 22") [])
                     [AtOracle (Frame (bs "0") false 0) (bs "0 22"); InSubPass] None)
             _ (Answer 0)).
    + exists [Propose 0 (bs "0")]. reflexivity.
    + reflexivity.
    + exists 0%nat, (Frame (bs "0") false 0), (bs "0 22"). repeat split; reflexivity.
  - simpl. lia.
Defined.

(** ** The retry cap *)

Example storm_task0 :
  exists a, tasks storm_state !! 0%nat = Some (AtOracle (Frame (bs "0") true 100) a).
Proof. eexists. reflexivity. Qed.

Lemma storm_reachable :
  reachable (fun _ => true) storm_initial storm_regions storm_state.
Proof. exists storm. vm_compute. reflexivity. Qed.

(** The next answer to task 0 is the 101st conflict: the assertion fails
    and the pass is over. *)
Lemma storm_hits_cap :
  raised <$> run (fun _ => true) storm_initial storm_regions storm_state [Answer 0]
  = Some (Some AssertionError).
Proof. vm_compute. reflexivity. Qed.

(** C4: a task waiting for its oracle answer has retried at most 100
    times.  If the answer is yes and the second reconstruction differs,
    the task probes again (retry count one higher) as long as fewer than
    100 retries were made; at 100 the assertion fails: the outcome is the
    exception, not [Return false], it leaves the nursery, and no task of
    the pass takes another step.  [Return false] only ever reports a
    refusal by the oracle. *)
Theorem retry_cap (oracle : bytes -> bool) (initial : bytes)
    (regions : list (nat * nat)) (e : engine) (i : nat) (f : frame) (a : bytes) :
  reachable oracle initial regions e ->
  tasks e !! i = Some (AtOracle f a) ->
  0 <= retries f <= 100 /\
  forall e1 o, after_oracle oracle initial regions i f a e = (e1, o) ->
    (o = Return false -> oracle a = false) /\
    (oracle a = true ->
     replace initial regions (replacements e) i (fr_s f) <> a ->
     if retries f <? 100
     then exists t, o = Suspend t /\
            (t = AtSleep (Frame (fr_s f) true (retries f + 1)) \/
             exists a', t = AtOracle (Frame (fr_s f) true (retries f + 1)) a')
     else o = Raise AssertionError /\
          raised (settle i e1 o) = Some AssertionError /\
          forall ev, step oracle initial regions (settle i e1 o) ev = None).
Proof.
  intros Hr Hi.
  destruct (reachable_wf oracle initial regions e Hr) as (_ & _ & Hok).
  pose proof (Forall_lookup_1 _ _ _ _ Hok Hi) as Hf. simpl in Hf.
  split; [exact Hf|]. intros e1 o Ha.
  apply after_oracle_cases in Ha as (_ & _ & _ & Hcase). split.
  - intros ->.
    destruct Hcase as [(Ho & _)|[(_ & _ & _ & [H|H])|(_ & _ & _ & Hc)]];
      try done.
    destruct (retries f + 1 <=? 100); [|done].
    by destruct Hc as (t & Ht & _).
  - intros Ho Hne.
    destruct Hcase as [(Ho' & _)|[(_ & Heq & _)|(_ & _ & _ & Hc)]];
      [congruence|contradiction|].
    destruct (retries f <? 100) eqn:Ec.
    + replace (retries f + 1 <=? 100) with true in Hc by lia. exact Hc.
    + replace (retries f + 1 <=? 100) with false in Hc by lia. subst o.
      split; [done|]. split; [done|]. intros ev. reflexivity.
Qed.

Lemma retry_cap_witness :
  let oracle := fun _ : bytes => true in
  let a := replace storm_initial storm_regions
             (<[101%nat := bs "1"]> (replacements storm_state)) 0 (bs "0") in
  let f := Frame (bs "0") true 100 in
  0 <= retries f <= 100 /\
  forall e1 o,
    after_oracle oracle storm_initial storm_regions 0 f a storm_state = (e1, o) ->
    (o = Return false -> oracle a = false) /\
    (oracle a = true ->
     replace storm_initial storm_regions (replacements storm_state) 0 (fr_s f) <> a ->
     if retries f <? 100
     then exists t, o = Suspend t /\
            (t = AtSleep (Frame (fr_s f) true (retries f + 1)) \/
             exists a', t = AtOracle (Frame (fr_s f) true (retries f + 1)) a')
     else o = Raise AssertionError /\
          raised (settle 0 e1 o) = Some AssertionError /\
          forall ev, step oracle storm_initial storm_regions (settle 0 e1 o) ev = None).
Proof.
  apply (retry_cap (fun _ => true) storm_initial storm_regions storm_state 0%nat
           (Frame (bs "0") true 100)).
  - exact storm_reachable.
  - vm_compute. reflexivity.
Defined.

(** ** combine_expressions *)

Section CombineExpressionsProps.

Variable float : Type.
Variable true_div : Z -> Z -> option float.
Variable float_str : float -> bytes.

(** Scenario 2 of the design document. *)
Example combine_expressions_sum :
  combine_expressions float true_div float_str (bs "123 + 456")
  = Some (Proposed (bs "579")).
Proof. reflexivity. Qed.

(** A division by zero is swallowed: the pass ends without a proposal. *)
Example combine_expressions_division_by_zero :
  combine_expressions float true_div float_str (bs "1 / 0") = Some Passed.
Proof. reflexivity. Qed.

(** The comma lies in the range [+-/]: the value is a tuple. *)
Example combine_expressions_comma :
  combine_expressions float true_div float_str (bs "1 , 2")
  = Some (Proposed (bs "(1, 2)")).
Proof. reflexivity. Qed.

End CombineExpressionsProps.

(** C5 (code defect): [b"01 + 2"] is a region of the pattern, its [eval]
    raises [SyntaxError] (a leading zero), and [except ArithmeticError]
    does not catch that: the exception leaves the pass.  The same happens
    for [b"1 . 2"], matched because the class [[*+-/]] contains the range
    from [+] to [/]. *)
Theorem combine_expressions_syntax_error_escapes
    (float : Type) (true_div : Z -> Z -> option float) (float_str : float -> bytes) :
  matching_regions search_expression 6 (bs "01 + 2") = Some [(0, 6)%nat] /\
  initial_replacements (bs "01 + 2") [(0, 6)%nat] = [bs "01 + 2"] /\
  combine_expressions float true_div float_str (bs "01 + 2")
  = Some (Propagated SyntaxError) /\
  matching_regions search_expression 5 (bs "1 . 2") = Some [(0, 5)%nat] /\
  combine_expressions float true_div float_str (bs "1 . 2")
  = Some (Propagated SyntaxError) /\
  is_ArithmeticError SyntaxError = false.
Proof. repeat split; reflexivity. Qed.

(** ** normalize_identifiers *)

Example finditer_identifier_example :
  finditer_identifier 0 None (bs "foo = bar_1 + 12; _x9 12ab")
  = [bs "foo"; bs "bar_1"; bs "12"; bs "9"; bs "12"].
Proof. vm_compute. reflexivity. Qed.

(** Scenario 5 of the design document, an oracle that accepts every
    renaming: both names become the shortlex-smallest member of the pool,
    the fresh capital letter. *)
Example normalize_identifiers_example :
  result_candidate
    (normalize_identifiers (fun _ => true) (new_session (bs "longname1 = longname2")))
  = Some (bs "A = A").
Proof. vm_compute. reflexivity. Qed.

Lemma key_ge_shortlex (r t : bytes) :
  key_ge (shortlex r) (shortlex t) = false <-> shortlex_lt r t.
Proof.
  unfold key_ge, shortlex, shortlex_lt. cbn [fst snd].
  destruct (Nat.compare_spec (length r) (length t)) as [E|L|G].
  - destruct (bytes_compare r t); split; try done; intros H; try lia.
    + destruct H as [H|[_ H]]; [lia|done].
    + by right.
    + destruct H as [H|[_ H]]; [lia|done].
  - split; [by left|done].
  - split; [done|]. intros [H|[H _]]; lia.
Qed.

Lemma bytes_compare_refl (a : bytes) : bytes_compare a a = Eq.
Proof. induction a as [|x a IH]; [done|]. simpl. by rewrite Z.compare_refl. Qed.

Lemma shortlex_lt_neq (r t : bytes) : shortlex_lt r t -> r <> t /\ t <> [].
Proof.
  intros [H|[H1 H2]]; split.
  - intros ->. lia.
  - intros ->. simpl in H. lia.
  - intros ->. by rewrite bytes_compare_refl in H2.
  - intros ->. destruct r; [done|discriminate].
Qed.

Section SubWord.

Variables t r : bytes.

Lemma match_word_here_prefix (prev : option byte) (s : bytes) :
  match_word_here t prev s = true -> exists rest, s = t ++ rest.
Proof.
  unfold match_word_here. intros H.
  apply andb_true_iff in H as [H _]. apply andb_true_iff in H as [_ H].
  by apply startswith_spec.
Qed.

Lemma search_word_nil (prev : option byte) :
  t <> [] -> search_word t prev [] = false.
Proof.
  intros Ht. simpl. rewrite orb_false_r.
  destruct (match_word_here t prev []) eqn:E; [|done].
  apply match_word_here_prefix in E as [rest E].
  symmetry in E. apply app_eq_nil in E as [E _]. done.
Qed.

(** Inside a match nothing is written; elsewhere at most what was read. *)
Lemma sub_word_length_le :
  (length r <= length t)%nat -> t <> [] ->
  forall s skip prev,
    (skip <= length s)%nat ->
    (length (sub_word t r skip prev s) + skip <= length s)%nat.
Proof.
  intros Hrt Ht. induction s as [|c rest IH]; intros skip prev Hs.
  - simpl in *. lia.
  - cbn [sub_word]. destruct skip as [|k].
    + destruct (match_word_here t prev (c :: rest)) eqn:Em.
      * apply match_word_here_prefix in Em as [rest' E].
        assert (Hl : (length t - 1 <= length rest)%nat).
        { apply (f_equal length) in E. rewrite length_app in E. simpl in E. lia. }
        specialize (IH (length t - 1)%nat (Some c) Hl).
        rewrite length_app. cbn [length].
        destruct t; [done|]. simpl in *. lia.
      * specialize (IH 0%nat (Some c) ltac:(lia)). cbn [length]. lia.
    + cbn [length] in *. specialize (IH k (Some c) ltac:(lia)). lia.
Qed.

(** A shorter replacement makes the result shorter as soon as there is
    a match. *)
Lemma sub_word_shorter :
  (length r < length t)%nat ->
  forall s prev,
    search_word t prev s = true ->
    (length (sub_word t r 0 prev s) < length s)%nat.
Proof.
  intros Hrt. assert (Ht : t <> []) by (intros ->; simpl in Hrt; lia).
  induction s as [|c rest IH]; intros prev Hs.
  - by rewrite search_word_nil in Hs.
  - cbn [sub_word search_word] in *.
    destruct (match_word_here t prev (c :: rest)) eqn:Em.
    + apply match_word_here_prefix in Em as [rest' E].
      assert (Hl : (length t - 1 <= length rest)%nat).
      { apply (f_equal length) in E. rewrite length_app in E. simpl in E. lia. }
      pose proof (sub_word_length_le ltac:(lia) Ht rest (length t - 1)%nat (Some c) Hl).
      rewrite length_app. cbn [length]. lia.
    + simpl in Hs. specialize (IH (Some c) Hs). cbn [length]. lia.
Qed.

(** A different replacement of the same length shows at the first
    match. *)
Lemma sub_word_differs :
  length r = length t -> r <> t ->
  forall s prev,
    t <> [] -> search_word t prev s = true ->
    sub_word t r 0 prev s <> s.
Proof.
  intros Hlen Hne. induction s as [|c rest IH]; intros prev Ht Hs.
  - by rewrite search_word_nil in Hs.
  - cbn [sub_word search_word] in *.
    destruct (match_word_here t prev (c :: rest)) eqn:Em.
    + apply match_word_here_prefix in Em as [rest' E].
      intros H. rewrite E in H. apply app_inj_1 in H as [H _]; done.
    + simpl in Hs. intros [= H]. by eapply IH.
Qed.

End SubWord.

(** [pattern.sub(r, source)] changes [source] whenever [t] occurs in it
    and [r] is strictly shortlex-smaller. *)
Lemma sub_word_changes (t r source : bytes) :
  search_word t None source = true -> shortlex_lt r t ->
  sub_word t r 0 None source <> source.
Proof.
  intros Hs Hlt. destruct (shortlex_lt_neq r t Hlt) as [Hne Ht].
  destruct Hlt as [Hl|[Hl _]].
  - pose proof (sub_word_shorter t r Hl source None Hs) as H.
    intros E. rewrite E in H. lia.
  - by apply sub_word_differs.
Qed.

Section NormalizeIdentifiersProps.

Variable oracle : bytes -> bool.

Lemma can_replace_skips (t source r : bytes) (p : session bytes) :
  ~ shortlex_lt r t -> can_replace oracle t source r p = inr (false, p).
Proof.
  intros H. unfold can_replace.
  destruct (key_ge (shortlex r) (shortlex t)) eqn:E; [done|].
  apply key_ge_shortlex in E. contradiction.
Qed.

Lemma can_replace_probes (t source r : bytes) (p : session bytes) :
  search_word t None source = true -> shortlex_lt r t ->
  can_replace oracle t source r p
  = inr (is_interesting oracle (sub_word t r 0 None source) p).
Proof.
  intros Hs Hlt. unfold can_replace.
  apply key_ge_shortlex in Hlt as E. rewrite E.
  rewrite bool_decide_eq_true_2; [done|]. by apply sub_word_changes.
Qed.

Lemma find_first_value_probes (t source : bytes) (Hs : search_word t None source = true) :
  forall ls p, exists res p' new,
    find_first_value ls (can_replace oracle t source) p = inr (res, p') /\
    probes p' = probes p ++ new /\ Forall renaming new /\
    match res with
    | Some r => shortlex_lt r t /\
                current_test_case p' = sub_word t r 0 None source
    | None => current_test_case p' = current_test_case p
    end.
Proof.
  induction ls as [|r ls IH]; intros p.
  - exists None, p, []. simpl. rewrite app_nil_r. auto.
  - cbn [find_first_value].
    destruct (decide (key_ge (shortlex r) (shortlex t) = false)) as [E|E].
    + apply key_ge_shortlex in E as Hlt.
      rewrite (can_replace_probes t source r p Hs Hlt).
      unfold is_interesting.
      destruct (oracle (sub_word t r 0 None source)) eqn:Eo.
      * eexists (Some r), _, [_]. split; [reflexivity|].
        cbn [probes current_test_case]. split; [reflexivity|].
        split; [|done]. constructor; [|constructor].
        by exists t, r, source.
      * destruct (IH (Session (current_test_case p)
                       (probes p ++ [(sub_word t r 0 None source, false)])))
          as (res & p' & new & Hrun & Hp & Hnew & Hres).
        exists res, p', ((sub_word t r 0 None source, false) :: new).
        split; [exact Hrun|]. cbn [probes current_test_case] in *.
        split; [by rewrite Hp, <- app_assoc|].
        split; [|exact Hres]. constructor; [|done].
        by exists t, r, source.
    + rewrite can_replace_skips.
      2:{ intros Hlt. by apply key_ge_shortlex in Hlt. }
      apply IH.
Qed.

Lemma normalize_target_probes (replacements : list bytes) (t : bytes)
    (p : session bytes) :
  exists p' new,
    normalize_target oracle replacements t p = inr p' /\
    probes p' = probes p ++ new /\ Forall renaming new.
Proof.
  unfold normalize_target.
  destruct (search_word t None (current_test_case p)) eqn:Hs; cbn [negb].
  - destruct (find_first_value_probes t (current_test_case p) Hs replacements p)
      as (res & p' & new & -> & Hp & Hnew & _).
    by exists p', new.
  - exists p, []. rewrite app_nil_r. auto.
Qed.

Lemma normalize_targets_probes (replacements : list bytes) :
  forall targets p, exists p' new,
    normalize_targets oracle replacements targets p = inr p' /\
    probes p' = probes p ++ new /\ Forall renaming new.
Proof.
  induction targets as [|t rest IH]; intros p.
  - exists p, []. simpl. rewrite app_nil_r. auto.
  - cbn [normalize_targets].
    destruct (normalize_target_probes replacements t p) as (p1 & new1 & -> & Hp1 & Hn1).
    destruct (IH p1) as (p' & new & Hrun & Hp & Hn).
    exists p', (new1 ++ new). split; [exact Hrun|].
    split; [by rewrite Hp, Hp1, app_assoc|]. by apply Forall_app.
Qed.

End NormalizeIdentifiersProps.

(** The whole pass never raises: in particular the assertion in
    [can_replace] holds on every call the pass makes. *)
Lemma normalize_identifiers_returns (oracle : bytes -> bool) (p : session bytes) :
  exists p', normalize_identifiers oracle p = inr p'.
Proof.
  unfold normalize_identifiers.
  destruct (normalize_targets_probes oracle
    (sorted_shortlex (add_first_unused ascii_uppercase
       (add_first_unused ascii_lowercase
          (list_to_set (finditer_identifier 0 None (current_test_case p))))))
    (reverse (sorted_shortlex
       (list_to_set (finditer_identifier 0 None (current_test_case p))))) p)
    as (p' & new & H & _).
  by exists p'.
Qed.

Section NormalizeIdentifiersRenamings.

Variable oracle : bytes -> bool.
Variables targets pool : list bytes.

Lemma after_probes_app (new1 new2 : list (bytes * bool)) :
  forall cur, after_probes cur (new1 ++ new2)
              = after_probes (after_probes cur new1) new2.
Proof.
  induction new1 as [|[c b] rest IH]; intros cur; [done|]. simpl. apply IH.
Qed.

Lemma renamings_app (new1 new2 : list (bytes * bool)) :
  forall cur,
    renamings oracle targets pool cur new1 ->
    renamings oracle targets pool (after_probes cur new1) new2 ->
    renamings oracle targets pool cur (new1 ++ new2).
Proof.
  induction new1 as [|[c b] rest IH]; intros cur H1 H2; [done|].
  simpl in *. destruct H1 as (Hc & Hb & Hrest). auto.
Qed.

(** One round of [find_first_value]: the candidate stays [source] until
    a probe is accepted, and the round ends there. *)
Lemma find_first_value_renamings (t source : bytes) :
  t ∈ targets -> search_word t None source = true ->
  forall ls p,
    (forall r, r ∈ ls -> r ∈ pool) -> current_test_case p = source ->
    exists res p' new,
      find_first_value ls (can_replace oracle t source) p = inr (res, p') /\
      probes p' = probes p ++ new /\
      renamings oracle targets pool source new /\
      current_test_case p' = after_probes source new.
Proof.
  intros Ht Hs. induction ls as [|r ls IH]; intros p Hls Hcur.
  - exists None, p, []. simpl. by rewrite app_nil_r.
  - cbn [find_first_value].
    assert (Hr : r ∈ pool) by (apply Hls, list_elem_of_here).
    assert (Hls' : forall r', r' ∈ ls -> r' ∈ pool).
    { intros r' H. by apply Hls, list_elem_of_further. }
    destruct (decide (key_ge (shortlex r) (shortlex t) = false)) as [E|E].
    + apply key_ge_shortlex in E as Hlt.
      rewrite (can_replace_probes oracle t source r p Hs Hlt).
      unfold is_interesting.
      assert (Hprobe : exists t' r', t' ∈ targets /\ r' ∈ pool /\ shortlex_lt r' t' /\
                search_word t' None source = true /\
                sub_word t r 0 None source = sub_word t' r' 0 None source)
        by (by exists t, r).
      destruct (oracle (sub_word t r 0 None source)) eqn:Eo.
      * eexists (Some r), _, [(sub_word t r 0 None source, true)].
        split; [reflexivity|]. cbn [probes current_test_case].
        split; [reflexivity|]. split; [|reflexivity].
        simpl. by rewrite Eo.
      * destruct (IH (Session (current_test_case p)
                       (probes p ++ [(sub_word t r 0 None source, false)]))
                     Hls' Hcur)
          as (res & p' & new & Hrun & Hp & Hnew & Hc).
        exists res, p', ((sub_word t r 0 None source, false) :: new).
        split; [exact Hrun|]. cbn [probes current_test_case] in *.
        split; [by rewrite Hp, <- app_assoc|].
        split; [|exact Hc]. simpl. by rewrite Eo.
    + rewrite can_replace_skips.
      2:{ intros Hlt. by apply key_ge_shortlex in Hlt. }
      by apply IH.
Qed.

Lemma normalize_target_renamings (ls : list bytes) (t : bytes) (p : session bytes) :
  t ∈ targets -> (forall r, r ∈ ls -> r ∈ pool) ->
  exists p' new,
    normalize_target oracle ls t p = inr p' /\
    probes p' = probes p ++ new /\
    renamings oracle targets pool (current_test_case p) new /\
    current_test_case p' = after_probes (current_test_case p) new.
Proof.
  intros Ht Hls. unfold normalize_target.
  destruct (search_word t None (current_test_case p)) eqn:Hs; cbn [negb].
  - destruct (find_first_value_renamings t (current_test_case p) Ht Hs ls p Hls eq_refl)
      as (res & p' & new & -> & Hp & Hnew & Hc).
    by exists p', new.
  - exists p, []. simpl. by rewrite app_nil_r.
Qed.

Lemma normalize_targets_renamings (ls : list bytes) :
  (forall r, r ∈ ls -> r ∈ pool) ->
  forall ts p,
    (forall t, t ∈ ts -> t ∈ targets) ->
    exists p' new,
      normalize_targets oracle ls ts p = inr p' /\
      probes p' = probes p ++ new /\
      renamings oracle targets pool (current_test_case p) new /\
      current_test_case p' = after_probes (current_test_case p) new.
Proof.
  intros Hls. induction ts as [|t rest IH]; intros p Hts.
  - exists p, []. simpl. by rewrite app_nil_r.
  - cbn [normalize_targets].
    destruct (normalize_target_renamings ls t p) as (p1 & new1 & -> & Hp1 & Hn1 & Hc1);
      [apply Hts, list_elem_of_here|done|].
    destruct (IH p1) as (p' & new & Hrun & Hp & Hn & Hc).
    { intros t' H. by apply Hts, list_elem_of_further. }
    exists p', (new1 ++ new). split; [exact Hrun|].
    split; [by rewrite Hp, Hp1, app_assoc|].
    rewrite Hc1 in Hn, Hc. split.
    + by apply renamings_app.
    + by rewrite after_probes_app.
Qed.

End NormalizeIdentifiersRenamings.

(** C6: the oracle probes of [normalize_identifiers] are renamings and
    nothing else.  Read from the candidate the pass starts on, every
    probe is [pattern.sub(r, source)] for a target [t] of the pass that
    occurs in the candidate current at that time and a member [r] of the
    pool that is strictly shortlex-smaller than [t]; an accepted probe
    becomes the current candidate, and the candidate the pass leaves is
    the one these probes lead to.  So a token is only ever replaced by a
    strictly shortlex-smaller one.  A candidate [r] that is not strictly
    shortlex-smaller makes [can_replace] answer [False] with the session,
    probes included, untouched; and when [can_replace] answers [True],
    [r] is strictly shortlex-smaller and the renamed source is the
    current candidate. *)
Theorem normalize_identifiers_shortlex (oracle : bytes -> bool)
    (p p' : session bytes) :
  normalize_identifiers oracle p = inr p' ->
  (exists new, probes p' = probes p ++ new /\
     renamings oracle (targets_of (current_test_case p))
       (pool_of (current_test_case p)) (current_test_case p) new /\
     current_test_case p' = after_probes (current_test_case p) new) /\
  (forall t source r q,
     ~ shortlex_lt r t -> can_replace oracle t source r q = inr (false, q)) /\
  (forall t source r q q',
     can_replace oracle t source r q = inr (true, q') ->
     shortlex_lt r t /\ current_test_case q' = sub_word t r 0 None source).
Proof.
  intros Hrun. split; [|split].
  - change (normalize_identifiers oracle p)
      with (normalize_targets oracle (pool_of (current_test_case p))
              (targets_of (current_test_case p)) p) in Hrun.
    destruct (normalize_targets_renamings oracle
                (targets_of (current_test_case p)) (pool_of (current_test_case p))
                (pool_of (current_test_case p)) ltac:(done)
                (targets_of (current_test_case p)) p ltac:(done))
      as (p1 & new & H & Hp & Hn & Hc).
    rewrite H in Hrun. injection Hrun as <-. by exists new.
  - intros t source r q. apply can_replace_skips.
  - intros t source r q q' H. unfold can_replace in H.
    destruct (key_ge (shortlex r) (shortlex t)) eqn:E; [done|].
    apply key_ge_shortlex in E. split; [exact E|].
    destruct (bool_decide _); [|done].
    unfold is_interesting in H.
    destruct (oracle (sub_word t r 0 None source)); [|done].
    by injection H as <-.
Qed.

Lemma normalize_identifiers_shortlex_witness :
  let oracle := fun _ : bytes => true in
  let p := new_session (bs "longname1 = longname2") in
  let p' := Session (bs "A = A") [(bs "longname1 = A", true); (bs "A = A", true)] in
  (exists new, probes p' = probes p ++ new /\
     renamings oracle (targets_of (current_test_case p))
       (pool_of (current_test_case p)) (current_test_case p) new /\
     current_test_case p' = after_probes (current_test_case p) new) /\
  (forall t source r q,
     ~ shortlex_lt r t -> can_replace oracle t source r q = inr (false, q)) /\
  (forall t source r q q',
     can_replace oracle t source r q = inr (true, q') ->
     shortlex_lt r t /\ current_test_case q' = sub_word t r 0 None source).
Proof.
  apply (normalize_identifiers_shortlex (fun _ => true)
           (new_session (bs "longname1 = longname2"))).
  vm_compute. reflexivity.
Defined.

(** C10: when [\b t \b] has a match in [source] and [r] is strictly
    shortlex-smaller than [t], then [r <> t], [pattern.sub(r, source)]
    differs from [source], and [can_replace] goes on to the oracle: the
    assertion does not fail. *)
Theorem can_replace_assertion_holds (t r source : bytes) :
  search_word t None source = true ->
  shortlex_lt r t ->
  r <> t /\
  sub_word t r 0 None source <> source /\
  forall oracle p,
    can_replace oracle t source r p
    = inr (is_interesting oracle (sub_word t r 0 None source) p).
Proof.
  intros Hs Hlt. split; [by apply shortlex_lt_neq|].
  split; [by apply sub_word_changes|].
  intros oracle p. by apply can_replace_probes.
Qed.

Lemma can_replace_assertion_holds_witness :
  bs "a" <> bs "longname1" /\
  sub_word (bs "longname1") (bs "a") 0 None (bs "longname1 = longname2")
  <> bs "longname1 = longname2" /\
  forall oracle p,
    can_replace oracle (bs "longname1") (bs "longname1 = longname2") (bs "a") p
    = inr (is_interesting oracle
             (sub_word (bs "longname1") (bs "a") 0 None (bs "longname1 = longname2")) p).
Proof.
  apply (can_replace_assertion_holds (bs "longname1") (bs "a")
           (bs "longname1 = longname2")).
  - reflexivity.
  - left. simpl. lia.
Defined.

(** *** The tokens and the pool are plain words

    The model of [\b t \b] and of [pattern.sub(r, source)] reads [t] and
    [r] literally.  That is what the [re] module does with them here: the
    targets and the pool of [normalize_identifiers] hold non-empty runs of
    word characters only, so [t] has no pattern operator and [r] no
    backslash. *)

Lemma normalize_identifiers_unfold (oracle : bytes -> bool) (p : session bytes) :
  normalize_identifiers oracle p
  = normalize_targets oracle (pool_of (current_test_case p))
      (targets_of (current_test_case p)) p.
Proof. reflexivity. Qed.

Lemma take_while_forallb (f g : byte -> bool) (s : bytes) :
  (forall c, f c = true -> g c = true) ->
  forallb g (take_while f s) = true.
Proof.
  intros Hfg. induction s as [|c r IH]; [done|]. simpl.
  destruct (f c) eqn:E; [|done]. simpl. by rewrite (Hfg c E), IH.
Qed.

Lemma is_digit_is_word (c : byte) : is_digit c = true -> is_word c = true.
Proof. unfold is_word. intros ->. by rewrite orb_true_r. Qed.

Lemma is_alpha_is_word (c : byte) : is_alpha c = true -> is_word c = true.
Proof. unfold is_word. by intros ->. Qed.

Lemma finditer_identifier_plain (s : bytes) :
  forall skip prev tok,
    tok ∈ finditer_identifier skip prev s -> plain_word tok.
Proof.
  induction s as [|c r IH]; intros skip prev tok H.
  - simpl in H. by apply elem_of_nil in H.
  - cbn [finditer_identifier] in H. destruct skip as [|k]; [|by eapply IH].
    destruct (word_boundary prev (Some c) && is_alpha c) eqn:E1.
    + apply andb_true_iff in E1 as [_ Ea].
      apply elem_of_cons in H as [->|H]; [|by eapply IH].
      split.
      * simpl. by rewrite (is_alpha_is_word c Ea).
      * by apply take_while_forallb.
    + destruct (is_digit c) eqn:E2; [|by eapply IH].
      apply elem_of_cons in H as [->|H]; [|by eapply IH].
      split.
      * simpl. by rewrite E2.
      * apply take_while_forallb. exact is_digit_is_word.
Qed.

Lemma add_first_unused_plain (letters : bytes) (pool : gset bytes) :
  forallb is_word letters = true ->
  (forall x, x ∈ pool -> plain_word x) ->
  forall x, x ∈ add_first_unused letters pool -> plain_word x.
Proof.
  revert pool. induction letters as [|cc rest IH]; intros pool Hl Hp x Hx; [by apply Hp|].
  simpl in Hl. apply andb_true_iff in Hl as [Hc Hrest].
  cbn [add_first_unused] in Hx. destruct (bool_decide ([cc] ∈ pool)).
  - by eapply IH.
  - apply elem_of_union in Hx as [Hx|Hx]; [by apply Hp|].
    apply elem_of_singleton in Hx as ->. split; [done|]. simpl. by rewrite Hc.
Qed.

Lemma sorted_shortlex_elem (xs : gset bytes) (x : bytes) :
  x ∈ sorted_shortlex xs <-> x ∈ xs.
Proof.
  unfold sorted_shortlex. rewrite merge_sort_Permutation. apply elem_of_elements.
Qed.

(** Every target [t] and every pool member [r] of the pass is a
    non-empty run of word characters. *)
Lemma normalize_identifiers_plain (tc : bytes) :
  (forall t, t ∈ targets_of tc -> plain_word t) /\
  (forall r, r ∈ pool_of tc -> plain_word r).
Proof.
  assert (Hid : forall x : bytes,
    x ∈ (list_to_set (finditer_identifier 0 None tc) : gset bytes) -> plain_word x).
  { intros x Hx. apply elem_of_list_to_set in Hx.
    by eapply finditer_identifier_plain. }
  split.
  - intros t Ht. unfold targets_of in Ht.
    apply elem_of_reverse, sorted_shortlex_elem in Ht. by apply Hid.
  - intros r Hr. unfold pool_of in Hr. apply sorted_shortlex_elem in Hr.
    apply (add_first_unused_plain ascii_uppercase) in Hr; [exact Hr|reflexivity|].
    intros x Hx.
    apply (add_first_unused_plain ascii_lowercase) in Hx; [exact Hx|reflexivity|].
    exact Hid.
Qed.

(** * Further properties *)

(** ** Substring *)

(** X1: [parse] undoes [dumps]: whatever the prefix, the suffix and the
    inner value, the wrapped value parses back to the inner value. *)
Theorem Substring_parse_dumps (self : Substring.t) (y : bytes) :
  Substring.parse self (Substring.dumps self y) = Some y.
Proof.
  destruct self as [p s]. unfold Substring.parse, Substring.dumps. cbn [Substring.prefix Substring.suffix].
  assert (Hp : startswith (p ++ y ++ s) p = true) by (apply startswith_spec; eauto).
  assert (Hs : endswith (p ++ y ++ s) s = true).
  { apply endswith_spec. exists (p ++ y). by rewrite <- app_assoc. }
  rewrite Hp, Hs. cbn [andb]. f_equal. unfold slice.
  rewrite drop_app_length, !length_app.
  replace (length p + (length y + length s) - length s - length p)%nat
    with (length y) by lia.
  by rewrite take_app_length.
Qed.

(** X2: [dumps (parse x) = x] holds exactly for the inputs that start
    with the prefix, end with the suffix and are long enough to hold
    both side by side. *)
Theorem Substring_roundtrip_iff (self : Substring.t) (x : bytes) :
  (exists y, Substring.parse self x = Some y /\ Substring.dumps self y = x)
  <->
  (startswith x (Substring.prefix self) = true /\
   endswith x (Substring.suffix self) = true /\
   (length (Substring.prefix self) + length (Substring.suffix self) <= length x)%nat).
Proof.
  split.
  - intros (y & Hp & Hd). unfold Substring.parse in Hp.
    destruct (startswith x (Substring.prefix self)) eqn:E1; [|done].
    destruct (endswith x (Substring.suffix self)) eqn:E2; [|done].
    split; [done|]. split; [done|].
    rewrite <- Hd. unfold Substring.dumps. rewrite !length_app. lia.
  - intros (H1 & H2 & H3). by apply Substring_roundtrip_disjoint.
Qed.

(** ** IntegerFormat *)

(** *** What [int] accepts is within the limit *)

Lemma int_digits_bound_aux (k : nat) :
  forall r, (length r <= k)%nat ->
    forall acc v, int_digits acc r = Some v -> 0 <= acc ->
      0 <= v < (acc + 1) * 10 ^ count_digits r.
Proof.
  induction k as [|k IH]; intros r Hlen acc v H Hacc.
  - destruct r; [|simpl in Hlen; lia]. injection H as <-. simpl. lia.
  - destruct r as [|c r]; [injection H as <-; simpl; lia|].
    simpl in Hlen. cbn [int_digits] in H.
    pose proof (count_digits_nonneg r) as Hr. cbn [count_digits].
    destruct (is_digit c) eqn:Ec.
    + pose proof (digit_value_range c Ec) as Hd.
      apply IH in H; [|lia|lia].
      rewrite Z.pow_add_r, Z.pow_1_r by lia. nia.
    + destruct (bool_decide (c = "_"%byte)); [|done].
      destruct r as [|c2 r2]; [done|].
      destruct (is_digit c2) eqn:Ec2; [|done].
      pose proof (digit_value_range c2 Ec2) as Hd.
      pose proof (count_digits_nonneg r2) as Hr2.
      apply IH in H; [|simpl in Hlen; lia|lia].
      cbn [count_digits]. rewrite Ec2, Z.add_0_l.
      rewrite Z.pow_add_r, Z.pow_1_r by lia. nia.
Qed.

Lemma int_digits_bound (r : bytes) (acc v : Z) :
  int_digits acc r = Some v -> 0 <= acc ->
  0 <= v < (acc + 1) * 10 ^ count_digits r.
Proof. by apply (int_digits_bound_aux (length r)). Qed.

Lemma int_literal_bound (s : bytes) (v : Z) :
  int_literal s = Some v -> 0 <= v < 10 ^ count_digits s.
Proof.
  destruct s as [|c r]; [done|]. cbn [int_literal count_digits].
  destruct (is_digit c) eqn:Ec; [|done]. intros H.
  pose proof (digit_value_range c Ec) as Hd.
  pose proof (count_digits_nonneg r) as Hr.
  apply int_digits_bound in H; [|lia].
  rewrite Z.pow_add_r, Z.pow_1_r by lia. nia.
Qed.

(** A number that [parse] returns has at most [max_str_digits] digits. *)
Lemma IntegerFormat_parse_bound (x : bytes) (n : Z) :
  IntegerFormat.parse x = Some n -> Z.abs n < 10 ^ max_str_digits.
Proof.
  unfold IntegerFormat.parse. destruct (decode_ascii x) as [text|]; [|done].
  unfold py_int. destruct (rstrip (lstrip text)) as [|c r]; [done|]. cbv zeta.
  destruct (Z.ltb_spec max_str_digits (count_digits (c :: r))) as [|Hc]; [done|].
  assert (Hpow : forall k, 0 <= k <= count_digits (c :: r) ->
            10 ^ k <= 10 ^ max_str_digits).
  { intros k Hk. apply Z.pow_le_mono_r; lia. }
  pose proof (count_digits_nonneg r) as Hr.
  destruct (bool_decide_reflect (c = "-"%byte)) as [->|Hm].
  - destruct (int_literal r) as [v|] eqn:E; [|done]. intros [= <-].
    apply int_literal_bound in E.
    specialize (Hpow (count_digits r)). cbn [count_digits] in Hpow.
    change (is_digit "-"%byte) with false in Hpow. lia.
  - destruct (bool_decide_reflect (c = "+"%byte)) as [->|Hp].
    + intros E. apply int_literal_bound in E.
      specialize (Hpow (count_digits r)). cbn [count_digits] in Hpow.
      change (is_digit "+"%byte) with false in Hpow. lia.
    + intros E. apply int_literal_bound in E.
      specialize (Hpow (count_digits (c :: r))).
      pose proof (count_digits_nonneg (c :: r)). lia.
Qed.

(** X3: [dumps] returns a text exactly for the numbers of at most
    [max_str_digits] (4300) digits and raises [ValueError] for the
    others; where it returns, [parse] gives the number back, negative
    ones included, so [dumps] is injective there; and every number that
    [parse] returns is one that [dumps] can write. *)
Theorem IntegerFormat_dumps_faithful (n m : Z) :
  (Z.abs n < 10 ^ max_str_digits ->
   exists text, IntegerFormat.dumps n = inr text /\
                IntegerFormat.parse text = Some n) /\
  (10 ^ max_str_digits <= Z.abs n -> IntegerFormat.dumps n = inl ValueError) /\
  (forall text, IntegerFormat.dumps n = inr text ->
                IntegerFormat.dumps m = inr text -> n = m) /\
  (forall x, IntegerFormat.parse x = Some n ->
     exists text, IntegerFormat.dumps n = inr text /\
                  IntegerFormat.parse text = IntegerFormat.parse x).
Proof.
  assert (Hsmall : forall k, Z.abs k < 10 ^ max_str_digits ->
            exists text, IntegerFormat.dumps k = inr text /\
                         IntegerFormat.parse text = Some k).
  { intros k Hk. unfold IntegerFormat.dumps.
    destruct (py_str_int k) as [text|] eqn:E.
    - exists text. split; [done|]. apply IntegerFormat_parse_dumps.
      unfold IntegerFormat.dumps. by rewrite E.
    - apply py_str_int_None in E. lia. }
  split; [apply Hsmall|]. split; [|split].
  - intros Hn. apply py_str_int_None in Hn. unfold IntegerFormat.dumps. by rewrite Hn.
  - intros text Hn Hm. apply IntegerFormat_parse_dumps in Hn, Hm. congruence.
  - intros x Hx. apply IntegerFormat_parse_bound in Hx as Hb.
    destruct (Hsmall n Hb) as (text & Hd & Hp). exists text. by rewrite Hx.
Qed.

Lemma lstrip_suffix (s : bytes) : exists pre, s = pre ++ lstrip s.
Proof.
  induction s as [|c r [pre IH]]; [by exists []|].
  simpl. destruct (is_space c).
  - exists (c :: pre). simpl. by rewrite <- IH.
  - by exists [].
Qed.

Lemma rstrip_prefix (s : bytes) : exists post, s = rstrip s ++ post.
Proof.
  unfold rstrip. destruct (lstrip_suffix (reverse s)) as [pre E].
  exists (reverse pre).
  rewrite <- (reverse_involutive s), E at 1. by rewrite reverse_app.
Qed.

Lemma int_literal_head (s : bytes) (n : Z) :
  int_literal s = Some n -> exists c r, s = c :: r /\ is_digit c = true.
Proof.
  destruct s as [|c r]; [done|]. simpl.
  destruct (is_digit c) eqn:E; [|done]. eauto.
Qed.

(** X4: an input that [parse] accepts is ASCII and holds at least one
    decimal digit; so the empty input, blank input and a lone sign raise
    [ParseError]. *)
Theorem IntegerFormat_parse_needs_digit (x : bytes) (n : Z) :
  IntegerFormat.parse x = Some n ->
  forallb (fun c => byte_val c <? 128) x = true /\
  exists c, c ∈ x /\ is_digit c = true.
Proof.
  unfold IntegerFormat.parse, decode_ascii.
  destruct (forallb _ x) eqn:Ea; [|done]. intros H. split; [done|].
  unfold py_int in H.
  destruct (lstrip_suffix x) as [pre E1].
  destruct (rstrip_prefix (lstrip x)) as [post E2].
  assert (Hin : forall c, c ∈ rstrip (lstrip x) -> c ∈ x).
  { intros c Hc. rewrite E1, E2. rewrite !elem_of_app. auto. }
  destruct (rstrip (lstrip x)) as [|c r]; [done|]. cbv zeta in H.
  destruct (max_str_digits <? count_digits (c :: r)); [done|].
  assert (Hd : exists l, (l = r \/ l = c :: r) /\ exists n', int_literal l = Some n').
  { destruct (bool_decide (c = "-"%byte)).
    - exists r. split; [by left|]. destruct (int_literal r); [eauto|done].
    - destruct (bool_decide (c = "+"%byte)); [exists r|exists (c :: r)]; eauto. }
  destruct Hd as (l & Hl & n' & Hn').
  apply int_literal_head in Hn' as (d & r' & -> & Hdig).
  exists d. split; [|done]. apply Hin.
  destruct Hl as [<-|[= <- <-]].
  - apply list_elem_of_further, list_elem_of_here.
  - apply list_elem_of_here.
Qed.

Lemma IntegerFormat_parse_needs_digit_witness :
  forallb (fun c => byte_val c <? 128) (bs " +12_3 ") = true /\
  exists c, c ∈ bs " +12_3 " /\ is_digit c = true.
Proof.
  apply (IntegerFormat_parse_needs_digit (bs " +12_3 ") 123). reflexivity.
Defined.

(** ** replace *)

(** X5: a proposal [s] for region [i] changes the length of the
    reconstructed candidate by exactly the difference between [s] and
    what slot [i] holds; nothing else moves. *)
Theorem replace_length (initial : bytes) (regions : list (nat * nat))
    (slots : list bytes) (i : nat) (s : bytes) :
  (i < length regions)%nat ->
  (length (replace initial regions slots i s) + length (slots !!! i)
   = length (replace initial regions slots i (slots !!! i)) + length s)%nat.
Proof.
  intros Hi.
  destruct (replace_parts_split initial slots i regions 0 0) as (pre & post & H);
    [lia|].
  assert (Hs : forall s', replace initial regions slots i s' = pre ++ s' ++ post).
  { intros s'. rewrite <- (insert_own_value slots i) at 1. apply H. }
  rewrite !Hs, !length_app. lia.
Qed.

Lemma replace_length_witness :
  (length (replace (bs "12 + 34") [(0, 2); (5, 7)]%nat [bs "12"; bs "34"] 1 (bs "5"))
   + length ([bs "12"; bs "34"] !!! 1%nat)
   = length (replace (bs "12 + 34") [(0, 2); (5, 7)]%nat [bs "12"; bs "34"] 1
               ([bs "12"; bs "34"] !!! 1%nat))
     + length (bs "5"))%nat.
Proof.
  apply (replace_length (bs "12 + 34") [(0, 2); (5, 7)]%nat [bs "12"; bs "34"] 1 (bs "5")).
  simpl. lia.
Defined.

(** X6: proposals for different regions are independent: writing [x]
    into slot [j] and proposing [s] for region [i] gives the candidate
    that writing [s] into slot [i] and proposing [x] for region [j] gives. *)
Theorem replace_commute (initial : bytes) (regions : list (nat * nat))
    (slots : list bytes) (i j : nat) (s x : bytes) :
  i <> j -> (i < length slots)%nat -> (j < length slots)%nat ->
  replace initial regions (<[j:=x]> slots) i s
  = replace initial regions (<[i:=s]> slots) j x.
Proof.
  intros Hne Hi Hj.
  rewrite <- (replace_after_commit initial regions (<[j:=x]> slots) i 0 s)
    by (by rewrite length_insert).
  rewrite <- (replace_after_commit initial regions (<[i:=s]> slots) j 0 x)
    by (by rewrite length_insert).
  by rewrite list_insert_insert_ne.
Qed.

Lemma replace_commute_witness :
  replace (bs "12 + 34") [(0, 2); (5, 7)]%nat (<[1%nat:=bs "5"]> [bs "12"; bs "34"]) 0 (bs "7")
  = replace (bs "12 + 34") [(0, 2); (5, 7)]%nat (<[0%nat:=bs "7"]> [bs "12"; bs "34"]) 1 (bs "5").
Proof.
  apply (replace_commute (bs "12 + 34") [(0, 2); (5, 7)]%nat [bs "12"; bs "34"] 0 1);
    simpl; lia.
Defined.

(** ** The merge counter *)

Lemma merging_tasks_nonneg (ts : list task) : 0 <= merging_tasks ts.
Proof. induction ts as [|t ts IH]; simpl; [lia|]. destruct (task_merging t); lia. Qed.

Lemma merging_tasks_insert (ts : list task) (i : nat) (t t' : task) :
  ts !! i = Some t ->
  merging_tasks (<[i:=t']> ts)
  = merging_tasks ts - (if task_merging t then 1 else 0)
    + (if task_merging t' then 1 else 0).
Proof.
  revert i. induction ts as [|t0 ts IH]; intros i H; [done|].
  destruct i as [|i]; simpl in *.
  - injection H as ->. lia.
  - rewrite (IH i H). lia.
Qed.

Lemma merging_tasks_lookup (ts : list task) (i : nat) (t : task) :
  ts !! i = Some t -> task_merging t = true -> 1 <= merging_tasks ts.
Proof.
  revert i. induction ts as [|t0 ts IH]; intros i H Hm; [done|].
  pose proof (merging_tasks_nonneg ts).
  destruct i as [|i]; simpl in *.
  - injection H as ->. rewrite Hm. lia.
  - specialize (IH i H Hm). destruct (task_merging t0); lia.
Qed.

Lemma settle_tasks (i : nat) (e : engine) (o : outcome) :
  tasks (settle i e o) = <[i := outcome_task o]> (tasks e) /\
  current_merge_attempts (settle i e o) = current_merge_attempts e.
Proof. by destruct o. Qed.

Section MergeCounter.

Variable oracle : bytes -> bool.
Variable initial : bytes.
Variable regions : list (nat * nat).

Lemma loop_top_merging (i : nat) (f : frame) (e : engine) :
  exists t, loop_top initial regions i f e = Suspend t /\
    task_merging t = is_merging f /\
    (forall f', t = AtSleep f' -> is_merging f' = false).
Proof.
  unfold loop_top. destruct (is_merging f) eqn:Em; cbn [negb andb].
  - eexists. split; [reflexivity|]. split; [done|]. intros f' [=].
  - destruct (0 <? current_merge_attempts e).
    + eexists. split; [reflexivity|]. split; [done|]. by intros f' [= <-].
    + eexists. split; [reflexivity|]. split; [done|]. intros f' [=].
Qed.

(** The bookkeeping of one oracle answer: the counter moves with the
    merging state of the task, and an exception can only be the cap. *)
Lemma after_oracle_counter (i : nat) (f : frame) (a : bytes) (e e1 : engine)
    (o : outcome) :
  (is_merging f = true -> 1 <= current_merge_attempts e) ->
  after_oracle oracle initial regions i f a e = (e1, o) ->
  current_merge_attempts e1
  = current_merge_attempts e - (if is_merging f then 1 else 0)
    + (if task_merging (outcome_task o) then 1 else 0) /\
  (forall f', o = Suspend (AtSleep f') -> is_merging f' = false) /\
  (forall x, o = Raise x ->
     x = AssertionError /\ 100 <= retries f /\ oracle a = true /\
     replace initial regions (replacements e) i (fr_s f) <> a).
Proof.
  intros Hc. unfold after_oracle, is_interesting, finally, loop_top.
  destruct (oracle a) eqn:Eo; cbn [negb];
    [destruct (bool_decide _) eqn:Er;
       [|apply bool_decide_eq_false in Er; cbn [replacements] in Er]|];
    destruct (is_merging f) eqn:Em;
    cbn [negb andb fr_s is_merging retries current_merge_attempts replacements];
    rewrite ?Em; cbn [negb andb];
    try specialize (Hc eq_refl);
    try replace (0 <=? current_merge_attempts e - 1) with true by lia;
    try destruct (retries f + 1 <=? 100) eqn:Ec;
    try destruct (0 <=? current_merge_attempts e + 1 - 1) eqn:Ey;
    try destruct (0 <? current_merge_attempts e + 1) eqn:Ez;
    intros [= <- <-]; cbn [current_merge_attempts outcome_task task_merging is_merging];
    (split; [lia|]); (split; [intros ? [=]|]); intros x [=]; subst;
    repeat split; try done; lia.
Qed.

Lemma step_counter_ok (e e' : engine) (ev : event) :
  counter_ok e -> step oracle initial regions e ev = Some e' -> counter_ok e'.
Proof.
  intros [Hc Hs]. unfold step. destruct (raised e); [done|].
  assert (Hins : forall i t t' e0,
    tasks e !! i = Some t ->
    tasks e0 = <[i:=t']> (tasks e) ->
    current_merge_attempts e0
    = current_merge_attempts e - (if task_merging t then 1 else 0)
      + (if task_merging t' then 1 else 0) ->
    (forall f', t' = AtSleep f' -> is_merging f' = false) ->
    counter_ok e0).
  { intros i t t' e0 Hi Ht Hcm Hsl. split.
    - rewrite Hcm, Ht, (merging_tasks_insert _ _ _ _ Hi), Hc. lia.
    - intros j f Hj. rewrite Ht in Hj.
      destruct (decide (i = j)) as [<-|Hne].
      + rewrite list_lookup_insert_eq in Hj by (by eapply lookup_lt_Some).
        injection Hj as ->. by apply Hsl.
      + rewrite list_lookup_insert_ne in Hj by done. by eapply Hs. }
  destruct ev as [i s|i|i].
  - destruct (tasks e !! i) as [[|f|f a]|] eqn:Ei; try done. intros [= <-].
    destruct (loop_top_merging i (Frame s false 0) e) as (t & Ht & Hm & Hsl).
    rewrite Ht. eapply (Hins i InSubPass t); [done|done| |done].
    cbn. rewrite Hm. cbn. lia.
  - destruct (tasks e !! i) as [[|f|f a]|] eqn:Ei; try done. intros [= <-].
    destruct (loop_top_merging i f e) as (t & Ht & Hm & Hsl).
    rewrite Ht. eapply (Hins i (AtSleep f) t); [done|done| |done].
    cbn. rewrite Hm, (Hs i f Ei). lia.
  - destruct (tasks e !! i) as [[|f|f a]|] eqn:Ei; try done.
    destruct (after_oracle oracle initial regions i f a e) as [e1 o] eqn:Ea.
    intros [= <-].
    pose proof Ea as Ea'. apply after_oracle_cases in Ea' as (Ht1 & _).
    apply after_oracle_counter in Ea as (Hcm & Hsl & _).
    2:{ intros Hm. rewrite Hc. by eapply merging_tasks_lookup. }
    destruct (settle_tasks i e1 o) as [Hst Hsc].
    eapply (Hins i (AtOracle f a) (outcome_task o)); [done| | |].
    + by rewrite Hst, Ht1.
    + rewrite Hsc, Hcm. done.
    + intros f' Hf'. apply Hsl. destruct o; try done. cbn in Hf'. by subst.
Qed.

Lemma run_counter_ok (evs : list event) :
  forall e e', counter_ok e -> run oracle initial regions e evs = Some e' -> counter_ok e'.
Proof.
  induction evs as [|ev evs IH]; intros e e' Hc Hrun.
  - by injection Hrun as <-.
  - simpl in Hrun. destruct (step oracle initial regions e ev) as [e1|] eqn:Es; [|done].
    eapply IH; [|exact Hrun]. by eapply step_counter_ok.
Qed.

Lemma pass_start_counter_ok : counter_ok (pass_start initial regions).
Proof.
  unfold counter_ok, pass_start. cbn. split.
  - induction (length regions) as [|n IH]; [done|]. simpl. lia.
  - intros i f H. apply lookup_replicate in H as [H _]. discriminate.
Qed.

End MergeCounter.

(** X7: in every state of a pass the merge counter is the number of
    tasks in their merging state, so it is never negative and the
    assertion of the [finally] block never fails; the only exception
    that an oracle answer can lead to is the failed retry cap, after 100
    retries, on a detected conflict. *)
Theorem merge_counter_invariant (oracle : bytes -> bool) (initial : bytes)
    (regions : list (nat * nat)) (e : engine) :
  reachable oracle initial regions e ->
  current_merge_attempts e = merging_tasks (tasks e) /\
  0 <= current_merge_attempts e /\
  forall i f a e1 o x,
    tasks e !! i = Some (AtOracle f a) ->
    after_oracle oracle initial regions i f a e = (e1, o) ->
    o = Raise x ->
    x = AssertionError /\ retries f = 100 /\ oracle a = true /\
    replace initial regions (replacements e) i (fr_s f) <> a.
Proof.
  intros Hr. pose proof Hr as [evs Hrun].
  pose proof (run_counter_ok oracle initial regions evs _ _
                (pass_start_counter_ok initial regions) Hrun) as [Hc Hs].
  split; [exact Hc|]. split; [rewrite Hc; apply merging_tasks_nonneg|].
  intros i f a e1 o x Hi Ha Ho.
  apply after_oracle_counter in Ha as (_ & _ & Hraise).
  2:{ intros Hm. rewrite Hc. by eapply merging_tasks_lookup. }
  destruct (Hraise x Ho) as (Hx & Hret & Horc & Hne).
  destruct (reachable_wf oracle initial regions e Hr) as (_ & _ & Hok).
  pose proof (Forall_lookup_1 _ _ _ _ Hok Hi) as Hf. simpl in Hf.
  repeat split; try done. lia.
Qed.

Lemma merge_counter_invariant_witness :
  current_merge_attempts storm_state = merging_tasks (tasks storm_state) /\
  0 <= current_merge_attempts storm_state /\
  forall i f a e1 o x,
    tasks storm_state !! i = Some (AtOracle f a) ->
    after_oracle (fun _ => true) storm_initial storm_regions i f a storm_state = (e1, o) ->
    o = Raise x ->
    x = AssertionError /\ retries f = 100 /\ (fun _ : bytes => true) a = true /\
    replace storm_initial storm_regions (replacements storm_state) i (fr_s f) <> a.
Proof.
  apply (merge_counter_invariant (fun _ => true) storm_initial storm_regions storm_state).
  exists storm. vm_compute. reflexivity.
Defined.

(** ** What the slots and the session hold *)

Section EngineInvariants.

Variable oracle : bytes -> bool.
Variable initial : bytes.
Variable regions : list (nat * nat).

(** Induction over the runs of a pass. *)
Lemma reachable_ind (P : engine -> Prop) :
  P (pass_start initial regions) ->
  (forall e e' ev, engine_wf regions e -> P e ->
     step oracle initial regions e ev = Some e' -> P e') ->
  forall e, reachable oracle initial regions e -> P e.
Proof.
  intros H0 Hstep e [evs Hrun].
  assert (Hgen : forall evs e0 e1, engine_wf regions e0 -> P e0 ->
            run oracle initial regions e0 evs = Some e1 -> P e1).
  { clear evs Hrun. induction evs as [|ev evs IH]; intros e0 e1 Hwf Hp Hr.
    - by injection Hr as <-.
    - simpl in Hr. destruct (step oracle initial regions e0 ev) as [e2|] eqn:Es; [|done].
      eapply (IH e2); [by eapply step_wf| |exact Hr]. by eapply Hstep. }
  eapply Hgen; [apply pass_start_wf|exact H0|exact Hrun].
Qed.

Lemma step_vetted (e e' : engine) (ev : event) :
  engine_wf regions e ->
  step oracle initial regions e ev = Some e' ->
  vetted oracle initial (current_test_case (problem e)) ->
  (forall i, (i < length regions)%nat ->
     vetted oracle initial (replace initial regions (replacements e) i (replacements e !!! i))) ->
  vetted oracle initial (current_test_case (problem e')) /\
  (forall i, (i < length regions)%nat ->
     vetted oracle initial (replace initial regions (replacements e') i (replacements e' !!! i))).
Proof.
  intros (Hr & Ht & _) Hstep Hc Hs. unfold step in Hstep.
  destruct (raised e); [done|]. destruct ev as [i s|i|i].
  - destruct (tasks e !! i) as [[|f|f a]|]; try done. injection Hstep as <-.
    destruct (settle_fields i e (loop_top initial regions i (Frame s false 0) e))
      as [-> ->]. done.
  - destruct (tasks e !! i) as [[|f|f a]|]; try done. injection Hstep as <-.
    destruct (settle_fields i e (loop_top initial regions i f e)) as [-> ->]. done.
  - destruct (tasks e !! i) as [[|f|f a]|] eqn:Ei; try done.
    destruct (after_oracle oracle initial regions i f a e) as [e1 o] eqn:Ea.
    injection Hstep as <-.
    apply after_oracle_cases in Ea as (_ & _ & Hp & Hcase).
    destruct (settle_fields i e1 o) as [-> ->]. rewrite Hp.
    unfold is_interesting. cbn [snd current_test_case].
    destruct Hcase as [(Ho & -> & _)|[(Ho & Hrep & -> & _)|(Ho & _ & -> & _)]];
      rewrite Ho.
    + done.
    + split; [by right|]. intros i' Hi'.
      rewrite replace_after_commit by (apply lookup_lt_Some in Ei; lia).
      rewrite Hrep. by right.
    + split; [by right|done].
Qed.

End EngineInvariants.

(** X8: in every state of a pass, the candidate that the slots
    reconstruct is the pass-start candidate or one that the oracle
    accepted, and so is the session's current candidate: a race can make
    the two differ, but neither ever holds a candidate that was refused
    or never probed. *)
Theorem slots_hold_accepted_candidate (oracle : bytes -> bool) (initial : bytes)
    (regions : list (nat * nat)) (e : engine) :
  regions_from (length initial) 0 regions ->
  reachable oracle initial regions e ->
  (current_test_case (problem e) = initial \/
   oracle (current_test_case (problem e)) = true) /\
  forall i, (i < length regions)%nat ->
    replace initial regions (replacements e) i (replacements e !!! i) = initial \/
    oracle (replace initial regions (replacements e) i (replacements e !!! i)) = true.
Proof.
  intros Hreg Hr. revert e Hr.
  apply (reachable_ind oracle initial regions
    (fun e => vetted oracle initial (current_test_case (problem e)) /\
       forall i, (i < length regions)%nat ->
         vetted oracle initial
           (replace initial regions (replacements e) i (replacements e !!! i)))).
  - split; [by left|]. intros i Hi. left.
    unfold pass_start. cbn [replacements]. unfold replace.
    rewrite replace_parts_initial; [done|done|].
    intros k u v Hk. by apply initial_replacements_lookup.
  - intros e e' ev Hwf [Hc Hs] Hstep. by eapply step_vetted.
Qed.

Lemma slots_hold_accepted_candidate_witness :
  let e := Engine [bs "0"; bs "22"] 0
             (Session (bs "1 0") [(bs "0 22", true); (bs "1 0", true); (bs "0 0", false)])
             [InSubPass; InSubPass] None in
  (current_test_case (problem e) = bs "1 22" \/
   all_but_00 (current_test_case (problem e)) = true) /\
  forall i, (i < length [(0, 1); (2, 4)]%nat)%nat ->
    replace (bs "1 22") [(0, 1); (2, 4)]%nat (replacements e) i (replacements e !!! i)
    = bs "1 22" \/
    all_but_00 (replace (bs "1 22") [(0, 1); (2, 4)]%nat (replacements e) i
                  (replacements e !!! i)) = true.
Proof.
  apply (slots_hold_accepted_candidate all_but_00 (bs "1 22") [(0, 1); (2, 4)]%nat
           (Engine [bs "0"; bs "22"] 0
             (Session (bs "1 0") [(bs "0 22", true); (bs "1 0", true); (bs "0 0", false)])
             [InSubPass; InSubPass] None)).
  - simpl. lia.
  - exists (race ++ [Answer 1]). vm_compute. reflexivity.
Defined.

(** ** A pass over a single region *)

Lemma replace_single_region (initial : bytes) (regions : list (nat * nat))
    (slots slots' : list bytes) (s : bytes) :
  length regions = 1%nat ->
  replace initial regions slots 0 s = replace initial regions slots' 0 s.
Proof. destruct regions as [|[u v] [|]]; done. Qed.

Section SingleRegion.

Variable oracle : bytes -> bool.
Variable initial : bytes.
Variable regions : list (nat * nat).
Hypothesis Hone : length regions = 1%nat.

Lemma calm_step (e e' : engine) (ev : event) :
  engine_wf regions e -> calm initial regions e ->
  step oracle initial regions e ev = Some e' -> calm initial regions e'.
Proof.
  intros Hwf (Hcons & Hraised & Hcma & Htasks) Hstep.
  pose proof Hwf as (Hlr & Hlt & _).
  assert (Hquiet : ~ conflict oracle initial regions e ev).
  { intros (i & f & a & -> & Hi & _ & Hne).
    destruct (Htasks i _ Hi) as (_ & _ & Ha). by apply Hne. }
  split; [by eapply quiet_consistent|].
  unfold step in Hstep. rewrite Hraised in Hstep.
  assert (Hins : forall i t (e0 : engine),
    (i < length (tasks e))%nat ->
    first_attempt initial regions i t ->
    forall j t', <[i:=t]> (tasks e) !! j = Some t' ->
                 first_attempt initial regions j t').
  { intros i t e0 Hi Ht j t' Hj. destruct (decide (i = j)) as [<-|Hne].
    - rewrite list_lookup_insert_eq in Hj by done. by injection Hj as <-.
    - rewrite list_lookup_insert_ne in Hj by done. by eapply Htasks. }
  destruct ev as [i s|i|i].
  - destruct (tasks e !! i) as [[|f|f a]|] eqn:Ei; try done. injection Hstep as <-.
    assert (Hi0 : i = 0%nat) by (apply lookup_lt_Some in Ei; lia). subst i.
    unfold loop_top. cbn [is_merging negb andb]. rewrite Hcma. cbn.
    split; [done|]. split; [done|].
    apply (Hins 0%nat _ e); [by eapply lookup_lt_Some|].
    cbn. split; [done|]. split; [done|].
    intros slots. by apply replace_single_region.
  - destruct (tasks e !! i) as [[|f|f a]|] eqn:Ei; try done.
    by destruct (Htasks i _ Ei).
  - destruct (tasks e !! i) as [[|f|f a]|] eqn:Ei; try done.
    destruct (Htasks i _ Ei) as (Hret & Hmerge & Ha).
    destruct (after_oracle oracle initial regions i f a e) as [e1 o] eqn:Ea.
    injection Hstep as <-.
    pose proof Ea as Ea'. apply after_oracle_cases in Ea' as (Ht1 & Hr1 & _ & Hcase).
    apply after_oracle_counter in Ea as (Hcm & _ & Hraise).
    2:{ rewrite Hmerge. done. }
    assert (Ho : exists b, o = Return b).
    { destruct Hcase as [(_ & _ & [->| ->])|[(_ & _ & _ & [->| ->])|(_ & Hne & _)]];
        eauto.
      - destruct (Hraise _ eq_refl) as (_ & _ & _ & Hne). by destruct Hne.
      - destruct (Hraise _ eq_refl) as (_ & _ & _ & Hne). by destruct Hne.
      - by destruct Hne. }
    destruct Ho as [b ->]. cbn [settle raised current_merge_attempts tasks].
    split; [by rewrite Hr1|]. split.
    + rewrite Hcm, Hmerge, Hcma. reflexivity.
    + rewrite Ht1. apply (Hins i InSubPass e); [by eapply lookup_lt_Some|done].
Qed.

End SingleRegion.

(** X9: a pass over a candidate with a single region never meets a
    conflict: in every state the slot and the session agree, the merge
    counter is 0, no task sleeps or has retried, and no exception was
    raised. *)
Theorem single_region_never_conflicts (oracle : bytes -> bool) (initial : bytes)
    (regions : list (nat * nat)) (e : engine) :
  length regions = 1%nat ->
  regions_from (length initial) 0 regions ->
  reachable oracle initial regions e ->
  replace initial regions (replacements e) 0 (replacements e !!! 0%nat)
  = current_test_case (problem e) /\
  raised e = None /\
  current_merge_attempts e = 0 /\
  forall i t, tasks e !! i = Some t ->
    match t with
    | InSubPass => True
    | AtSleep _ => False
    | AtOracle f a =>
        retries f = 0 /\ is_merging f = false /\
        a = replace initial regions (replacements e) i (fr_s f)
    end.
Proof.
  intros Hone Hreg Hr.
  assert (Hcalm : calm initial regions e).
  { revert e Hr. apply (reachable_ind oracle initial regions).
    - split; [|split; [done|split; [done|]]].
      + intros i Hi. unfold pass_start. cbn [replacements problem new_session current_test_case].
        unfold replace. rewrite replace_parts_initial; [done|done|].
        intros k u v Hk. by apply initial_replacements_lookup.
      + intros i t Ht. unfold pass_start in Ht. cbn in Ht.
        apply lookup_replicate in Ht as [-> _]. done.
    - intros e e' ev Hwf Hc Hstep. by eapply calm_step. }
  destruct Hcalm as (Hcons & Hraised & Hcma & Htasks).
  split; [apply Hcons; lia|]. split; [done|]. split; [done|].
  intros i t Ht. specialize (Htasks i t Ht).
  destruct t as [|f|f a]; try done.
  destruct Htasks as (H1 & H2 & H3). auto.
Qed.

Lemma single_region_never_conflicts_witness :
  let e := Engine [bs "0"] 0 (Session (bs "x = 0") [(bs "x = 0", true)])
                  [AtOracle (Frame (bs "") false 0) (bs "x = ")] None in
  replace (bs "x = 12") [(4, 6)%nat] (replacements e) 0 (replacements e !!! 0%nat)
  = current_test_case (problem e) /\
  raised e = None /\
  current_merge_attempts e = 0 /\
  forall i t, tasks e !! i = Some t ->
    match t with
    | InSubPass => True
    | AtSleep _ => False
    | AtOracle f a =>
        retries f = 0 /\ is_merging f = false /\
        a = replace (bs "x = 12") [(4, 6)%nat] (replacements e) i (fr_s f)
    end.
Proof.
  apply (single_region_never_conflicts (fun _ => true) (bs "x = 12") [(4, 6)%nat]
           (Engine [bs "0"] 0 (Session (bs "x = 0") [(bs "x = 0", true)])
                   [AtOracle (Frame (bs "") false 0) (bs "x = ")] None)).
  - reflexivity.
  - simpl. lia.
  - exists [Propose 0 (bs "0"); Answer 0; Propose 0 (bs "")]. vm_compute. reflexivity.
Defined.

(** ** The retry budget *)

Lemma at_oracle_tasks_insert (ts : list task) (i : nat) (t t' : task) :
  ts !! i = Some t ->
  at_oracle_tasks (<[i:=t']> ts)
  = at_oracle_tasks ts - (if at_oracle t then 1 else 0)
    + (if at_oracle t' then 1 else 0).
Proof.
  revert i. induction ts as [|t0 ts IH]; intros i H; [done|].
  destruct i as [|i]; simpl in *.
  - injection H as ->. lia.
  - rewrite (IH i H). lia.
Qed.

Lemma at_oracle_tasks_bounds (ts : list task) :
  0 <= at_oracle_tasks ts <= Z.of_nat (length ts).
Proof.
  induction ts as [|t ts IH]; simpl; [lia|]. destruct (at_oracle t); lia.
Qed.

Lemma at_oracle_tasks_lookup (ts : list task) (i : nat) (f : frame) (a : bytes) :
  ts !! i = Some (AtOracle f a) -> 1 <= at_oracle_tasks ts.
Proof.
  revert i. induction ts as [|t0 ts IH]; intros i H; [done|].
  pose proof (at_oracle_tasks_bounds ts).
  destruct i as [|i]; simpl in *.
  - injection H as ->. simpl. lia.
  - specialize (IH i H). destruct (at_oracle t0); lia.
Qed.

Lemma stale_bounds (initial : bytes) (regions : list (nat * nat))
    (slots : list bytes) (i : nat) (f : frame) (a : bytes) :
  0 <= stale initial regions slots i f a <= 1.
Proof. unfold stale. destruct (bool_decide _); lia. Qed.

Section RetryBudget.

Variable oracle : bytes -> bool.
Variable initial : bytes.
Variable regions : list (nat * nat).

(** What an oracle answer leads to when the counter is in order. *)
Lemma after_oracle_exact (i : nat) (f : frame) (a : bytes) (e e1 : engine)
    (o : outcome) :
  (is_merging f = true -> 1 <= current_merge_attempts e) ->
  after_oracle oracle initial regions i f a e = (e1, o) ->
  (oracle a = false /\ o = Return false /\ replacements e1 = replacements e)
  \/ (oracle a = true /\
      replace initial regions (replacements e) i (fr_s f) = a /\
      o = Return true /\ replacements e1 = <[i := fr_s f]> (replacements e))
  \/ (oracle a = true /\
      replace initial regions (replacements e) i (fr_s f) <> a /\
      retries f + 1 <= 100 /\ replacements e1 = replacements e /\
      o = Suspend (AtOracle (Frame (fr_s f) true (retries f + 1))
                     (replace initial regions (replacements e) i (fr_s f))))
  \/ (oracle a = true /\
      replace initial regions (replacements e) i (fr_s f) <> a /\
      100 < retries f + 1 /\ replacements e1 = replacements e /\
      o = Raise AssertionError).
Proof.
  intros Hc. unfold after_oracle, is_interesting, finally, loop_top.
  destruct (oracle a) eqn:Eo; cbn [negb];
    [destruct (bool_decide _) eqn:Er;
       [apply bool_decide_eq_true in Er
       |apply bool_decide_eq_false in Er]; cbn [replacements] in Er|];
    destruct (is_merging f) eqn:Em;
    cbn [negb andb fr_s is_merging retries current_merge_attempts replacements];
    rewrite ?Em; cbn [negb andb];
    try specialize (Hc eq_refl);
    try replace (0 <=? current_merge_attempts e - 1) with true by lia;
    try destruct (retries f + 1 <=? 100) eqn:Ec;
    try destruct (0 <=? current_merge_attempts e + 1 - 1) eqn:Ey;
    intros [= <- <-]; cbn [replacements].
  all: first
    [ left; repeat split; done
    | right; left; repeat split; done
    | right; right; left; repeat split; try done; lia
    | right; right; right; repeat split; try done; lia ].
Qed.

Lemma budget_update (e e' : engine) (j : nat) (t0 t' : task) :
  tasks e !! j = Some t0 ->
  tasks e' = <[j:=t']> (tasks e) ->
  retry_budget initial regions e ->
  match t' with
  | InSubPass => True
  | AtSleep f => retries f = 0
  | AtOracle f a =>
      if is_merging f
      then retries f + (at_oracle_tasks (tasks e') - 1)
           + stale initial regions (replacements e') j f a
           <= Z.of_nat (length regions)
      else retries f = 0
  end ->
  (replacements e' = replacements e /\
   at_oracle_tasks (tasks e') <= at_oracle_tasks (tasks e))
  \/ at_oracle_tasks (tasks e') <= at_oracle_tasks (tasks e) - 1
  \/ (forall i f a, tasks e !! i = Some (AtOracle f a) -> is_merging f = false) ->
  retry_budget initial regions e'.
Proof.
  intros Hj Ht Hb Hnew Hrest i t Hi. rewrite Ht in Hi.
  destruct (decide (j = i)) as [<-|Hne].
  - rewrite list_lookup_insert_eq in Hi by (by eapply lookup_lt_Some).
    injection Hi as <-. exact Hnew.
  - rewrite list_lookup_insert_ne in Hi by done.
    specialize (Hb i t Hi). destruct t as [|f|f a]; try done.
    destruct (is_merging f) eqn:Em; [|done].
    pose proof (stale_bounds initial regions (replacements e) i f a).
    pose proof (stale_bounds initial regions (replacements e') i f a).
    destruct Hrest as [[Hs Ha]|[Ha|Hno]].
    + rewrite Hs. lia.
    + lia.
    + specialize (Hno i f a Hi). congruence.
Qed.

Lemma budget_loop_top (e : engine) (j : nat) (t0 : task) (f : frame) :
  counter_ok e -> retry_budget initial regions e ->
  tasks e !! j = Some t0 -> at_oracle t0 = false ->
  is_merging f = false -> retries f = 0 ->
  retry_budget initial regions (settle j e (loop_top initial regions j f e)).
Proof.
  intros [Hc Hs] Hb Hj Ht0 Hm Hr. unfold loop_top. rewrite Hm. cbn [negb andb].
  destruct (0 <? current_merge_attempts e) eqn:Ez; cbn [settle].
  - eapply (budget_update e _ j t0); [done|reflexivity|done|done|].
    left. cbn [replacements tasks]. split; [done|].
    rewrite (at_oracle_tasks_insert _ _ _ _ Hj), Ht0. cbn. lia.
  - eapply (budget_update e _ j t0); [done|reflexivity|done| |].
    + cbv iota. by rewrite Hm.
    + right; right. intros i f' a' Hi.
      destruct (is_merging f') eqn:Em'; [|done].
      pose proof (merging_tasks_lookup _ _ _ Hi Em'). lia.
Qed.

(** One step keeps the budget, and with at most 100 regions it raises
    nothing. *)
Lemma budget_step (e e' : engine) (ev : event) :
  engine_wf regions e -> counter_ok e -> retry_budget initial regions e ->
  step oracle initial regions e ev = Some e' ->
  retry_budget initial regions e' /\
  ((length regions <= 100)%nat -> raised e' = None).
Proof.
  intros (Hlr & Hlt & _) Hco Hb Hstep. pose proof Hco as [Hc Hs].
  unfold step in Hstep. destruct (raised e) eqn:Hraised; [done|].
  destruct ev as [j s|j|j].
  - destruct (tasks e !! j) as [[|f|f a]|] eqn:Ej; try done. injection Hstep as <-.
    split; [by eapply budget_loop_top|]. intros _.
    destruct (loop_top_task initial regions j (Frame s false 0) e) as [->| ->]; done.
  - destruct (tasks e !! j) as [[|f|f a]|] eqn:Ej; try done. injection Hstep as <-.
    split.
    + eapply budget_loop_top; [done|done|exact Ej|done|by eapply Hs|].
      exact (Hb j _ Ej).
    + intros _.
      destruct (loop_top_task initial regions j f e) as [->| ->]; done.
  - destruct (tasks e !! j) as [[|f|f a]|] eqn:Ej; try done.
    destruct (after_oracle oracle initial regions j f a e) as [e1 o] eqn:Ea.
    injection Hstep as <-.
    assert (Hm1 : is_merging f = true -> 1 <= current_merge_attempts e).
    { intros Hm. rewrite Hc. by eapply merging_tasks_lookup. }
    pose proof Ea as Ea'. apply after_oracle_cases in Ea' as (Ht1 & Hr1 & _).
    apply (after_oracle_exact j f a e e1 o Hm1) in Ea.
    pose proof (Hb j _ Ej) as Hbj. cbv iota in Hbj.
    pose proof (at_oracle_tasks_lookup _ _ _ _ Ej) as HA1.
    pose proof (at_oracle_tasks_bounds (tasks e)) as HA2. rewrite Hlt in HA2.
    pose proof (stale_bounds initial regions (replacements e) j f a) as Hst.
    destruct (settle_tasks j e1 o) as [Hst1 _].
    destruct (settle_fields j e1 o) as [Hsf _].
    assert (Hgone : outcome_task o = InSubPass ->
      retry_budget initial regions (settle j e1 o)).
    { intros Ho. eapply (budget_update e _ j (AtOracle f a)); [done| |done| |].
      - by rewrite Hst1, Ht1.
      - by rewrite Ho.
      - right; left. rewrite Hst1, Ht1, Ho.
        rewrite (at_oracle_tasks_insert _ _ _ _ Ej). cbn. lia. }
    destruct Ea as [(Ho & -> & Hw)|[(Ho & Hrep & -> & Hw)|[(Ho & Hne & Hle & Hw & ->)|(Ho & Hne & Hgt & Hw & ->)]]].
    + split; [by apply Hgone|]. intros _. cbn. by rewrite Hr1.
    + split; [by apply Hgone|]. intros _. cbn. by rewrite Hr1.
    + split; [|intros _; cbn; by rewrite Hr1].
      eapply (budget_update e _ j (AtOracle f a)); [done| |done| |].
      * by rewrite Hst1, Ht1.
      * cbn [is_merging retries fr_s]. rewrite Hst1, Ht1, Hsf, Hw.
        rewrite (at_oracle_tasks_insert _ _ _ _ Ej). cbn [at_oracle outcome_task].
        unfold stale at 1. cbn [fr_s]. rewrite bool_decide_eq_true_2 by done.
        unfold stale in Hbj. rewrite bool_decide_eq_false_2 in Hbj by done.
        cbn [is_merging retries].
        destruct (is_merging f) eqn:Em; lia.
      * left. rewrite Hsf, Hw, Hst1, Ht1. split; [done|].
        rewrite (at_oracle_tasks_insert _ _ _ _ Ej). cbn. lia.
    + split; [by apply Hgone|]. intros Hn. exfalso.
      unfold stale in Hbj. rewrite bool_decide_eq_false_2 in Hbj by done.
      destruct (is_merging f) eqn:Em; lia.
Qed.

End RetryBudget.

(** X10: for sub-passes that await each proposal before they make the
    next, which is what the step relation describes (the task of a region
    proposes only from its sub-pass) and what the four sub-passes of
    this module do, a task never retries more often than the pass has
    regions: each conflict after the first needs a commit by a sibling
    that was already waiting for its answer, because new proposals sleep
    while a merge is in flight.  So such a pass over at most 100 regions
    never reaches the retry cap and raises nothing. *)
Theorem retries_bounded_by_regions (oracle : bytes -> bool) (initial : bytes)
    (regions : list (nat * nat)) (e : engine) :
  reachable oracle initial regions e ->
  (forall i f a, tasks e !! i = Some (AtOracle f a) ->
     retries f <= Z.of_nat (length regions)) /\
  ((length regions <= 100)%nat -> raised e = None).
Proof.
  intros Hr.
  assert (H : counter_ok e /\ retry_budget initial regions e /\
              ((length regions <= 100)%nat -> raised e = None)).
  { revert e Hr. apply (reachable_ind oracle initial regions).
    - split; [apply pass_start_counter_ok|]. split; [|done].
      intros i t Ht. unfold pass_start in Ht. cbn in Ht.
      apply lookup_replicate in Ht as [-> _]. done.
    - intros e e' ev Hwf (Hc & Hb & _) Hstep.
      split; [by eapply step_counter_ok|]. by eapply budget_step. }
  destruct H as (_ & Hb & Hraise). split; [|exact Hraise].
  intros i f a Hi. specialize (Hb i _ Hi). cbn in Hb.
  pose proof (at_oracle_tasks_lookup _ _ _ _ Hi).
  pose proof (stale_bounds initial regions (replacements e) i f a).
  destruct (is_merging f); lia.
Qed.

Lemma retries_bounded_by_regions_witness :
  (forall i f a, tasks race_end !! i = Some (AtOracle f a) ->
     retries f <= Z.of_nat (length [(0, 1); (2, 4)]%nat)) /\
  ((length [(0, 1); (2, 4)]%nat <= 100)%nat -> raised race_end = None).
Proof.
  apply (retries_bounded_by_regions (fun _ => true) (bs "1 22")
           [(0, 1); (2, 4)]%nat race_end).
  exists race. vm_compute. reflexivity.
Defined.

(** ** reduce_integer: what it finds and what it costs *)

Section ReduceIntegerMore.

Variable oracle : Z -> bool.

(** What every probe preserves is preserved by the loop. *)
Lemma reduce_integer_loop_stable (Q : session Z -> Prop) :
  (forall x p, Q p -> Q (is_interesting oracle x p).2) ->
  forall fuel lo hi p p',
    Q p -> reduce_integer_loop oracle fuel lo hi p = Some p' -> Q p'.
Proof.
  intros Hq. induction fuel as [|k IH]; intros lo hi p p' Hp Hrun.
  - simpl in Hrun. destruct (lo + 1 <? hi); [done|]. by injection Hrun as <-.
  - cbn [reduce_integer_loop] in Hrun.
    destruct (lo + 1 <? hi); [|by injection Hrun as <-].
    destruct (is_interesting oracle ((lo + hi) / 2) p) as [b1 p1] eqn:E1.
    assert (Hp1 : Q p1) by (specialize (Hq ((lo + hi) / 2) p Hp); by rewrite E1 in Hq).
    destruct (if b1 then (lo, (lo + hi) / 2) else ((lo + hi) / 2, hi)) as [lo1 hi1].
    destruct (is_interesting oracle (hi1 - 1) p1) as [b2 p2] eqn:E2.
    assert (Hp2 : Q p2) by (specialize (Hq (hi1 - 1) p1 Hp1); by rewrite E2 in Hq).
    destruct (is_interesting oracle (lo1 + 1) p2) as [b3 p3] eqn:E3.
    assert (Hp3 : Q p3) by (specialize (Hq (lo1 + 1) p2 Hp2); by rewrite E3 in Hq).
    destruct b3; [by injection Hrun as <-|]. by eapply IH.
Qed.

(** The loop ends within [fuel] rounds when the gap is below
    [2 ^ (fuel + 1)], and every round makes three probes. *)
Lemma reduce_integer_loop_log (fuel : nat) :
  forall lo hi p,
    hi - lo < 2 ^ (Z.of_nat fuel + 1) ->
    exists p', reduce_integer_loop oracle fuel lo hi p = Some p' /\
      (length (probes p') <= length (probes p) + 3 * fuel)%nat.
Proof.
  induction fuel as [|k IH]; intros lo hi p Hd.
  - simpl in *. replace (lo + 1 <? hi) with false by lia. exists p. split; [done|lia].
  - cbn [reduce_integer_loop]. destruct (lo + 1 <? hi) eqn:Hc;
      [|exists p; split; [done|lia]].
    apply Z.ltb_lt in Hc.
    replace (Z.of_nat (S k) + 1) with (Z.succ (Z.of_nat k + 1)) in Hd by lia.
    rewrite Z.pow_succ_r in Hd by lia.
    unfold is_interesting. cbn [probes current_test_case].
    set (mid := (lo + hi) / 2) in *.
    assert (Hmid : 2 * mid <= lo + hi < 2 * mid + 2)
      by (unfold mid; Z.div_mod_to_equations; lia).
    destruct (oracle mid); cbn [fst snd].
    + destruct (oracle (mid - 1)); (destruct (oracle (lo + 1));
        [eexists; split; [reflexivity|]; cbn [probes]; rewrite !length_app; simpl; lia|]).
      * edestruct (IH (lo + 1) (mid - 1)) as (p' & -> & Hl); [lia|].
        eexists; split; [reflexivity|].
        cbn [probes] in Hl. rewrite !length_app in Hl. simpl in Hl. lia.
      * edestruct (IH (lo + 1) mid) as (p' & -> & Hl); [lia|].
        eexists; split; [reflexivity|].
        cbn [probes] in Hl. rewrite !length_app in Hl. simpl in Hl. lia.
    + destruct (oracle (hi - 1)); (destruct (oracle (mid + 1));
        [eexists; split; [reflexivity|]; cbn [probes]; rewrite !length_app; simpl; lia|]).
      * edestruct (IH (mid + 1) (hi - 1)) as (p' & -> & Hl); [lia|].
        eexists; split; [reflexivity|].
        cbn [probes] in Hl. rewrite !length_app in Hl. simpl in Hl. lia.
      * edestruct (IH (mid + 1) hi) as (p' & -> & Hl); [lia|].
        eexists; split; [reflexivity|].
        cbn [probes] in Hl. rewrite !length_app in Hl. simpl in Hl. lia.
Qed.

End ReduceIntegerMore.

(** X11: when the initial value is interesting and every value above an
    interesting one (up to the initial value) is interesting too,
    [reduce_integer] ends on the least interesting value. *)
Theorem reduce_integer_finds_minimum (oracle : Z -> bool) (init : Z) (fuel : nat) :
  0 <= init -> (Z.to_nat init <= fuel)%nat ->
  oracle init = true ->
  (forall x y, 0 <= x -> x <= y -> y <= init -> oracle x = true -> oracle y = true) ->
  exists p',
    reduce_integer oracle fuel (new_session init) = Some (inr p') /\
    oracle (current_test_case p') = true /\
    forall x, 0 <= x < current_test_case p' -> oracle x = false.
Proof.
  intros Hinit Hfuel Hi Hmono.
  set (Q := fun p : session Z => oracle (current_test_case p) = true).
  assert (Hq : forall x p, Q p -> Q (is_interesting oracle x p).2).
  { intros x p Hp. unfold Q, is_interesting. cbn.
    destruct (oracle x) eqn:E; done. }
  assert (Hmin : forall p', probes_ok oracle init p' ->
            current_test_case p' <= init ->
            current_test_case p' = 0 \/ In (current_test_case p' - 1, false) (probes p') ->
            forall x, 0 <= x < current_test_case p' -> oracle x = false).
  { intros p' Hok Hle Hm x Hx. destruct Hm as [Hm|Hm]; [lia|].
    destruct (Hok _ _ Hm) as [Hr Hf].
    destruct (oracle x) eqn:Ex; [|done].
    rewrite (Hmono x (current_test_case p' - 1)) in Hf; [done|lia|lia|lia|done]. }
  unfold reduce_integer, new_session. cbn [current_test_case].
  replace (init <? 0) with false by lia.
  unfold is_interesting. cbn [current_test_case probes app].
  destruct (oracle 0) eqn:E0.
  - eexists. split; [reflexivity|]. cbn. split; [done|]. intros x Hx. lia.
  - destruct (reduce_integer_loop_ok oracle init fuel 0 init
                (Session init [(0, false)])) as (p' & Hrun & Hok & Hle & Hm).
    + unfold loop_inv. cbn [current_test_case probes].
      split; [lia|]. split; [lia|]. split; [lia|]. split; [by left|].
      split; [done|]. split.
      * intros x b [[= <- <-]|[]]. split; [lia|done].
      * intros <-. by left.
    + replace (init - 0) with init by lia. exact Hfuel.
    + exists p'. rewrite Hrun. split; [reflexivity|]. split.
      * eapply (reduce_integer_loop_stable oracle Q Hq); [|exact Hrun]. exact Hi.
      * by apply Hmin.
Qed.

Lemma reduce_integer_finds_minimum_witness :
  exists p',
    reduce_integer (fun v => 42 <=? v) 1000 (new_session 1000) = Some (inr p') /\
    (42 <=? current_test_case p') = true /\
    forall x, 0 <= x < current_test_case p' -> (42 <=? x) = false.
Proof.
  apply (reduce_integer_finds_minimum (fun v => 42 <=? v) 1000 1000); lia.
Defined.

(** X12: [reduce_integer] needs no more than [log2 init] rounds of its
    loop and asks the oracle at most [1 + 3 * log2 init] times. *)
Theorem reduce_integer_logarithmic (oracle : Z -> bool) (init : Z) :
  0 <= init ->
  exists p',
    reduce_integer oracle (Z.to_nat (Z.log2 init)) (new_session init) = Some (inr p') /\
    Z.of_nat (length (probes p')) <= 1 + 3 * Z.log2 init.
Proof.
  intros Hinit. unfold reduce_integer, new_session. cbn [current_test_case].
  replace (init <? 0) with false by lia.
  unfold is_interesting. cbn [current_test_case probes app].
  pose proof (Z.log2_nonneg init) as Hl.
  destruct (oracle 0).
  - eexists. split; [reflexivity|]. simpl. lia.
  - destruct (reduce_integer_loop_log oracle (Z.to_nat (Z.log2 init)) 0 init
                (Session init [(0, false)])) as (p' & -> & Hlen).
    + rewrite Z2Nat.id by done. rewrite Z.sub_0_r.
      destruct (Z.eq_dec init 0) as [->|Hne]; [done|].
      replace (Z.log2 init + 1) with (Z.succ (Z.log2 init)) by lia.
      apply Z.log2_spec. lia.
    + exists p'. split; [reflexivity|]. simpl in Hlen. lia.
Qed.

Lemma reduce_integer_logarithmic_witness :
  exists p',
    reduce_integer (fun v => 42 <=? v) (Z.to_nat (Z.log2 1000)) (new_session 1000)
    = Some (inr p') /\
    Z.of_nat (length (probes p')) <= 1 + 3 * Z.log2 1000.
Proof. apply (reduce_integer_logarithmic (fun v => 42 <=? v) 1000). lia. Defined.

(** ** The patterns of the module *)

Example matching_regions_quotes :
  matching_regions (search_with match_adjacent_quotes) 12 (bs "x = 'a' ' b'")
  = Some [(6, 9)]%nat.
Proof. reflexivity. Qed.

(** Scenario 3 of the design document. *)
Example matching_regions_falsey :
  matching_regions (search_with match_falsey) 16 (bs "if (FALSE) { () }")
  = Some [(4, 9); (13, 15)]%nat.
Proof. reflexivity. Qed.

Lemma take_while_length (f : byte -> bool) (s : bytes) :
  (length (take_while f s) <= length s)%nat.
Proof. induction s as [|c r IH]; simpl; [lia|]. destruct (f c); simpl; lia. Qed.

Lemma take_digits_length (s : bytes) : (length (take_digits s) <= length s)%nat.
Proof. induction s as [|c r IH]; simpl; [lia|]. destruct (is_digit c); simpl; lia. Qed.

Lemma startswith_length (s p : bytes) :
  startswith s p = true -> (length p <= length s)%nat.
Proof. intros H. apply startswith_spec in H as [r ->]. rewrite length_app. lia. Qed.

Lemma match_adjacent_quotes_length (s : bytes) (n : nat) :
  match_adjacent_quotes s = Some n -> (2 <= n <= length s)%nat.
Proof.
  destruct s as [|q r]; [done|]. cbn [match_adjacent_quotes].
  destruct (is_quote q); [|done].
  destruct (drop (length (take_while is_space r)) r) as [|q' rest] eqn:Ed; [done|].
  destruct (bool_decide (q' = q)); [|done]. intros [= <-].
  apply (f_equal length) in Ed. rewrite length_drop in Ed. simpl in *. lia.
Qed.

Lemma match_falsey_length (s : bytes) (n : nat) :
  match_falsey s = Some n -> (2 <= n <= length s)%nat.
Proof.
  unfold match_falsey.
  destruct (startswith s (bs "''")) eqn:E1;
    [apply startswith_length in E1; intros [= <-]; simpl in *; lia|].
  destruct (startswith s [Byte.x22; Byte.x22]) eqn:E2;
    [apply startswith_length in E2; intros [= <-]; simpl in *; lia|].
  destruct (bool_decide (map to_lower (take 5 s) = bs "false")) eqn:E3.
  { apply bool_decide_eq_true in E3. apply (f_equal length) in E3.
    rewrite length_map, length_take in E3. intros [= <-].
    change (length (bs "false")) with 5%nat in E3. lia. }
  destruct (startswith s (bs "()")) eqn:E4;
    [apply startswith_length in E4; intros [= <-]; simpl in *; lia|].
  destruct (startswith s (bs "[]")) eqn:E5;
    [apply startswith_length in E5; intros [= <-]; simpl in *; lia|].
  done.
Qed.

Lemma match_expression_length (s lhs rhs : bytes) (op : byte) :
  match_expression s = Some (lhs, op, rhs) ->
  (5 <= length lhs + 3 + length rhs <= length s)%nat.
Proof.
  unfold match_expression. pose proof (take_digits_length s) as Hl.
  destruct (take_digits s) as [|d ds] eqn:El; [done|].
  destruct (drop (length (d :: ds)) s) as [|sp1 [|op' [|sp2 rest]]] eqn:Ed; try done.
  destruct (_ && _); [|done].
  pose proof (take_digits_length rest) as Hr.
  destruct (take_digits rest) as [|e es] eqn:Er; [done|].
  intros [= <- <- <-].
  apply (f_equal length) in Ed. rewrite length_drop in Ed. simpl in *. lia.
Qed.

Lemma find_match_span (m : bytes -> option nat) (k : nat) :
  (forall s n, m s = Some n -> (k <= n <= length s)%nat) ->
  forall s pos u v, find_match m s pos = Some (u, v) ->
    (pos <= u /\ u + k <= v /\ v <= pos + length s)%nat.
Proof.
  intros Hm. induction s as [|c r IH]; intros pos u v H; cbn [find_match] in H.
  - destruct (m []) as [n|] eqn:E; [|done]. injection H as <- <-.
    apply Hm in E. simpl in *. lia.
  - destruct (m (c :: r)) as [n|] eqn:E.
    + injection H as <- <-. apply Hm in E. lia.
    + apply IH in H. cbn [length]. lia.
Qed.

Lemma search_with_span (m : bytes -> option nat) (k : nat) :
  (forall s n, m s = Some n -> (k <= n <= length s)%nat) ->
  forall tc i u v, search_with m tc i = Some (u, v) ->
    (i <= u /\ u + k <= v /\ v <= length tc)%nat.
Proof.
  intros Hm tc i u v. unfold search_with.
  destruct (i <=? length tc)%nat eqn:Hi; [|done]. apply Nat.leb_le in Hi.
  intros H. apply (find_match_span m k Hm) in H. rewrite length_drop in H. lia.
Qed.

Lemma find_expression_span (s : bytes) :
  forall pos u v, find_expression s pos = Some (u, v) ->
    (pos <= u /\ u + 5 <= v /\ v <= pos + length s)%nat.
Proof.
  induction s as [|c r IH]; intros pos u v H; [done|].
  cbn [find_expression] in H.
  destruct (match_expression (c :: r)) as [[[lhs op] rhs]|] eqn:E.
  - injection H as <- <-. apply match_expression_length in E. lia.
  - apply IH in H. cbn [length]. lia.
Qed.

Lemma search_expression_span (tc : bytes) (i u v : nat) :
  search_expression tc i = Some (u, v) ->
  (i <= u /\ u + 5 <= v /\ v <= length tc)%nat.
Proof.
  unfold search_expression. destruct (i <=? length tc)%nat eqn:Hi; [|done].
  apply Nat.leb_le in Hi. intros H. apply find_expression_span in H.
  rewrite length_drop in H. lia.
Qed.

(** What holds of every span the pattern reports holds of every region
    the scan collects. *)
Lemma matching_regions_loop_forall (search : searcher) (tc : bytes)
    (P : nat * nat -> Prop) :
  (forall i u v, search tc i = Some (u, v) -> P (u, v)) ->
  forall fuel i acc regions,
    Forall P acc ->
    matching_regions_loop search fuel tc i acc = Some regions ->
    Forall P regions.
Proof.
  intros Hs. induction fuel as [|k IH]; intros i acc regions Hacc Hrun.
  - simpl in Hrun. destruct (i <? length tc)%nat; [done|]. by injection Hrun as <-.
  - simpl in Hrun. destruct (i <? length tc)%nat; [|by injection Hrun as <-].
    destruct (search tc i) as [[u v]|] eqn:Es; [|by injection Hrun as <-].
    eapply IH; [|exact Hrun]. apply Forall_app. split; [done|].
    constructor; [by apply (Hs i)|constructor].
Qed.

Lemma module_pattern_span (search : searcher) :
  module_pattern search ->
  forall tc i u v, search tc i = Some (u, v) ->
    (i <= u /\ u < v /\ v <= length tc)%nat.
Proof.
  intros [->|[->|[->| ->]]] tc i u v H.
  - exact (search_digits_span tc i u v H).
  - pose proof (search_expression_span tc i u v H). lia.
  - pose proof (search_with_span _ 2 match_adjacent_quotes_length tc i u v H). lia.
  - pose proof (search_with_span _ 2 match_falsey_length tc i u v H). lia.
Qed.

(** X13: for each of the four patterns that the module passes to
    [regex_pass] (digits, binary expressions, adjacent quotes, falsy
    literals) no match is empty, so the region scan ends within
    [len(candidate)] rounds and returns non-empty regions in ascending
    order inside the candidate. *)
Theorem module_patterns_scan (search : searcher) (tc : bytes) :
  module_pattern search ->
  exists regions,
    matching_regions search (length tc) tc = Some regions /\
    regions_from (length tc) 0 regions /\
    Forall (fun uv => (uv.1 < uv.2 <= length tc)%nat) regions.
Proof.
  intros Hm. pose proof (module_pattern_span search Hm) as Hspan.
  destruct (matching_regions_nonempty_pattern search tc (length tc))
    as (regions & Hrun & Hsorted).
  - intros t i u v H. apply Hspan in H. lia.
  - intros t i u v H. apply Hspan in H. lia.
  - lia.
  - exists regions. split; [done|]. split; [done|].
    eapply (matching_regions_loop_forall search tc); [|constructor|exact Hrun].
    intros i u v H. apply Hspan in H. simpl. lia.
Qed.

Lemma module_patterns_scan_witness :
  exists regions,
    matching_regions (search_with match_falsey) (length (bs "if (FALSE) { () }"))
                     (bs "if (FALSE) { () }") = Some regions /\
    regions_from (length (bs "if (FALSE) { () }")) 0 regions /\
    Forall (fun uv => (uv.1 < uv.2 <= length (bs "if (FALSE) { () }"))%nat) regions.
Proof.
  apply (module_patterns_scan (search_with match_falsey) (bs "if (FALSE) { () }")).
  right; right; right. reflexivity.
Defined.

Lemma slice_length {A} (x : list A) (u v : nat) :
  (u <= v <= length x)%nat -> length (slice x u v) = (v - u)%nat.
Proof. intros H. unfold slice. rewrite length_take, length_drop. lia. Qed.

Lemma replace_shape (initial : bytes) (regions : list (nat * nat))
    (slots : list bytes) (i : nat) :
  (i < length regions)%nat ->
  exists pre post, forall s, replace initial regions slots i s = pre ++ s ++ post.
Proof.
  intros Hi.
  destruct (replace_parts_split initial slots i regions 0 0) as (pre & post & H);
    [lia|].
  exists pre, post. intros s. rewrite <- (insert_own_value slots i) at 1. apply H.
Qed.

(** A proposal of a pass whose matches span at least [k] bytes. *)
Lemma replace_initial_length (search : searcher) (k fuel : nat)
    (initial : bytes) (regions : list (nat * nat)) (i : nat) (s : bytes) :
  (forall tc j u v, search tc j = Some (u, v) ->
     (j <= u /\ u + k <= v /\ v <= length tc)%nat) ->
  matching_regions search fuel initial = Some regions ->
  (i < length regions)%nat ->
  (length (replace initial regions (initial_replacements initial regions) i s) + k
   <= length initial + length s)%nat.
Proof.
  intros Hspan Hscan Hi.
  assert (Hreg : regions_from (length initial) 0 regions).
  { eapply (matching_regions_loop_sorted search); [| | |exact Hscan].
    - intros tc j u v H. apply Hspan in H. lia.
    - simpl. lia.
    - reflexivity. }
  assert (Hall : Forall (fun uv => (uv.1 + k <= uv.2 <= length initial)%nat) regions).
  { eapply (matching_regions_loop_forall search initial); [|constructor|exact Hscan].
    intros j u v H. apply Hspan in H. simpl. lia. }
  destruct (lookup_lt_is_Some_2 regions i Hi) as [[u v] Huv].
  pose proof (Forall_lookup_1 _ _ _ _ Hall Huv) as Hb. simpl in Hb.
  destruct (replace_shape initial regions (initial_replacements initial regions) i Hi)
    as (pre & post & Hshape).
  assert (Hown : replace initial regions (initial_replacements initial regions) i
                   (initial_replacements initial regions !!! i) = initial).
  { unfold replace. rewrite replace_parts_initial; [done|done|].
    intros j u' v' Hj. by apply initial_replacements_lookup. }
  rewrite Hshape in Hown. apply (f_equal length) in Hown.
  rewrite (initial_replacements_lookup initial regions i u v Huv) in Hown.
  rewrite !length_app, slice_length in Hown by lia.
  rewrite Hshape, !length_app. lia.
Qed.

(** X14: every proposal of [merge_adjacent_strings], the region replaced
    by the empty string in the pass-start candidate, is at least two
    bytes shorter than the candidate. *)
Theorem merge_adjacent_strings_shortens (fuel : nat) (initial : bytes)
    (regions : list (nat * nat)) (i : nat) (s : bytes) :
  matching_regions (search_with match_adjacent_quotes) fuel initial = Some regions ->
  (i < length regions)%nat ->
  merge_adjacent_strings (initial_replacements initial regions !!! i) = Proposed s ->
  (length (replace initial regions (initial_replacements initial regions) i s) + 2
   <= length initial)%nat.
Proof.
  intros Hscan Hi [= <-].
  pose proof (replace_initial_length (search_with match_adjacent_quotes) 2 fuel
                initial regions i []
                (search_with_span _ 2 match_adjacent_quotes_length) Hscan Hi) as H.
  simpl in H. lia.
Qed.

Lemma merge_adjacent_strings_shortens_witness :
  (length (replace (bs "x = 'a' ' b'") [(6, 9)%nat]
             (initial_replacements (bs "x = 'a' ' b'") [(6, 9)%nat]) 0 []) + 2
   <= length (bs "x = 'a' ' b'"))%nat.
Proof.
  apply (merge_adjacent_strings_shortens 12 (bs "x = 'a' ' b'") [(6, 9)%nat] 0 []);
    [reflexivity|simpl; lia|reflexivity].
Defined.

(** X15: every proposal of [replace_falsey_with_zero], the region
    replaced by [b"0"] in the pass-start candidate, is strictly shorter
    than the candidate. *)
Theorem replace_falsey_with_zero_shortens (fuel : nat) (initial : bytes)
    (regions : list (nat * nat)) (i : nat) (s : bytes) :
  matching_regions (search_with match_falsey) fuel initial = Some regions ->
  (i < length regions)%nat ->
  replace_falsey_with_zero (initial_replacements initial regions !!! i) = Proposed s ->
  (length (replace initial regions (initial_replacements initial regions) i s)
   < length initial)%nat.
Proof.
  intros Hscan Hi [= <-].
  pose proof (replace_initial_length (search_with match_falsey) 2 fuel
                initial regions i (bs "0")
                (search_with_span _ 2 match_falsey_length) Hscan Hi) as H.
  simpl in H. lia.
Qed.

Lemma replace_falsey_with_zero_shortens_witness :
  (length (replace (bs "if (FALSE) { () }") [(4, 9); (13, 15)]%nat
             (initial_replacements (bs "if (FALSE) { () }") [(4, 9); (13, 15)]%nat)
             1 (bs "0"))
   < length (bs "if (FALSE) { () }"))%nat.
Proof.
  apply (replace_falsey_with_zero_shortens 16 (bs "if (FALSE) { () }")
           [(4, 9); (13, 15)]%nat 1 (bs "0"));
    [reflexivity|simpl; lia|reflexivity].
Defined.

(** ** The scan misses no match *)

Lemma find_match_first (m : bytes -> option nat) (s : bytes) :
  forall pos u v, find_match m s pos = Some (u, v) ->
    exists k, u = (pos + k)%nat /\ (k <= length s)%nat /\
      m (drop k s) = Some (v - u)%nat /\ (u <= v)%nat /\
      forall k', (k' < k)%nat -> m (drop k' s) = None.
Proof.
  induction s as [|c r IH]; intros pos u v H; cbn [find_match] in H.
  - destruct (m []) as [n|] eqn:E; [|done]. injection H as <- <-.
    exists 0%nat. rewrite Nat.add_0_r. repeat split; try (simpl; lia).
    rewrite drop_0, E. f_equal. lia.
  - destruct (m (c :: r)) as [n|] eqn:E.
    + injection H as <- <-. exists 0%nat. rewrite Nat.add_0_r.
      repeat split; try (simpl; lia). rewrite drop_0, E. f_equal. lia.
    + apply IH in H as (k & -> & Hk & Hm & Huv & Hbefore).
      exists (S k). repeat split; try (simpl; lia).
      * simpl. by rewrite Hm.
      * intros [|k'] Hk'; [by rewrite drop_0|]. simpl. apply Hbefore. lia.
Qed.

Lemma find_match_none (m : bytes -> option nat) (s : bytes) :
  forall pos, find_match m s pos = None ->
    forall k, (k <= length s)%nat -> m (drop k s) = None.
Proof.
  induction s as [|c r IH]; intros pos H k Hk; cbn [find_match] in H.
  - destruct (m []) eqn:E; [done|]. by rewrite drop_nil.
  - destruct (m (c :: r)) eqn:E; [done|].
    destruct k as [|k]; [by rewrite drop_0|]. simpl.
    apply (IH _ H). simpl in Hk. lia.
Qed.

Lemma matching_regions_loop_prefix (search : searcher) (tc : bytes) :
  forall fuel i acc regions,
    matching_regions_loop search fuel tc i acc = Some regions ->
    exists rest, regions = acc ++ rest.
Proof.
  induction fuel as [|k IH]; intros i acc regions H; simpl in H.
  - destruct (i <? length tc)%nat; [done|]. injection H as <-.
    exists []. by rewrite app_nil_r.
  - destruct (i <? length tc)%nat.
    2:{ injection H as <-. exists []. by rewrite app_nil_r. }
    destruct (search tc i) as [[u v]|].
    2:{ injection H as <-. exists []. by rewrite app_nil_r. }
    apply IH in H as [rest ->]. exists ((u, v) :: rest). by rewrite <- app_assoc.
Qed.

Lemma matching_regions_loop_complete (m : bytes -> option nat) (tc : bytes) :
  forall fuel i acc regions,
    matching_regions_loop (search_with m) fuel tc i acc = Some regions ->
    forall j, (i <= j < length tc)%nat ->
      Forall (fun uv => ~ (uv.1 <= j < uv.2)%nat) regions ->
      m (drop j tc) = None.
Proof.
  induction fuel as [|f IH]; intros i acc regions H j Hj Hout; simpl in H.
  - destruct (i <? length tc)%nat eqn:E; [done|]. apply Nat.ltb_ge in E. lia.
  - destruct (i <? length tc)%nat eqn:E; [|apply Nat.ltb_ge in E; lia].
    apply Nat.ltb_lt in E.
    destruct (search_with m tc i) as [[u v]|] eqn:Es.
    + unfold search_with in Es.
      replace (i <=? length tc)%nat with true in Es by (symmetry; apply Nat.leb_le; lia).
      apply find_match_first in Es as (k & -> & Hk & Hm & Huv & Hbefore).
      destruct (matching_regions_loop_prefix _ _ _ _ _ _ H) as [rest ->].
      destruct (decide (j < i + k)%nat) as [Hlt|Hge].
      * specialize (Hbefore (j - i)%nat ltac:(lia)).
        rewrite drop_drop in Hbefore.
        by replace (i + (j - i))%nat with j in Hbefore by lia.
      * apply (IH _ _ _ H); [|done].
        apply Forall_app in Hout as [Hout _].
        apply Forall_app in Hout as [_ Hout].
        apply Forall_inv in Hout. simpl in Hout. lia.
    + unfold search_with in Es.
      replace (i <=? length tc)%nat with true in Es by (symmetry; apply Nat.leb_le; lia).
      pose proof (find_match_none m _ _ Es (j - i)%nat) as Hn.
      rewrite length_drop, drop_drop in Hn.
      replace (i + (j - i))%nat with j in Hn by lia. apply Hn. lia.
Qed.

(** X16: the scan of a pattern leaves no match behind: at a position of
    the candidate that lies in none of the collected regions the pattern
    does not match. *)
Theorem scan_misses_no_match (m : bytes -> option nat) (fuel : nat) (tc : bytes)
    (regions : list (nat * nat)) (j : nat) :
  matching_regions (search_with m) fuel tc = Some regions ->
  (j < length tc)%nat ->
  Forall (fun uv => ~ (uv.1 <= j < uv.2)%nat) regions ->
  m (drop j tc) = None.
Proof.
  intros H Hj Hout.
  apply (matching_regions_loop_complete m tc fuel 0%nat [] regions H j); [lia|done].
Qed.

Lemma scan_misses_no_match_witness :
  match_falsey (drop 10 (bs "if (FALSE) { () }")) = None.
Proof.
  apply (scan_misses_no_match match_falsey 16 (bs "if (FALSE) { () }")
           [(4, 9); (13, 15)]%nat 10).
  - reflexivity.
  - simpl. lia.
  - repeat constructor; simpl; lia.
Defined.

(** ** reduce_integer_literals: the regions are numbers *)

Lemma span_digits_take (s : bytes) :
  forallb is_digit (take (span_digits s) s) = true.
Proof.
  induction s as [|c r IH]; [done|]. cbn [span_digits].
  destruct (is_digit c) eqn:E; [|done]. simpl. by rewrite E.
Qed.

Lemma find_digits_first (s : bytes) :
  forall pos u v, find_digits s pos = Some (u, v) ->
    exists k, u = (pos + k)%nat /\ v = (u + span_digits (drop k s))%nat.
Proof.
  induction s as [|c r IH]; intros pos u v H; [done|].
  cbn [find_digits] in H. destruct (is_digit c) eqn:Ec.
  - injection H as <- <-. exists 0%nat. rewrite drop_0. cbn [span_digits].
    rewrite Ec. split; lia.
  - apply IH in H as (k & -> & ->). exists (S k). simpl. split; lia.
Qed.

Lemma search_digits_all_digits (tc : bytes) (i u v : nat) :
  search_digits tc i = Some (u, v) -> forallb is_digit (slice tc u v) = true.
Proof.
  unfold search_digits. destruct (i <=? length tc)%nat; [|done].
  intros H. apply find_digits_first in H as (k & -> & ->).
  unfold slice. rewrite drop_drop.
  replace (i + k + span_digits (drop (i + k) tc) - (i + k))%nat
    with (span_digits (drop (i + k) tc)) by lia.
  apply span_digits_take.
Qed.

(** The text of a number between zero and the value of a run of digits
    within the limit is written, and is no longer than the run. *)
Lemma dumps_length_le (ds : bytes) (m : Z) :
  ds <> [] -> forallb is_digit ds = true ->
  Z.of_nat (length ds) <= max_str_digits ->
  0 <= m <= decimal_value ds ->
  exists text, IntegerFormat.dumps m = inr text /\
               (length text <= length ds)%nat.
Proof.
  intros Hne Hd Hlen Hm.
  pose proof (decimal_value_bound ds Hd).
  assert (Hl : (length (str_digits (S (Z.to_nat m)) m) <= length ds)%nat).
  { apply str_digits_length; [lia|]. destruct ds; [done|simpl; lia]. }
  exists (decimal_text m). rewrite decimal_text_nonneg by lia. split; [|done].
  apply IntegerFormat_dumps_inr, py_str_int_Some.
  rewrite decimal_text_nonneg by lia. split; [done|].
  rewrite count_digits_digits by (apply str_digits_all_digits; lia). lia.
Qed.

(** X17: every region that [regex_pass] hands to
    [reduce_integer_literals] is a run of digits.  If it has at most
    [max_str_digits] (4300) digits, [IntegerFormat] parses it to a number
    [n >= 0], so the assertion at the head of [reduce_integer] holds, and
    for any value from [0] to [n] [IntegerFormat] writes a text that is
    no longer than the region.  If it has more digits, [parse] raises
    [ParseError]. *)
Theorem integer_literal_regions (fuel : nat) (initial : bytes)
    (regions : list (nat * nat)) (i u v : nat) :
  matching_regions search_digits fuel initial = Some regions ->
  regions !! i = Some (u, v) ->
  (Z.of_nat (v - u) <= max_str_digits ->
   exists n,
     IntegerFormat.parse (initial_replacements initial regions !!! i) = Some n /\
     0 <= n /\
     (forall oracle fuel', reduce_integer oracle fuel' (new_session n)
                           <> Some (inl AssertionError)) /\
     (forall m, 0 <= m <= n ->
        exists text, IntegerFormat.dumps m = inr text /\
                     (length text <= v - u)%nat)) /\
  (max_str_digits < Z.of_nat (v - u) ->
   IntegerFormat.parse (initial_replacements initial regions !!! i) = None).
Proof.
  intros Hscan Huv.
  assert (Hall : Forall (fun uv => (uv.1 < uv.2 <= length initial)%nat /\
                           forallb is_digit (slice initial uv.1 uv.2) = true) regions).
  { eapply (matching_regions_loop_forall search_digits initial); [|constructor|exact Hscan].
    intros j u' v' H. simpl. split.
    - apply search_digits_span in H. lia.
    - by eapply search_digits_all_digits. }
  pose proof (Forall_lookup_1 _ _ _ _ Hall Huv) as [Hb Hd]. simpl in Hb, Hd.
  rewrite (initial_replacements_lookup initial regions i u v Huv).
  assert (Hlen : length (slice initial u v) = (v - u)%nat) by (apply slice_length; lia).
  assert (Hne : slice initial u v <> []).
  { intros E. rewrite E in Hlen. simpl in Hlen. lia. }
  rewrite <- Hlen. split; [|by apply IntegerFormat_parse_long].
  intros Hlim. exists (decimal_value (slice initial u v)).
  pose proof (decimal_value_nonneg _ Hd) as Hpos.
  split; [by apply IntegerFormat_parse_digits|]. split; [done|]. split.
  - intros oracle fuel'. unfold reduce_integer, new_session. cbn [current_test_case].
    replace (decimal_value (slice initial u v) <? 0) with false by lia.
    destruct (is_interesting oracle 0 _) as [[] p]; [done|].
    by destruct (reduce_integer_loop _ _ _ _ _).
  - intros m Hm. by apply dumps_length_le.
Qed.

Lemma integer_literal_regions_witness :
  (Z.of_nat (7 - 4) <= max_str_digits ->
   exists n,
     IntegerFormat.parse
       (initial_replacements (bs "x = 007 + 12") [(4, 7); (10, 12)]%nat !!! 0%nat)
     = Some n /\
     0 <= n /\
     (forall oracle fuel', reduce_integer oracle fuel' (new_session n)
                           <> Some (inl AssertionError)) /\
     (forall m, 0 <= m <= n ->
        exists text, IntegerFormat.dumps m = inr text /\
                     (length text <= 7 - 4)%nat)) /\
  (max_str_digits < Z.of_nat (7 - 4) ->
   IntegerFormat.parse
     (initial_replacements (bs "x = 007 + 12") [(4, 7); (10, 12)]%nat !!! 0%nat)
   = None).
Proof.
  apply (integer_literal_regions 12 (bs "x = 007 + 12") [(4, 7); (10, 12)]%nat 0 4 7);
    reflexivity.
Defined.

(** ** combine_expressions: what leaves the pass and what it proposes *)

Lemma take_digits_all_digits (s : bytes) : forallb is_digit (take_digits s) = true.
Proof.
  induction s as [|c r IH]; [done|]. simpl.
  destruct (is_digit c) eqn:E; [|done]. simpl. by rewrite E.
Qed.

Lemma match_expression_parts (s lhs rhs : bytes) (op : byte) :
  match_expression s = Some (lhs, op, rhs) ->
  lhs <> [] /\ forallb is_digit lhs = true /\
  rhs <> [] /\ forallb is_digit rhs = true /\ is_operator op = true.
Proof.
  unfold match_expression.
  pose proof (take_digits_all_digits s) as Hl.
  destruct (take_digits s) as [|d ds] eqn:El; [done|].
  destruct (drop (length (d :: ds)) s) as [|sp1 [|op' [|sp2 rest]]] eqn:Ed; try done.
  destruct (bool_decide (sp1 = " "%byte) && is_operator op' && bool_decide (sp2 = " "%byte))
    eqn:Ec; [|done].
  pose proof (take_digits_all_digits rest) as Hr.
  destruct (take_digits rest) as [|e es] eqn:Er; [done|].
  intros [= <- <- <-].
  apply andb_true_iff in Ec as [Ec _]. apply andb_true_iff in Ec as [_ Ec].
  done.
Qed.

Lemma is_operator_cases (op : byte) :
  is_operator op = true ->
  op = "*"%byte \/ op = "+"%byte \/ op = ","%byte \/
  op = "-"%byte \/ op = "."%byte \/ op = "/"%byte.
Proof. destruct op; intros H; vm_compute in H; try discriminate H; auto 10. Qed.

Lemma decinteger_value (ds : bytes) (a : Z) :
  decinteger ds = Some a -> a = decimal_value ds.
Proof.
  unfold decinteger. destruct (forallb _ ds); [by intros [= <-]|].
  destruct (bool_decide _); [done|].
  destruct (max_str_digits <? _); [done|]. by intros [= <-].
Qed.

(** [eval] refuses exactly the bad literals. *)
Lemma decinteger_None (ds : bytes) : decinteger ds = None <-> bad_literal ds.
Proof.
  unfold decinteger, bad_literal. destruct (forallb _ ds).
  { split; [done|]. by intros [? _]. }
  destruct (bool_decide_reflect (head ds = Some "0"%byte)) as [H0|H0].
  { split; [|done]. intros _. split; [done|by left]. }
  destruct (Z.ltb_spec max_str_digits (Z.of_nat (length ds))) as [Hl|Hl].
  - split; [|done]. intros _. split; [done|by right].
  - split; [done|]. intros [_ [H|H]]; [done|lia].
Qed.

Lemma decinteger_good (ds : bytes) :
  ~ bad_literal ds -> decinteger ds = Some (decimal_value ds).
Proof.
  intros H. destruct (decinteger ds) as [a|] eqn:E.
  - by rewrite (decinteger_value ds a E).
  - by apply decinteger_None in E.
Qed.

Lemma decimal_value_zeros (ds : bytes) :
  forallb (fun c => bool_decide (c = "0"%byte)) ds = true -> decimal_value ds = 0.
Proof.
  induction ds as [|c ds IH] using rev_ind; [done|].
  rewrite forallb_app; simpl. rewrite andb_true_r, andb_true_iff.
  intros [H1 H2]. apply bool_decide_eq_true in H2 as ->.
  rewrite decimal_value_snoc, (IH H1). reflexivity.
Qed.

(** The value of a literal that [eval] accepts has at most
    [max_str_digits] digits. *)
Lemma decinteger_bound (ds : bytes) (a : Z) :
  forallb is_digit ds = true -> decinteger ds = Some a ->
  0 <= a < 10 ^ max_str_digits.
Proof.
  intros Hd H. unfold decinteger in H.
  destruct (forallb (fun c => bool_decide (c = "0"%byte)) ds) eqn:Ez.
  { injection H as <-. rewrite (decimal_value_zeros ds Ez).
    split; [lia|]. apply Z.pow_pos_nonneg; unfold max_str_digits; lia. }
  destruct (bool_decide _); [done|].
  destruct (Z.ltb_spec max_str_digits (Z.of_nat (length ds))) as [|Hl]; [done|].
  injection H as <-.
  pose proof (decimal_value_nonneg ds Hd). pose proof (decimal_value_bound ds Hd).
  assert (10 ^ Z.of_nat (length ds) <= 10 ^ max_str_digits)
    by (apply Z.pow_le_mono_r; lia).
  lia.
Qed.

Lemma decinteger_canonical (ds : bytes) :
  ds = bs "0" \/ head ds <> Some "0"%byte ->
  Z.of_nat (length ds) <= max_str_digits ->
  decinteger ds = Some (decimal_value ds).
Proof.
  intros Hc Hl. apply decinteger_good. intros [Hz [H|H]]; [|lia].
  destruct Hc as [->|Hc]; [discriminate Hz|done].
Qed.

(** [str] writes back a run of digits without superfluous zeros that is
    within the limit. *)
Lemma py_str_int_canonical (ds : bytes) :
  ds <> [] -> forallb is_digit ds = true ->
  ds = bs "0" \/ head ds <> Some "0"%byte ->
  Z.of_nat (length ds) <= max_str_digits ->
  py_str_int (decimal_value ds) = Some ds.
Proof.
  intros Hne Hd Hc Hl. pose proof (decimal_value_nonneg ds Hd).
  assert (E : decimal_text (decimal_value ds) = ds).
  { rewrite decimal_text_nonneg by done. apply str_digits_canonical; [done..|lia]. }
  apply py_str_int_Some. rewrite E. split; [done|].
  by rewrite count_digits_digits.
Qed.

Lemma decimal_text_length (n : Z) (k : nat) :
  (1 <= k)%nat -> - 10 ^ Z.of_nat k < n < 10 ^ Z.of_nat k ->
  (length (decimal_text n) <= (if (n <? 0)%Z then S k else k))%nat.
Proof.
  intros Hk Hn. unfold decimal_text. destruct (n <? 0) eqn:E.
  - cbn [length]. apply le_n_S. apply str_digits_length; lia.
  - apply str_digits_length; lia.
Qed.

Lemma py_str_int_small (n : Z) :
  Z.abs n < 10 ^ max_str_digits -> py_str_int n = Some (decimal_text n).
Proof.
  intros H. destruct (py_str_int n) as [text|] eqn:E.
  - by apply py_str_int_Some in E as [-> _].
  - apply py_str_int_None in E. lia.
Qed.

Ltac decide_operator :=
  repeat first [ rewrite bool_decide_eq_true_2 by reflexivity
               | rewrite bool_decide_eq_false_2 by discriminate ].

Section CombineExpressionsMore.

Variable float : Type.
Variable true_div : Z -> Z -> option float.
Variable float_str : float -> bytes.

(** What the pass does with two literals that [eval] accepts. *)
Lemma combine_expressions_good (tc lhs rhs : bytes) (op : byte) (a b : Z) :
  match_expression tc = Some (lhs, op, rhs) ->
  decinteger lhs = Some a -> decinteger rhs = Some b ->
  0 <= a < 10 ^ max_str_digits -> 0 <= b < 10 ^ max_str_digits ->
  combine_expressions float true_div float_str tc
  = Some (if bool_decide (op = "*"%byte) then
            match py_str_int (a * b) with
            | Some text => Proposed text
            | None => Propagated ValueError
            end
          else if bool_decide (op = "+"%byte) then
            match py_str_int (a + b) with
            | Some text => Proposed text
            | None => Propagated ValueError
            end
          else if bool_decide (op = "-"%byte) then Proposed (decimal_text (a - b))
          else if bool_decide (op = ","%byte) then
            Proposed (bs "(" ++ decimal_text a ++ bs ", " ++ decimal_text b ++ bs ")")
          else if bool_decide (op = "/"%byte) then
            if b =? 0 then Passed
            else match true_div a b with
                 | Some x => Proposed (float_str x)
                 | None => Passed
                 end
          else Propagated SyntaxError).
Proof.
  intros Hm Ha Hb Ra Rb. unfold combine_expressions. rewrite Hm. f_equal.
  unfold py_eval. rewrite Ha, Hb.
  destruct (bool_decide (op = "*"%byte)); [done|].
  destruct (bool_decide (op = "+"%byte)); [done|].
  destruct (bool_decide (op = "-"%byte)).
  { cbn [py_str]. by rewrite py_str_int_small by lia. }
  destruct (bool_decide (op = ","%byte)).
  { cbn [py_str]. by rewrite !py_str_int_small by lia. }
  destruct (bool_decide (op = "/"%byte)); [|done].
  destruct (b =? 0); [done|]. by destruct (true_div a b).
Qed.

Lemma combine_expressions_bad (tc lhs rhs : bytes) (op : byte) :
  match_expression tc = Some (lhs, op, rhs) ->
  bad_literal lhs \/ bad_literal rhs ->
  combine_expressions float true_div float_str tc = Some (Propagated SyntaxError).
Proof.
  intros Hm H. unfold combine_expressions. rewrite Hm. unfold py_eval.
  destruct H as [H|H]; apply decinteger_None in H; rewrite H; [done|].
  by destruct (decinteger lhs).
Qed.

End CombineExpressionsMore.

(** The limit at work: a region of 4301 digits is refused by [parse];
    as an operand it makes [eval] raise [SyntaxError]; and the sum of
    4300 nines and one, a number of 4301 digits, makes [str] raise
    [ValueError]. *)
Example IntegerFormat_parse_over_limit :
  IntegerFormat.parse (replicate 4301 "1"%byte) = None.
Proof. vm_compute. reflexivity. Qed.

Example combine_expressions_literal_over_limit
    (float : Type) (true_div : Z -> Z -> option float) (float_str : float -> bytes) :
  combine_expressions float true_div float_str (replicate 4301 "1"%byte ++ bs " + 1")
  = Some (Propagated SyntaxError).
Proof.
  apply (combine_expressions_bad float true_div float_str _
           (replicate 4301 "1"%byte) (bs "1") "+"%byte).
  - vm_compute. reflexivity.
  - left. split; [reflexivity|]. right. vm_compute. reflexivity.
Qed.

Example combine_expressions_result_over_limit
    (float : Type) (true_div : Z -> Z -> option float) (float_str : float -> bytes) :
  combine_expressions float true_div float_str (replicate 4300 "9"%byte ++ bs " + 1")
  = Some (Propagated ValueError).
Proof.
  assert (Hm : match_expression (replicate 4300 "9"%byte ++ bs " + 1")
               = Some (replicate 4300 "9"%byte, "+"%byte, bs "1"))
    by (vm_compute; reflexivity).
  assert (Ha : decinteger (replicate 4300 "9"%byte)
               = Some (decimal_value (replicate 4300 "9"%byte))).
  { apply decinteger_canonical; [right; discriminate|]. vm_compute. discriminate. }
  assert (Hd : forallb is_digit (replicate 4300 "9"%byte) = true)
    by (vm_compute; reflexivity).
  rewrite (combine_expressions_good float true_div float_str _ _ _ _ _ 1 Hm Ha eq_refl
             (decinteger_bound _ _ Hd Ha)).
  2:{ split; [lia|]. apply Z.pow_gt_1; unfold max_str_digits; lia. }
  decide_operator.
  assert (Hn : py_str_int (decimal_value (replicate 4300 "9"%byte) + 1) = None).
  { apply py_str_int_None. vm_compute. discriminate. }
  by rewrite Hn.
Qed.

(** X18: on a region of its pattern [combine_expressions] lets an
    exception out in two cases only.  It is [SyntaxError] exactly when an
    operand is a literal that [eval] refuses (not all zeros, and with a
    leading zero or more than [max_str_digits] (4300) digits) or the
    operator is the dot.  It is [ValueError], from [str], exactly when
    both operands are accepted and the product or the sum has more than
    [max_str_digits] digits.  A [ZeroDivisionError] or an [OverflowError]
    never leaves the pass. *)
Theorem combine_expressions_raises_iff
    (float : Type) (true_div : Z -> Z -> option float) (float_str : float -> bytes)
    (tc lhs rhs : bytes) (op : byte) (e : exn) :
  match_expression tc = Some (lhs, op, rhs) ->
  combine_expressions float true_div float_str tc = Some (Propagated e) <->
  (e = SyntaxError /\
   (bad_literal lhs \/ bad_literal rhs \/ op = "."%byte)) \/
  (e = ValueError /\ ~ bad_literal lhs /\ ~ bad_literal rhs /\
   ((op = "*"%byte /\
     10 ^ max_str_digits <= decimal_value lhs * decimal_value rhs) \/
    (op = "+"%byte /\
     10 ^ max_str_digits <= decimal_value lhs + decimal_value rhs))).
Proof.
  intros Hm.
  destruct (match_expression_parts _ _ _ _ Hm) as (_ & Hld & _ & Hrd & Hop).
  destruct (decinteger lhs) as [a|] eqn:Ea.
  2:{ apply decinteger_None in Ea.
      rewrite (combine_expressions_bad float true_div float_str tc lhs rhs op Hm)
        by (by left).
      split.
      - intros [= <-]. left. auto.
      - intros [[-> _]|(_ & H & _)]; done. }
  destruct (decinteger rhs) as [b|] eqn:Eb.
  2:{ apply decinteger_None in Eb.
      rewrite (combine_expressions_bad float true_div float_str tc lhs rhs op Hm)
        by (by right).
      split.
      - intros [= <-]. left. auto.
      - intros [[-> _]|(_ & _ & H & _)]; done. }
  assert (Hgl : ~ bad_literal lhs) by (rewrite <- decinteger_None; congruence).
  assert (Hgr : ~ bad_literal rhs) by (rewrite <- decinteger_None; congruence).
  pose proof (decinteger_bound lhs a Hld Ea) as Ra.
  pose proof (decinteger_bound rhs b Hrd Eb) as Rb.
  rewrite (combine_expressions_good float true_div float_str tc lhs rhs op a b
             Hm Ea Eb Ra Rb).
  apply decinteger_value in Ea, Eb. subst a b.
  set (a := decimal_value lhs) in *. set (b := decimal_value rhs) in *.
  destruct (is_operator_cases op Hop) as [->|[->|[->|[->|[->| ->]]]]];
    decide_operator.
  - destruct (py_str_int (a * b)) as [text|] eqn:E.
    + apply py_str_int_Some in E as [_ E]. split; [done|].
      intros [[_ [H|[H|H]]]|(_ & _ & _ & [[_ H]|[H _]])]; try done.
      assert (Hn : py_str_int (a * b) = None) by (apply py_str_int_None; nia).
      pose proof (proj2 (py_str_int_Some (a * b) (decimal_text (a * b)))
                    (conj eq_refl E)) as Hs.
      congruence.
    + apply py_str_int_None in E. split.
      * intros [= <-]. right. repeat split; try done. left. split; [done|nia].
      * intros [[_ [H|[H|H]]]|(-> & _)]; done.
  - destruct (py_str_int (a + b)) as [text|] eqn:E.
    + apply py_str_int_Some in E as [_ E]. split; [done|].
      intros [[_ [H|[H|H]]]|(_ & _ & _ & [[H _]|[_ H]])]; try done.
      assert (Hn : py_str_int (a + b) = None) by (apply py_str_int_None; lia).
      pose proof (proj2 (py_str_int_Some (a + b) (decimal_text (a + b)))
                    (conj eq_refl E)) as Hs.
      congruence.
    + apply py_str_int_None in E. split.
      * intros [= <-]. right. repeat split; try done. right. split; [done|lia].
      * intros [[_ [H|[H|H]]]|(-> & _)]; done.
  - split; [done|].
    intros [[_ [H|[H|H]]]|(_ & _ & _ & [[H _]|[H _]])]; done.
  - split; [done|].
    intros [[_ [H|[H|H]]]|(_ & _ & _ & [[H _]|[H _]])]; done.
  - split; [intros [= <-]; left; auto|].
    intros [[-> _]|(_ & _ & _ & [[H _]|[H _]])]; done.
  - assert (Hnot : forall r, (if b =? 0 then Passed
                    else match true_div a b with
                         | Some x => Proposed (float_str x)
                         | None => Passed
                         end) <> Propagated r).
    { intros r. destruct (b =? 0); [done|]. by destruct (true_div a b). }
    split; [intros [= H]; by apply Hnot in H|].
    intros [[_ [H|[H|H]]]|(_ & _ & _ & [[H _]|[H _]])]; done.
Qed.

Lemma combine_expressions_raises_iff_witness :
  combine_expressions unit (fun _ _ => None) (fun _ => []) (bs "1 / 0")
  = Some (Propagated ZeroDivisionError) <->
  (ZeroDivisionError = SyntaxError /\
   (bad_literal (bs "1") \/ bad_literal (bs "0") \/ "/"%byte = "."%byte)) \/
  (ZeroDivisionError = ValueError /\ ~ bad_literal (bs "1") /\ ~ bad_literal (bs "0") /\
   (("/"%byte = "*"%byte /\
     10 ^ max_str_digits <= decimal_value (bs "1") * decimal_value (bs "0")) \/
    ("/"%byte = "+"%byte /\
     10 ^ max_str_digits <= decimal_value (bs "1") + decimal_value (bs "0")))).
Proof.
  apply (combine_expressions_raises_iff unit (fun _ _ => None) (fun _ => [])
           (bs "1 / 0") (bs "1") (bs "0") "/"%byte ZeroDivisionError).
  reflexivity.
Defined.

(** X19: for the operators [*], [+] and [-] the proposal of
    [combine_expressions] is the text of an integer and has at most as
    many bytes as the two numbers together, three fewer than the
    expression it replaces. *)
Theorem combine_expressions_shortens
    (float : Type) (true_div : Z -> Z -> option float) (float_str : float -> bytes)
    (tc lhs rhs s : bytes) (op : byte) :
  match_expression tc = Some (lhs, op, rhs) ->
  op = "*"%byte \/ op = "+"%byte \/ op = "-"%byte ->
  combine_expressions float true_div float_str tc = Some (Proposed s) ->
  (exists n, IntegerFormat.parse s = Some n) /\
  (length s + 3 <= length lhs + 3 + length rhs)%nat.
Proof.
  intros Hm Hop.
  destruct (match_expression_parts _ _ _ _ Hm) as (Hl & Hld & Hr & Hrd & _).
  destruct (decinteger lhs) as [a|] eqn:Ea.
  2:{ apply decinteger_None in Ea.
      by rewrite (combine_expressions_bad float true_div float_str tc lhs rhs op Hm)
        by (by left). }
  destruct (decinteger rhs) as [b|] eqn:Eb.
  2:{ apply decinteger_None in Eb.
      by rewrite (combine_expressions_bad float true_div float_str tc lhs rhs op Hm)
        by (by right). }
  pose proof (decinteger_bound lhs a Hld Ea) as Ra.
  pose proof (decinteger_bound rhs b Hrd Eb) as Rb.
  rewrite (combine_expressions_good float true_div float_str tc lhs rhs op a b
             Hm Ea Eb Ra Rb).
  apply decinteger_value in Ea, Eb.
  pose proof (decimal_value_bound lhs Hld) as Ha1.
  pose proof (decimal_value_bound rhs Hrd) as Hb1.
  rewrite <- Ea in Ha1. rewrite <- Eb in Hb1.
  assert (Hla : (1 <= length lhs)%nat) by (destruct lhs; [done|simpl; lia]).
  assert (Hlb : (1 <= length rhs)%nat) by (destruct rhs; [done|simpl; lia]).
  assert (Hpa : 10 <= 10 ^ Z.of_nat (length lhs)).
  { change 10 with (10 ^ 1) at 1. apply Z.pow_le_mono_r; lia. }
  assert (Hpb : 10 <= 10 ^ Z.of_nat (length rhs)).
  { change 10 with (10 ^ 1) at 1. apply Z.pow_le_mono_r; lia. }
  assert (Hpow : 10 ^ Z.of_nat (length lhs + length rhs)
                 = 10 ^ Z.of_nat (length lhs) * 10 ^ Z.of_nat (length rhs)).
  { rewrite Nat2Z.inj_add. apply Z.pow_add_r; lia. }
  assert (Hsmall : forall n text, py_str_int n = Some text ->
            Z.abs n < 10 ^ Z.of_nat (length lhs + length rhs) -> 0 <= n ->
            (exists k, IntegerFormat.parse text = Some k) /\
            (length text + 3 <= length lhs + 3 + length rhs)%nat).
  { intros n text E Hn H0. apply py_str_int_Some in E as [-> E]. split.
    - exists n. by apply IntegerFormat_parse_decimal_text.
    - pose proof (decimal_text_length n (length lhs + length rhs)) as H.
      replace (n <? 0) with false in H by lia.
      specialize (H ltac:(lia) ltac:(lia)). lia. }
  destruct Hop as [->|[->| ->]]; decide_operator.
  - destruct (py_str_int (a * b)) as [text|] eqn:E; [|done]. intros [= <-].
    apply (Hsmall (a * b)); [done| |nia]. rewrite Hpow. nia.
  - destruct (py_str_int (a + b)) as [text|] eqn:E; [|done]. intros [= <-].
    apply (Hsmall (a + b)); [done| |lia]. rewrite Hpow. nia.
  - intros [= <-]. split.
    + exists (a - b). apply IntegerFormat_parse_decimal_text.
      assert (E : py_str_int (a - b) = Some (decimal_text (a - b)))
        by (apply py_str_int_small; lia).
      by apply py_str_int_Some in E as [_ E].
    + destruct (a - b <? 0) eqn:En.
      * pose proof (decimal_text_length (a - b) (length rhs)) as H.
        rewrite En in H. specialize (H ltac:(lia) ltac:(lia)). lia.
      * pose proof (decimal_text_length (a - b) (length lhs)) as H.
        rewrite En in H. specialize (H ltac:(lia) ltac:(lia)). lia.
Qed.

Lemma combine_expressions_shortens_witness :
  (exists n, IntegerFormat.parse (bs "-92") = Some n) /\
  (length (bs "-92") + 3 <= length (bs "7") + 3 + length (bs "99"))%nat.
Proof.
  apply (combine_expressions_shortens unit (fun _ _ => None) (fun _ => [])
           (bs "7 - 99") (bs "7") (bs "99") (bs "-92") "-"%byte).
  - reflexivity.
  - right. right. reflexivity.
  - reflexivity.
Defined.

(** X20: the comma lies in the range of the operator class.  For two
    numbers without superfluous leading zeros and of at most
    [max_str_digits] (4300) digits each, the proposal of
    [combine_expressions] is the text of the pair, which is one byte
    longer than the expression it replaces. *)
Theorem combine_expressions_comma_grows
    (float : Type) (true_div : Z -> Z -> option float) (float_str : float -> bytes)
    (tc lhs rhs : bytes) :
  match_expression tc = Some (lhs, ","%byte, rhs) ->
  lhs = bs "0" \/ head lhs <> Some "0"%byte ->
  rhs = bs "0" \/ head rhs <> Some "0"%byte ->
  Z.of_nat (length lhs) <= max_str_digits ->
  Z.of_nat (length rhs) <= max_str_digits ->
  exists s,
    combine_expressions float true_div float_str tc = Some (Proposed s) /\
    s = bs "(" ++ lhs ++ bs ", " ++ rhs ++ bs ")" /\
    length s = (length lhs + 3 + length rhs + 1)%nat.
Proof.
  intros Hm Hcl Hcr Hll Hlr.
  destruct (match_expression_parts _ _ _ _ Hm) as (Hl & Hld & Hr & Hrd & _).
  eexists. split; [|split; [reflexivity|rewrite !length_app; simpl; lia]].
  unfold combine_expressions. rewrite Hm. unfold py_eval.
  rewrite (decinteger_canonical lhs Hcl Hll), (decinteger_canonical rhs Hcr Hlr).
  decide_operator. cbn [py_str].
  by rewrite (py_str_int_canonical lhs), (py_str_int_canonical rhs).
Qed.

Lemma combine_expressions_comma_grows_witness :
  exists s,
    combine_expressions unit (fun _ _ => None) (fun _ => []) (bs "10 , 2")
    = Some (Proposed s) /\
    s = bs "(" ++ bs "10" ++ bs ", " ++ bs "2" ++ bs ")" /\
    length s = (length (bs "10") + 3 + length (bs "2") + 1)%nat.
Proof.
  apply (combine_expressions_comma_grows unit (fun _ _ => None) (fun _ => [])
           (bs "10 , 2") (bs "10") (bs "2")).
  - reflexivity.
  - right. discriminate.
  - right. discriminate.
  - unfold max_str_digits. simpl. lia.
  - unfold max_str_digits. simpl. lia.
Defined.

(** ** normalize_identifiers: the candidate only goes down *)

Lemma bytes_compare_antisym (a : bytes) :
  forall b, bytes_compare b a = CompOpp (bytes_compare a b).
Proof.
  induction a as [|x a IH]; intros [|y b]; simpl; try done.
  rewrite (Z.compare_antisym (byte_val x) (byte_val y)).
  destruct (byte_val x ?= byte_val y); simpl; [apply IH|done|done].
Qed.

Lemma bytes_compare_lt_trans (a : bytes) :
  forall b c, bytes_compare a b = Lt -> bytes_compare b c = Lt ->
    bytes_compare a c = Lt.
Proof.
  induction a as [|x a IH]; intros [|y b] [|z c]; simpl; try done.
  destruct (Z.compare_spec (byte_val x) (byte_val y)),
           (Z.compare_spec (byte_val y) (byte_val z)),
           (Z.compare_spec (byte_val x) (byte_val z));
    try done; try (exfalso; lia); eauto.
Qed.

Lemma bytes_compare_le_trans (a : bytes) :
  forall b c, bytes_compare a b <> Gt -> bytes_compare b c <> Gt ->
    bytes_compare a c <> Gt.
Proof.
  induction a as [|x a IH]; intros [|y b] [|z c]; simpl; try done.
  destruct (Z.compare_spec (byte_val x) (byte_val y)),
           (Z.compare_spec (byte_val y) (byte_val z)),
           (Z.compare_spec (byte_val x) (byte_val z));
    try done; try (exfalso; lia); eauto.
Qed.

Lemma bytes_compare_app_lt (r : bytes) :
  forall t x y, length r = length t -> bytes_compare r t = Lt ->
    bytes_compare (r ++ x) (t ++ y) = Lt.
Proof.
  induction r as [|a r IH]; intros [|b t] x y Hl H; simpl in *; try done.
  destruct (byte_val a ?= byte_val b); try done. apply IH; [lia|done].
Qed.

Lemma shortlex_lt_trans (a b c : bytes) :
  shortlex_lt a b -> shortlex_lt b c -> shortlex_lt a c.
Proof.
  intros [H1|[H1 C1]] [H2|[H2 C2]]; try (left; lia).
  right. split; [lia|]. by eapply bytes_compare_lt_trans.
Qed.

Lemma shortlex_le_spec (x y : bytes) :
  shortlex_le x y <->
  (length x < length y)%nat \/ (length x = length y /\ bytes_compare x y <> Gt).
Proof.
  unfold shortlex_le, key_ge, shortlex. cbn [fst snd].
  rewrite (bytes_compare_antisym x y).
  destruct (Nat.compare_spec (length y) (length x)) as [E|L|G].
  - destruct (bytes_compare x y); simpl; split; intros H; try done;
      try (right; split; [lia|done]); destruct H as [H|[_ H]]; try lia; done.
  - split; [done|]. intros [H|[H _]]; lia.
  - split; [by left|done].
Qed.

Lemma shortlex_le_refl (x : bytes) : shortlex_le x x.
Proof. apply shortlex_le_spec. right. by rewrite bytes_compare_refl. Qed.

Lemma shortlex_le_total : Total shortlex_le.
Proof.
  intros x y. rewrite !shortlex_le_spec, (bytes_compare_antisym x y).
  destruct (Nat.lt_trichotomy (length x) (length y)) as [H|[H|H]]; [by left; left| |by right; left].
  destruct (bytes_compare x y); simpl.
  - left. right. done.
  - left. right. done.
  - right. right. done.
Qed.

Lemma shortlex_le_trans : Transitive shortlex_le.
Proof.
  intros x y z. rewrite !shortlex_le_spec.
  intros [H1|[H1 C1]] [H2|[H2 C2]]; try (left; lia).
  right. split; [lia|]. by eapply bytes_compare_le_trans.
Qed.

(** [sorted(..., key=shortlex)] is in ascending order. *)
Lemma sorted_shortlex_sorted (xs : gset bytes) :
  StronglySorted shortlex_le (sorted_shortlex xs).
Proof.
  unfold sorted_shortlex.
  apply (@StronglySorted_merge_sort _ shortlex_le _ shortlex_le_trans shortlex_le_total).
Qed.

Section SubWordOrder.

Variables t r : bytes.
Hypothesis Hlen : length r = length t.
Hypothesis Ht : t <> [].

Lemma sub_word_length_eq :
  forall s skip prev,
    (skip <= length s)%nat ->
    (length (sub_word t r skip prev s) + skip = length s)%nat.
Proof.
  induction s as [|c rest IH]; intros skip prev Hs.
  - simpl in *. lia.
  - cbn [sub_word]. destruct skip as [|k].
    + destruct (match_word_here t prev (c :: rest)) eqn:Em.
      * apply match_word_here_prefix in Em as [rest' E].
        destruct t as [|t0 t']; [done|].
        assert (Hl : (length (t0 :: t') - 1 <= length rest)%nat).
        { apply (f_equal length) in E. rewrite length_app in E. simpl in *. lia. }
        specialize (IH _ (Some c) Hl).
        rewrite length_app. simpl in *. lia.
      * specialize (IH 0%nat (Some c) ltac:(lia)). cbn [length]. lia.
    + cbn [length] in *. specialize (IH k (Some c) ltac:(lia)). lia.
Qed.

Lemma sub_word_compare_lt :
  bytes_compare r t = Lt ->
  forall s prev,
    search_word t prev s = true ->
    bytes_compare (sub_word t r 0 prev s) s = Lt.
Proof.
  intros Hc. induction s as [|c rest IH]; intros prev Hs.
  - by rewrite search_word_nil in Hs.
  - cbn [sub_word search_word] in *.
    destruct (match_word_here t prev (c :: rest)) eqn:Em.
    + apply match_word_here_prefix in Em as [rest' E].
      rewrite E. by apply bytes_compare_app_lt.
    + simpl in Hs. simpl. rewrite Z.compare_refl. by apply IH.
Qed.

End SubWordOrder.

(** Renaming [t] into a strictly shortlex-smaller [r] makes a source
    that mentions [t] strictly shortlex-smaller. *)
Lemma sub_word_shortlex_lt (t r source : bytes) :
  search_word t None source = true -> shortlex_lt r t ->
  shortlex_lt (sub_word t r 0 None source) source.
Proof.
  intros Hs Hlt. destruct (shortlex_lt_neq r t Hlt) as [_ Ht].
  destruct Hlt as [Hl|[Hl Hc]].
  - left. by apply sub_word_shorter.
  - right. split.
    + pose proof (sub_word_length_eq t r Hl Ht source 0 None ltac:(lia)). lia.
    + by apply sub_word_compare_lt.
Qed.

Section NormalizeIdentifiersOrder.

Variable oracle : bytes -> bool.

(** What [find_first_value] finds with [can_replace]: the first member of
    the pool that is strictly shortlex-smaller than [t] and that the
    oracle accepts. *)
Lemma find_first_value_first (t source : bytes)
    (Hs : search_word t None source = true) :
  forall ls p, exists res p',
    find_first_value ls (can_replace oracle t source) p = inr (res, p') /\
    match res with
    | Some r0 =>
        exists l1 l2, ls = l1 ++ r0 :: l2 /\ shortlex_lt r0 t /\
          oracle (sub_word t r0 0 None source) = true /\
          current_test_case p' = sub_word t r0 0 None source /\
          Forall (fun r' => shortlex_lt r' t ->
                            oracle (sub_word t r' 0 None source) = false) l1
    | None =>
        current_test_case p' = current_test_case p /\
        Forall (fun r' => shortlex_lt r' t ->
                          oracle (sub_word t r' 0 None source) = false) ls
    end.
Proof.
  induction ls as [|r ls IH]; intros p.
  - exists None, p. split; [done|]. split; [done|constructor].
  - cbn [find_first_value].
    destruct (decide (key_ge (shortlex r) (shortlex t) = false)) as [E|E].
    + apply key_ge_shortlex in E as Hlt.
      rewrite (can_replace_probes oracle t source r p Hs Hlt).
      unfold is_interesting.
      destruct (oracle (sub_word t r 0 None source)) eqn:Eo.
      * eexists (Some r), _. split; [reflexivity|].
        exists [], ls. repeat split; done.
      * destruct (IH (Session (current_test_case p)
                       (probes p ++ [(sub_word t r 0 None source, false)])))
          as (res & p' & Hrun & Hres).
        exists res, p'. split; [exact Hrun|]. destruct res as [r0|].
        -- destruct Hres as (l1 & l2 & -> & H1 & H2 & H3 & H4).
           exists (r :: l1), l2. repeat split; try done. by constructor.
        -- destruct Hres as [Hc Hall]. split; [exact Hc|]. by constructor.
    + rewrite can_replace_skips.
      2:{ intros Hlt. by apply key_ge_shortlex in Hlt. }
      destruct (IH p) as (res & p' & Hrun & Hres).
      exists res, p'. split; [exact Hrun|]. destruct res as [r0|].
      * destruct Hres as (l1 & l2 & -> & H1 & H2 & H3 & H4).
        exists (r :: l1), l2. repeat split; try done.
        constructor; [|done]. intros Hlt. by apply key_ge_shortlex in Hlt.
      * destruct Hres as [Hc Hall]. split; [exact Hc|].
        constructor; [|done]. intros Hlt. by apply key_ge_shortlex in Hlt.
Qed.

Lemma normalize_target_down (replacements : list bytes) (t : bytes)
    (p : session bytes) :
  exists p', normalize_target oracle replacements t p = inr p' /\ went_down oracle p p'.
Proof.
  unfold normalize_target.
  destruct (search_word t None (current_test_case p)) eqn:Hs; cbn [negb].
  - destruct (find_first_value_first t (current_test_case p) Hs replacements p)
      as (res & p' & -> & Hres).
    exists p'. split; [done|]. destruct res as [r0|].
    + destruct Hres as (l1 & l2 & _ & Hlt & Ho & Hc & _). right.
      rewrite Hc. split; [by apply sub_word_shortlex_lt|done].
    + destruct Hres as [Hc _]. by left.
  - exists p. split; [done|]. by left.
Qed.

Lemma normalize_targets_down (replacements : list bytes) :
  forall targets p,
    exists p', normalize_targets oracle replacements targets p = inr p' /\
      went_down oracle p p'.
Proof.
  induction targets as [|t rest IH]; intros p.
  - exists p. split; [done|]. by left.
  - cbn [normalize_targets].
    destruct (normalize_target_down replacements t p) as (p1 & -> & H1).
    destruct (IH p1) as (p' & Hrun & H2).
    exists p'. split; [exact Hrun|].
    destruct H1 as [E1|[L1 O1]], H2 as [E2|[L2 O2]].
    + left. congruence.
    + right. rewrite <- E1. done.
    + right. rewrite E2. done.
    + right. split; [by eapply shortlex_lt_trans|done].
Qed.

End NormalizeIdentifiersOrder.

(** X21: [normalize_identifiers] never raises, and the candidate it
    leaves is the one it started from or one that is strictly
    shortlex-smaller (shorter, or as long and lexicographically smaller)
    and that the oracle accepted. *)
Theorem normalize_identifiers_decreases (oracle : bytes -> bool) (p : session bytes) :
  exists p',
    normalize_identifiers oracle p = inr p' /\
    (current_test_case p' = current_test_case p \/
     (shortlex_lt (current_test_case p') (current_test_case p) /\
      oracle (current_test_case p') = true)).
Proof.
  rewrite normalize_identifiers_unfold.
  destruct (normalize_targets_down oracle (pool_of (current_test_case p))
              (targets_of (current_test_case p)) p) as (p' & H & Hd).
  by exists p'.
Qed.

(** X22: with [find_first_value] trying the pool in the order given, the
    replacement that [normalize_identifiers] accepts for a target [t] is
    the shortlex-smallest member of the pool that the oracle accepts: if
    some member [r] of the pool, strictly shortlex-smaller than [t], gives
    an interesting renaming, the round ends on the renaming by an [r0] of
    the pool that is not shortlex-larger than [r]. *)
Theorem normalize_target_picks_least (oracle : bytes -> bool) (tc t r : bytes)
    (k : nat) (p : session bytes) :
  search_word t None (current_test_case p) = true ->
  pool_of tc !! k = Some r ->
  shortlex_lt r t ->
  oracle (sub_word t r 0 None (current_test_case p)) = true ->
  exists r0 p',
    normalize_target oracle (pool_of tc) t p = inr p' /\
    r0 ∈ pool_of tc /\ shortlex_le r0 r /\ shortlex_lt r0 t /\
    current_test_case p' = sub_word t r0 0 None (current_test_case p) /\
    oracle (current_test_case p') = true.
Proof.
  intros Hs Hk Hlt Ho. unfold normalize_target. rewrite Hs. cbn [negb].
  destruct (find_first_value_first oracle t (current_test_case p) Hs (pool_of tc) p)
    as (res & p' & -> & Hres).
  apply list_elem_of_lookup_2 in Hk.
  destruct res as [r0|].
  - destruct Hres as (l1 & l2 & E & Hlt0 & Ho0 & Hc & Hbefore).
    exists r0, p'. split; [done|].
    assert (Hsorted : StronglySorted shortlex_le (pool_of tc))
      by apply sorted_shortlex_sorted.
    rewrite E in Hk, Hsorted |- *.
    split; [apply elem_of_app; right; apply elem_of_cons; by left|].
    split; [|split; [done|split; [done|by rewrite Hc]]].
    apply elem_of_app in Hk as [Hk|Hk].
    + rewrite Forall_forall in Hbefore. rewrite (Hbefore r Hk Hlt) in Ho. done.
    + apply StronglySorted_app_1_r in Hsorted.
      apply StronglySorted_cons in Hsorted as [Hall _].
      apply elem_of_cons in Hk as [->|Hk]; [apply shortlex_le_refl|].
      rewrite Forall_forall in Hall. by apply Hall.
  - destruct Hres as [_ Hall]. rewrite Forall_forall in Hall.
    rewrite (Hall r Hk Hlt) in Ho. done.
Qed.

Lemma normalize_target_picks_least_witness :
  exists r0 p',
    normalize_target (fun c => bool_decide (c <> bs "A = b")) (pool_of (bs "foo = b"))
      (bs "foo") (new_session (bs "foo = b")) = inr p' /\
    r0 ∈ pool_of (bs "foo = b") /\ shortlex_le r0 (bs "b") /\
    shortlex_lt r0 (bs "foo") /\
    current_test_case p'
    = sub_word (bs "foo") r0 0 None (current_test_case (new_session (bs "foo = b"))) /\
    (fun c => bool_decide (c <> bs "A = b")) (current_test_case p') = true.
Proof.
  apply (normalize_target_picks_least (fun c => bool_decide (c <> bs "A = b"))
           (bs "foo = b") (bs "foo") (bs "b") 2 (new_session (bs "foo = b"))).
  - reflexivity.
  - vm_compute. reflexivity.
  - left. simpl. lia.
  - reflexivity.
Defined.
